(** * FDHSimVenice: the experiment automation service, embedded in Rocq

    A shallow embedding of [services/automationService.ts],
    [services/geminiService.ts] and [services/diffService.ts], with the
    properties of the orchestration-and-consistency core proved over it.

    Conventions of the embedding.
    - A JavaScript string is a [string] whose characters are code units
      below 256; [toLowerCase] acts on [A-Z] only, and white space is the
      8-bit part of the ECMAScript [\s] class.
    - JavaScript numbers that count things are [nat] or [Z]; ratios and
      scores are exact rationals [Q] (the rounding of IEEE doubles is not
      part of the model, [toFixed] is).
    - Asynchronous code is sequential (every call is awaited), so it is
      written in a state-and-exception monad that records the externally
      visible events of an execution. *)

From Stdlib Require Import ZArith QArith Qround Qabs Lqa String Ascii List Bool Lia.
From stdpp Require Import base option list gmap sets strings pretty.

Open Scope string_scope.
Open Scope Z_scope.

(** ** Characters and strings *)

Module Js.

Definition code (c : ascii) : nat := nat_of_ascii c.

Definition LF : ascii := ascii_of_nat 10.

Definition between (lo hi : nat) (c : ascii) : bool :=
  (lo <=? code c)%nat && (code c <=? hi)%nat.

Definition isUpper : ascii -> bool := between 65 90.
Definition isLower : ascii -> bool := between 97 122.
Definition isDigit : ascii -> bool := between 48 57.

(** The class [[a-z0-9]]. *)
Definition isLowerAlnum (c : ascii) : bool := isLower c || isDigit c.

(** The class [\s] on code units below 256: TAB, LF, VT, FF, CR, SP, NBSP. *)
Definition isSpace (c : ascii) : bool :=
  between 9 13 c || (code c =? 32)%nat || (code c =? 160)%nat.

Definition lowerChar (c : ascii) : ascii :=
  if isUpper c then ascii_of_nat (code c + 32) else c.

(** Case-insensitive comparison of a subject character with a pattern
    letter (the [i] flag; only ASCII letters have a case here). *)
Definition eqCI (pat c : ascii) : bool :=
  Ascii.eqb (lowerChar pat) (lowerChar c).

Fixpoint toLowerCase (s : string) : string :=
  match s with
  | EmptyString => EmptyString
  | String c s' => String (lowerChar c) (toLowerCase s')
  end.

Fixpoint filterChars (keep : ascii -> bool) (s : string) : string :=
  match s with
  | EmptyString => EmptyString
  | String c s' =>
      if keep c then String c (filterChars keep s') else filterChars keep s'
  end.

Fixpoint trimStart (s : string) : string :=
  match s with
  | EmptyString => EmptyString
  | String c s' => if isSpace c then trimStart s' else s
  end.

Fixpoint trimEnd (s : string) : string :=
  match s with
  | EmptyString => EmptyString
  | String c s' =>
      match trimEnd s' with
      | EmptyString => if isSpace c then EmptyString else String c EmptyString
      | r => String c r
      end
  end.

(** [String.prototype.trim]. *)
Definition trim (s : string) : string := trimEnd (trimStart s).

(** Truthiness of a string: [!s] holds exactly for the empty string. *)
Definition truthy (s : string) : bool :=
  match s with EmptyString => false | _ => true end.

(** [a.includes(b)]: [b] occurs in [a] at some position. *)
Fixpoint includes (a b : string) : bool :=
  String.prefix b a
  || match a with
     | EmptyString => false
     | String _ a' => includes a' b
     end.

(** [s.replace(/\r\n/g, '\n')]. *)
Fixpoint normalizeNewlines (s : string) : string :=
  match s with
  | EmptyString => EmptyString
  | String c s' =>
      match s' with
      | String d _ =>
          if (code c =? 13)%nat && (code d =? 10)%nat
          then normalizeNewlines s'
          else String c (normalizeNewlines s')
      | EmptyString => String c EmptyString
      end
  end.

(** [s.replace(/\s+/g, ' ')]: every maximal run of white space becomes
    one space.  [inRun] says that the previous character was white. *)
Fixpoint collapseSpaces (inRun : bool) (s : string) : string :=
  match s with
  | EmptyString => EmptyString
  | String c s' =>
      if isSpace c
      then (if inRun then collapseSpaces true s'
            else String " "%char (collapseSpaces true s'))
      else String c (collapseSpaces false s')
  end.

(** [x.toFixed(d)] read back as a number, for [0 <= x]: the multiple of
    [10^-d] nearest to [x], the larger one on a tie. *)
Definition toFixed (d : nat) (x : Q) : Q :=
  let scale := (10 ^ Z.of_nat d)%Z in
  Qmake (Qfloor (x * inject_Z scale + (1 # 2))) (Z.to_pos scale).

Definition Qltb (x y : Q) : bool := negb (Qle_bool y x).

Definition upperChar (c : ascii) : ascii :=
  if isLower c then ascii_of_nat (code c - 32) else c.

Fixpoint toUpperCase (s : string) : string :=
  match s with
  | EmptyString => EmptyString
  | String c s' => String (upperChar c) (toUpperCase s')
  end.

(** [s.replace(/\n{3,}/g, "\n\n")]; [run] counts the line feeds just read. *)
Fixpoint squeezeNewlines (run : nat) (s : string) : string :=
  match s with
  | EmptyString => EmptyString
  | String c s' =>
      if (code c =? 10)%nat
      then (if (run <? 2)%nat then String c (squeezeNewlines (S run) s')
            else squeezeNewlines (S run) s')
      else String c (squeezeNewlines 0 s')
  end.

End Js.

(** ** Lexical utilities ([automationService.ts], lines 22-69) *)

Section Lexical.

Import Js.

(** [text.toLowerCase().split(/[^a-z0-9]+/i).filter(Boolean)]: the
    maximal runs of letters and digits of the lower-cased text.  [cur] is
    the run being read. *)
Fixpoint splitTokens (cur : string) (s : string) : list string :=
  match s with
  | EmptyString => if truthy cur then [cur] else []
  | String c s' =>
      if isLowerAlnum (lowerChar c)
      then splitTokens (cur ++ String c EmptyString) s'
      else ((if truthy cur then [cur] else []) ++ splitTokens EmptyString s')%list
  end.

Definition tokenize (text : string) : list string :=
  splitTokens EmptyString (toLowerCase text).

Definition tokenSet (text : string) : gset string :=
  list_to_set (tokenize text).

(** [jaccard]: [unionSize] is [size || 1]. *)
Definition jaccard (a b : gset string) : Q :=
  let intersection := a ∩ b in
  let unionSize := match size (a ∪ b) with O => 1%nat | n => n end in
  Qmake (Z.of_nat (size intersection)) (Pos.of_nat unionSize).

Definition quoteOverlapScore (a b : string) : Q :=
  if negb (truthy a) || negb (truthy b) then 0
  else if includes a b || includes b a then 1
  else jaccard (tokenSet a) (tokenSet b).

(** The local [clean] of [commentSimilarityScore]. *)
Definition clean (txt : string) : string :=
  trim
    (collapseSpaces false
       (filterChars (fun c => isLowerAlnum c || isSpace c)
          (toLowerCase txt))).

Definition commentSimilarityScore (a b : string) : Q :=
  if negb (truthy a) || negb (truthy b) then 0
  else
    let ca := clean a in
    let cb := clean b in
    if negb (truthy ca) || negb (truthy cb) then 0
    else if String.eqb ca cb || includes ca cb || includes cb ca then 1
    else jaccard (tokenSet ca) (tokenSet cb).

End Lexical.

(** ** The heuristic matcher ([automationService.ts], lines 71-121) *)

(** The part of an annotation the matchers read. *)
Record AnnotationView := mkView { quote : string; comment : string }.

(** A match; the judge's matches carry no scores. *)
Record AnnotationMatch := mkMatch {
  aIndex : Z;
  bIndex : Z;
  reason : string;
  quoteScore : option Q;
  commentScore : option Q
}.

(** [arr.forEach((x, idx) => ...)] as a left fold that threads the state
    the callback mutates; [idx] is the index of the head of [l]. *)
Fixpoint forEachFrom {A St : Type} (f : St -> A -> nat -> St)
    (idx : nat) (l : list A) (s : St) : St :=
  match l with
  | [] => s
  | x :: l' => forEachFrom f (S idx) l' (f s x idx)
  end.

Definition forEach {A St : Type} (f : St -> A -> nat -> St) (l : list A) (s : St) : St :=
  forEachFrom f 0 l s.

Section Fallback.

Import Js.

(** The five [best*] variables of one outer iteration. *)
Record Best := mkBest {
  bestIdx : Z;
  bestScore : Q;
  bestQuote : Q;
  bestComment : Q;
  bestReason : string
}.

Definition noBest : Best := mkBest (-1) 0 0 0 "".

(** [(x * 100).toFixed(0)] printed. *)
Definition percent (x : Q) : string :=
  pretty (Qfloor (x * 100 + (1 # 2))).

Definition reasonText (quoteScore commentScore : Q) : string :=
  "Quote overlap " ++ percent quoteScore ++ "%, comment similarity "
    ++ percent commentScore ++ "%".

(** Body of the inner [annsB.forEach]. *)
Definition considerCandidate (usedB : gset Z) (annA : AnnotationView)
    (best : Best) (annB : AnnotationView) (idxB : nat) : Best :=
  if decide (Z.of_nat idxB ∈ usedB) then best
  else
    let quoteScore := quoteOverlapScore (quote annA) (quote annB) in
    if Qltb quoteScore (35 # 100) then best
    else
      let commentScore := commentSimilarityScore (comment annA) (comment annB) in
      let combined := (quoteScore * (65 # 100) + commentScore * (35 # 100))%Q in
      if Qltb (bestScore best) combined
      then mkBest (Z.of_nat idxB) combined quoteScore commentScore
             (reasonText quoteScore commentScore)
      else best.

(** Body of the outer [annsA.forEach]; the state is [usedB] and [matches]. *)
Definition matchOne (annsB : list AnnotationView)
    (st : gset Z * list AnnotationMatch) (annA : AnnotationView) (idxA : nat)
    : gset Z * list AnnotationMatch :=
  let '(usedB, matches) := st in
  let best := forEach (considerCandidate usedB annA) annsB noBest in
  if decide (bestIdx best ≠ -1)
  then ({[ bestIdx best ]} ∪ usedB,
        (matches ++ [mkMatch (Z.of_nat idxA) (bestIdx best) (bestReason best)
                       (Some (bestQuote best)) (Some (bestComment best))])%list)
  else (usedB, matches).

Definition fallbackAnnotationMatches (annsA annsB : list AnnotationView)
    : list AnnotationMatch :=
  snd (forEach (matchOne annsB) annsA (∅, [])).

End Fallback.

(** ** Diff statistics ([diffService.ts]) *)

Record DiffPart := mkPart { value : string; added : bool; removed : bool }.

Record DiffStats := mkStats {
  additions : nat;
  deletions : nat;
  addedLength : nat;
  removedLength : nat;
  changeRatio : Q
}.

(** [diffWords] of the npm package [diff]: an external word-level differ,
    taken as a parameter. *)
Definition Differ := string -> string -> list DiffPart.

Section Diff.

Variable diffWords : Differ.

Definition calculateDiff (oldText newText : string) : list DiffPart :=
  if negb (Js.truthy oldText) && negb (Js.truthy newText) then []
  else if negb (Js.truthy oldText) then [mkPart newText true false]
  else if negb (Js.truthy newText) then [mkPart oldText false true]
  else
    let nOld := Js.normalizeNewlines oldText in
    let nNew := Js.normalizeNewlines newText in
    diffWords nOld nNew.

(** The four counters the [parts.forEach] of [calculateDiffStats] updates. *)
Definition countPart (acc : nat * nat * nat * nat) (part : DiffPart)
    : nat * nat * nat * nat :=
  let '(additions, deletions, addedLength, removedLength) := acc in
  if added part
  then (S additions, deletions, (addedLength + String.length (value part))%nat, removedLength)
  else if removed part
  then (additions, S deletions, addedLength, (removedLength + String.length (value part))%nat)
  else acc.

Definition calculateDiffStats (oldText newText : string) : DiffStats :=
  let parts := calculateDiff oldText newText in
  let '(additions, deletions, addedLength, removedLength) :=
    fold_left countPart parts (0, 0, 0, 0)%nat in
  let totalLen := match String.length newText with O => 1%nat | n => n end in
  let changeRatio :=
    Qmake (Z.of_nat (addedLength + removedLength)) (Pos.of_nat totalLen) in
  mkStats additions deletions addedLength removedLength (Js.toFixed 4 changeRatio).

End Diff.

(** A differ to run the model with: the old text removed and the new text
    added as wholes, unless they are equal. *)
Definition wholeTextDiffer : Differ := fun o n =>
  if String.eqb o n then [mkPart o false false]
  else [mkPart o false true; mkPart n true false].

(** ** Lenient parsing of step-segmented output ([geminiService.ts], lines 53-167) *)

Module StepParser.

Import Js.

(** The literal [lit] at the head of [s], letters compared without case;
    the result is what follows it. *)
Fixpoint matchLit (lit s : string) : option string :=
  match lit with
  | EmptyString => Some s
  | String p lit' =>
      match s with
      | String c s' => if eqCI p c then matchLit lit' s' else None
      | EmptyString => None
      end
  end.

(** [\s*] followed by the literal.  No literal used here starts with white
    space, so the greedy [\s*] takes all of it. *)
Definition afterSpaces (lit s : string) : option string :=
  matchLit lit (trimStart s).

(** One attempt of [/(^|[^\[])\s*(lit)/i] at the head of [s]; [atStart]
    says that [s] is the whole input, where [^] holds.  The result is the
    captured prefix and the text after the match. *)
Definition matchLoose (lit : string) (atStart : bool) (s : string)
    : option (string * string) :=
  match (if atStart then afterSpaces lit s else None) with
  | Some rest => Some (EmptyString, rest)
  | None =>
      match s with
      | String c s' =>
          if Ascii.eqb c "["%char then None
          else match afterSpaces lit s' with
               | Some rest => Some (String c EmptyString, rest)
               | None => None
               end
      | EmptyString => None
      end
  end.

(** [normalized.replace(pattern, (_match, prefix) => prefix + tag)] for a
    global pattern: the leftmost match is replaced and the search resumes
    after it.  A match is never empty, so [fuel = length s] suffices. *)
Fixpoint replaceLoose (lit tag : string) (fuel : nat) (atStart : bool)
    (s : string) : string :=
  match fuel with
  | O => s
  | S fuel' =>
      match matchLoose lit atStart s with
      | Some (prefix, rest) =>
          prefix ++ tag ++ replaceLoose lit tag fuel' false rest
      | None =>
          match s with
          | EmptyString => EmptyString
          | String c s' => String c (replaceLoose lit tag fuel' false s')
          end
      end
  end.

Definition ensureBracket (lit tag : string) (s : string) : string :=
  replaceLoose lit tag (String.length s) true s.

Definition normalizeStepTags (input : string) : string :=
  ensureBracket "/TEXT]]" "[[/TEXT]]"
    (ensureBracket "TEXT]]" "[[TEXT]]"
       (ensureBracket "/THOUGHT]]" "[[/THOUGHT]]"
          (ensureBracket "THOUGHT]]" "[[THOUGHT]]" input))).

Inductive TagName := THOUGHT | TEXT.

Record Tag := mkTag { isClosing : bool; tagName : TagName }.

Record ParsedStepSegment := mkSegment { thought : string; text : string }.

(** One attempt of [/\[\[\s*(\/)?\s*(THOUGHT|TEXT)\s*\]\]/i] at the head
    of [s]. *)
Definition matchTag (s : string) : option (Tag * string) :=
  match matchLit "[[" s with
  | None => None
  | Some s1 =>
      let s2 := trimStart s1 in
      let '(closing, s3) :=
        match s2 with
        | String c r => if Ascii.eqb c "/"%char then (true, r) else (false, s2)
        | EmptyString => (false, s2)
        end in
      let s4 := trimStart s3 in
      let named :=
        match matchLit "THOUGHT" s4 with
        | Some s5 => Some (THOUGHT, s5)
        | None =>
            match matchLit "TEXT" s4 with
            | Some s5 => Some (TEXT, s5)
            | None => None
            end
        end in
      match named with
      | None => None
      | Some (name, s5) =>
          match matchLit "]]" (trimStart s5) with
          | Some rest => Some (mkTag closing name, rest)
          | None => None
          end
      end
  end.

(** The successive results of [tagRegex.exec(normalized)]: each tag with
    the text between it and the previous match ([normalized.slice(lastIndex,
    match.index)]), and the text after the last tag.  [chunk] is the text
    read since the previous match. *)
Fixpoint scanTags (fuel : nat) (chunk : string) (s : string)
    : list (string * Tag) * string :=
  match fuel with
  | O => ([], chunk ++ s)
  | S fuel' =>
      match matchTag s with
      | Some (tag, rest) =>
          let '(items, remainder) := scanTags fuel' EmptyString rest in
          ((chunk, tag) :: items, remainder)
      | None =>
          match s with
          | EmptyString => ([], chunk)
          | String c s' => scanTags fuel' (chunk ++ String c EmptyString) s'
          end
      end
  end.

Definition tagMatches (normalized : string) : list (string * Tag) * string :=
  scanTags (String.length normalized) EmptyString normalized.

(** The mutable locals of [parseStepByStepSegments]. *)
Record Parser := mkParser {
  segments : list ParsedStepSegment;
  currentThought : string;
  currentText : string;
  readingThought : bool;
  readingText : bool
}.

Definition initial : Parser := mkParser [] "" "" false false.

Definition flushSegment (p : Parser) : Parser :=
  let thought := trim (currentThought p) in
  let text := trim (currentText p) in
  mkParser
    (if truthy thought || truthy text
     then (segments p ++ [mkSegment thought text])%list
     else segments p)
    "" "" false false.

(** [if (readingThought) currentThought += chunk; else if (readingText)
    currentText += chunk]. *)
Definition absorb (p : Parser) (chunk : string) : Parser :=
  if readingThought p
  then mkParser (segments p) (currentThought p ++ chunk) (currentText p)
         (readingThought p) (readingText p)
  else if readingText p
  then mkParser (segments p) (currentThought p) (currentText p ++ chunk)
         (readingThought p) (readingText p)
  else p.

Definition setReading (p : Parser) (rThought rText : bool) : Parser :=
  mkParser (segments p) (currentThought p) (currentText p) rThought rText.

Definition nonBlank (s : string) : bool := truthy (trim s).

(** The branch on [isClosing] and [tagName] in the loop body. *)
Definition onTag (p : Parser) (tag : Tag) : Parser :=
  match isClosing tag, tagName tag with
  | false, THOUGHT =>
      let p1 :=
        if readingText p || nonBlank (currentText p) then flushSegment p else p in
      setReading p1 true false
  | false, TEXT =>
      let p1 :=
        if readingText p
           && (nonBlank (currentThought p) || nonBlank (currentText p))
        then flushSegment p else p in
      let p2 :=
        if readingThought p1 && negb (nonBlank (currentText p1))
        then setReading p1 false (readingText p1) else p1 in
      setReading p2 (readingThought p2) true
  | true, THOUGHT => setReading p false (readingText p)
  | true, TEXT =>
      if readingThought p && negb (readingText p)
         && negb (nonBlank (currentText p))
      then setReading p false (readingText p)
      else if readingText p
      then flushSegment (setReading p (readingThought p) false)
      else if nonBlank (currentThought p) || nonBlank (currentText p)
      then flushSegment p
      else p
  end.

Definition onMatch (p : Parser) (m : string * Tag) : Parser :=
  onTag (absorb p (fst m)) (snd m).

(** The state after the loop, the remainder and the last flush. *)
Definition recovered (items : list (string * Tag)) (remainder : string)
    : list ParsedStepSegment :=
  let p := absorb (fold_left onMatch items initial) remainder in
  let p' :=
    if nonBlank (currentThought p) || nonBlank (currentText p)
    then flushSegment p else p in
  segments p'.

Definition parseStepByStepSegments (input : string) : list ParsedStepSegment :=
  let normalized := normalizeStepTags input in
  let '(items, remainder) := tagMatches normalized in
  let segs := recovered items remainder in
  if (length segs =? 0)%nat && truthy (trim normalized)
  then [mkSegment "" (trim normalized)]
  else segs.

End StepParser.

(** ** The data model ([types.ts]) *)

Inductive GenerationMethod := STANDARD | STEP_BY_STEP | REFINE_LOOP.

Inductive ExperimentType :=
  | CONVERGENCE | COMPARATIVE | ABLATION
  | CONSISTENCY_TEXT | CONSISTENCY_ANNOTATION | CUSTOM.

Inductive RunStatus := running | completed | failed.

Definition methodName (m : GenerationMethod) : string :=
  match m with
  | STANDARD => "Standard Generation"
  | STEP_BY_STEP => "Step-by-Step (Visible Thought)"
  | REFINE_LOOP => "Refinement Loop"
  end.

Record EvaluationCategory := mkCategory {
  cat_id : string;
  cat_name : string;
  cat_description : string
}.

(** Category id -> rater id -> score. *)
Abbreviation ScoreMap := (gmap string (gmap string Q)).

Record Refutation := mkRefutation { userId : string; ref_reason : string }.

(** Identifiers returned by [crypto.randomUUID()] are numbered in the order
    of their creation; time stamps are left out. *)
Record Annotation := mkAnnotation {
  ann_id : nat;
  ann_quote : string;
  level : string;
  ann_comment : string;
  sourceId : option string;
  sourceQuote : option string;
  relatedVariant : option string;
  relatedQuote : option string;
  originHint : option string;
  author : string;
  confirmations : list string;
  refutations : list Refutation
}.

Definition view (a : Annotation) : AnnotationView :=
  mkView (ann_quote a) (ann_comment a).

Record RefinementConfig := mkRefinement {
  includeOriginalText : bool;
  includeAiAnnotations : bool;
  includeHumanAnnotations : bool;
  rc_activeResourceIds : list string
}.

Record StepConfig := mkStepConfig {
  stepSize : string;
  showThoughts : bool;
  enableSelfCorrection : bool;
  selfCorrectionInstruction : string
}.

Record TokenUsage := mkUsage {
  promptTokens : Z;
  outputTokens : Z;
  totalTokens : Z
}.

Inductive CallRole := generator | evaluator | other.

Record LlmCallUsage := mkCallUsage {
  call_modelId : string;
  role : CallRole;
  call_usage : TokenUsage
}.

Record UsageMeta := mkMeta {
  meta_runId : string;
  meta_runLabel : string;
  stepNumber : Z;
  iteration : Z;
  meta_method : GenerationMethod
}.

Record StepTokenUsage := mkStepUsage {
  calls : list LlmCallUsage;
  aggregate : TokenUsage;
  meta : option UsageMeta
}.

Record DocumentVersion := mkDocument {
  id : nat;
  parentId : option nat;
  content : string;
  thoughts : list string;
  modelId : string;
  method : GenerationMethod;
  systemPromptSnapshot : string;
  taskPromptSnapshot : string;
  fullPromptSnapshot : option string;
  refinementConfig : option RefinementConfig;
  stepConfig : option StepConfig;
  activeResourceIds : list string;
  annotations : list Annotation;
  scores : ScoreMap;
  tokenUsage : option StepTokenUsage;
  diffStats : option DiffStats;
  experimentId : option string;
  runId : option string;
  runLabel : option string
}.

(** [doc.annotations = anns]. *)
Definition setAnnotations (doc : DocumentVersion) (anns : list Annotation)
    : DocumentVersion :=
  mkDocument (id doc) (parentId doc) (content doc) (thoughts doc) (modelId doc)
    (method doc) (systemPromptSnapshot doc) (taskPromptSnapshot doc)
    (fullPromptSnapshot doc) (refinementConfig doc) (stepConfig doc)
    (activeResourceIds doc) anns (scores doc) (tokenUsage doc) (diffStats doc)
    (experimentId doc) (runId doc) (runLabel doc).

Inductive ResourceType := primary_source | context_source | literature.

Record Resource := mkResource {
  res_id : string;
  res_name : string;
  res_content : string;
  usageInstruction : option string;
  res_type : ResourceType;
  enabled : bool
}.

Record ExperimentConfig := mkConfig {
  cfg_id : string;
  cfg_type : ExperimentType;
  iterations : Z;
  runCount : Z;
  delaySeconds : Q;
  generatorModelId : string;
  evaluatorModelId : string;
  systemPrompt : string;
  taskPrompt : string;
  stepPrompt : option string;
  refinePrompt : string;
  evaluatorPrompt : string;
  refineConfig : option RefinementConfig;
  cfg_activeResourceIds : list string;
  evaluationCategories : list EvaluationCategory;
  cfg_stepConfig : option StepConfig
}.

Record ConsistencyPairMetric := mkPairMetric {
  pairLabel : string;
  overlap : Q;
  lengthDelta : nat;
  styleDelta : Q;
  uniqueA : nat;
  uniqueB : nat
}.

Record AnnotationConsistencyMetric := mkAnnotationMetric {
  acm_pairLabel : string;
  acm_shared : nat;
  acm_onlyA : nat;
  acm_onlyB : nat;
  avgScoreDelta : Q;
  acm_sharedFraction : Q;
  agreementNote : string;
  acm_averageQuoteOverlap : Q;
  acm_averageCommentSimilarity : Q
}.

(** The report, without the fields that are formatted for display only
    ([gradeComparisons], [variantBreakdown], [annotationDetails], [summary]):
    they are computed without any oracle call and nothing below reads them. *)
Record ConsistencyReport := mkReport {
  textPairs : list ConsistencyPairMetric;
  annotationPairs : list AnnotationConsistencyMetric;
  baselineLabel : option string;
  baselineTextLength : option nat;
  baselineComparisons : list ConsistencyPairMetric;
  commentary : option string
}.

(** ** What the oracle answers *)

(** A response of [ai.models.generateContent], reduced to what
    [extractTextFromResponse] and [usageMetadata] give. *)
Record Response := mkResponse {
  responseText : string;
  usageMetadata : option TokenUsage
}.

Record RawAnnotation := mkRawAnnotation {
  raw_quote : string;
  raw_level : string;
  raw_comment : string;
  raw_sourceId : option string;
  raw_sourceQuote : option string
}.

(** The evaluator's JSON once decoded: [parsed.annotations ?? []] and
    [parsed.scores ?? {}]; a score that is not a number (or is NaN) is
    [None]. *)
Record EvalPayload := mkPayload {
  payload_annotations : list RawAnnotation;
  payload_scores : list (string * option Q)
}.

(** One entry of the highlighter's [variants[].annotations]; a field that
    is missing or falsy is [None]. *)
Record RawHighlight := mkRawHighlight {
  hl_type : option string;
  hl_quote : option string;
  hl_comment : option string;
  hl_relatedVariant : option string;
  hl_relatedQuote : option string;
  hl_sourceQuote : option string
}.

Record HighlightVariant := mkHighlightVariant {
  hv_label : string;
  hv_annotations : list RawHighlight
}.

(** One entry of the judge's [matches]: [Number(m.aIndex)] and
    [Number(m.bIndex)] when they are integers, and [m.reason || m.note || '']. *)
Record RawMatch := mkRawMatch {
  raw_aIndex : option Z;
  raw_bIndex : option Z;
  raw_reason : string
}.

Record PromptBuilderOptions := mkPromptOptions {
  opt_taskPrompt : string;
  opt_resources : list Resource;
  opt_systemInstruction : string;
  opt_refinementContext : option (string * list Annotation * RefinementConfig);
  opt_stepConfig : option StepConfig
}.

(** Everything outside the orchestration code.
    - [generateContent n] is the outcome of the [n]-th call of
      [ai.models.generateContent] in an execution, [None] when it rejects.
      Indexing by call number covers every behaviour of the service.
    - [diffWords] is the external differ.
    - [buildFullPrompt] assembles the request text, which no decision of
      the orchestration depends on.
    - [parseEvaluation] is [JSON.parse] on the evaluator's text ([None]: it
      throws); [parseHighlights] is [safeJsonParse(..)?.variants] ([None]:
      not decodable, or no [variants]); [parseMatches] is the [matches]
      array of [safeJsonParse(..)], empty when there is none.
    - [getRunIdByLabel] is the caller's run-id resolver. *)
Record Env := mkEnv {
  generateContent : nat -> option Response;
  diffWords : Differ;
  buildFullPrompt : PromptBuilderOptions -> string;
  parseEvaluation : string -> option EvalPayload;
  parseHighlights : string -> option (list HighlightVariant);
  parseMatches : string -> list RawMatch;
  getRunIdByLabel : string -> Z -> string
}.

(** ** Executions *)

Inductive Purpose := Generation | Evaluation | Highlighting | Judging | Commentary.

(** What an execution does that its environment can observe: oracle calls
    (and whether they resolved), pacing delays (in milliseconds), and the
    three callbacks [onUpdateRun], [onStatusChange] and [onLog].  A log line
    carries its message without the text of a caught error and without the
    per-call token detail. *)
Inductive Event :=
  | OracleCall (purpose : Purpose) (resolved : bool)
  | Delay (ms : Q)
  | StepAppended (runId : string) (doc : DocumentVersion)
  | StatusChanged (runId : string) (status : RunStatus)
  | LogLine (msg : string).

Record World := mkWorld {
  oracleCalls : nat;   (* calls of generateContent made so far *)
  uuids : nat          (* identifiers drawn so far *)
}.

Inductive Outcome (A : Type) :=
  | Returned (a : A)
  | Thrown.
Arguments Returned {A} a.
Arguments Thrown {A}.

(** A computation: from a world to an outcome, the events emitted on the
    way, and the world after. *)
Definition Exec (A : Type) : Type := World -> Outcome A * list Event * World.

Definition ret {A} (a : A) : Exec A := fun w => (Returned a, [], w).

Definition bind {A B} (m : Exec A) (f : A -> Exec B) : Exec B := fun w =>
  match m w with
  | (Returned a, ev1, w1) =>
      let '(r, ev2, w2) := f a w1 in (r, (ev1 ++ ev2)%list, w2)
  | (Thrown, ev1, w1) => (Thrown, ev1, w1)
  end.

Definition throw {A} : Exec A := fun w => (Thrown, [], w).

(** [try { m } catch { handler }]. *)
Definition tryCatch {A} (m : Exec A) (handler : Exec A) : Exec A := fun w =>
  match m w with
  | (Returned a, ev1, w1) => (Returned a, ev1, w1)
  | (Thrown, ev1, w1) =>
      let '(r, ev2, w2) := handler w1 in (r, (ev1 ++ ev2)%list, w2)
  end.

Definition emit (e : Event) : Exec unit := fun w => (Returned tt, [e], w).

#[global] Instance exec_ret : MRet Exec := @ret.
#[global] Instance exec_bind : MBind Exec := fun A B f m => bind m f.

Definition outcome {A} (r : Outcome A * list Event * World) : Outcome A := fst (fst r).
Definition trace {A} (r : Outcome A * list Event * World) : list Event := snd (fst r).

(** [for (let i = from; i < from + count; i++) st = body(i, st)]. *)
Fixpoint forRange {St} (count : nat) (from : nat) (body : nat -> St -> Exec St)
    (st : St) : Exec St :=
  match count with
  | O => ret st
  | S count' => st' ← body from st; forRange count' (S from) body st'
  end.

Definition randomUUID : Exec nat := fun w =>
  (Returned (uuids w), [], mkWorld (oracleCalls w) (S (uuids w))).

Definition delay (ms : Q) : Exec unit := emit (Delay ms).
Definition onLog (msg : string) : Exec unit := emit (LogLine msg).
Definition onUpdateRun (runId : string) (step : DocumentVersion) : Exec unit :=
  emit (StepAppended runId step).
Definition onStatusChange (runId : string) (status : RunStatus) : Exec unit :=
  emit (StatusChanged runId status).

(** ** The oracle client ([geminiService.ts], lines 37-47 and 302-462) *)

Record GenerationResult := mkGeneration {
  gen_text : string;
  gen_thoughts : list string;
  gen_tokenUsage : option TokenUsage
}.

Record EvaluationResult := mkEvaluation {
  eval_annotations : list RawAnnotation;
  eval_scores : list (string * option Q);
  eval_tokenUsage : option TokenUsage
}.

Section Client.

Variable env : Env.

(** [await ai.models.generateContent(..)], made for [purpose]. *)
Definition callModel (purpose : Purpose) : Exec Response := fun w =>
  let w' := mkWorld (S (oracleCalls w)) (uuids w) in
  match generateContent env (oracleCalls w) with
  | Some response => (Returned response, [OracleCall purpose true], w')
  | None => (Thrown, [OracleCall purpose false], w')
  end.

Definition extractTextFromResponse (response : Response) : string :=
  Js.trim (responseText response).

(** [generateNarrative]; its [catch] rethrows.  [purpose] names the call
    site, for the trace only. *)
Definition generateNarrative (purpose : Purpose) (method : GenerationMethod)
    : Exec GenerationResult :=
  response ← callModel purpose;
  let tokenUsage := usageMetadata response in
  let rawText := extractTextFromResponse response in
  match method with
  | STEP_BY_STEP =>
      let segments := StepParser.parseStepByStepSegments rawText in
      let thoughts := List.filter Js.truthy (map StepParser.thought segments) in
      let textSegments := List.filter Js.truthy (map StepParser.text segments) in
      let cleanedText :=
        if (0 <? length textSegments)%nat
        then Js.trim (Js.squeezeNewlines 0
                        (String.concat (String Js.LF (String Js.LF "")) textSegments))
        else Js.trim rawText in
      mret (mkGeneration cleanedText thoughts tokenUsage)
  | _ => mret (mkGeneration rawText [] tokenUsage)
  end.

(** [evaluateCoherence]: a rejected call and an undecodable answer both
    end in the [catch], which returns the empty evaluation. *)
Definition evaluateCoherence : Exec EvaluationResult :=
  tryCatch
    (response ← callModel Evaluation;
     let tokenUsage := usageMetadata response in
     let jsonText :=
       if Js.truthy (extractTextFromResponse response)
       then extractTextFromResponse response else "{}" in
     match parseEvaluation env jsonText with
     | Some parsed =>
         mret (mkEvaluation (payload_annotations parsed) (payload_scores parsed)
                 tokenUsage)
     | None => throw
     end)
    (mret (mkEvaluation [] [] None)).

End Client.

(** ** The automation service ([automationService.ts], from line 123) *)

Record MatchResult := mkMatchResult {
  matches : list AnnotationMatch;
  note : option string
}.

Record AnnotationComparison := mkComparison {
  shared : nat;
  onlyA : nat;
  onlyB : nat;
  sharedFraction : Q;
  cmp_note : string;
  averageQuoteOverlap : Q;
  averageCommentSimilarity : Q
}.

(** The arrays and the cache that [buildConsistencyReport] fills. *)
Record ReportAcc := mkAcc {
  acc_textPairs : list ConsistencyPairMetric;
  acc_annotationPairs : list AnnotationConsistencyMetric;
  tokenCache : gmap string (gset string)
}.

Record Output := mkOutput {
  out_label : string;
  out_runId : string;
  doc : DocumentVersion
}.

Section Automation.

Variable env : Env.

Definition normalizeScores (categories : list EvaluationCategory)
    (rawScores : list (string * option Q)) : ScoreMap :=
  fold_left
    (fun (result : ScoreMap) (entry : string * option Q) =>
       let '(key, score) := entry in
       match score with
       | None => result
       | Some score =>
           let catId :=
             match List.find (fun c => String.eqb (cat_id c) key
                                       || String.eqb (cat_name c) key) categories with
             | Some c => if Js.truthy (cat_id c) then cat_id c else key
             | None => key
             end in
           <[catId := <["AI" := score]> (default ∅ (result !! catId))]> result
       end)
    rawScores ∅.

(** The integrity filter on the judge's matches. *)
Definition cleanMatches (lenA lenB : nat) (raw : list RawMatch)
    : list AnnotationMatch :=
  omap
    (fun m =>
       match raw_aIndex m, raw_bIndex m with
       | Some a, Some b =>
           if (0 <=? a) && (0 <=? b)
              && (a <? Z.of_nat lenA) && (b <? Z.of_nat lenB)
           then Some (mkMatch a b (raw_reason m) None None)
           else None
       | _, _ => None
       end)
    raw.

Definition matchAnnotationsWithGemini (annsA annsB : list Annotation)
    : Exec MatchResult :=
  if (length annsA =? 0)%nat || (length annsB =? 0)%nat
  then mret (mkMatchResult [] (Some "No annotations to compare."))
  else
    tryCatch
      (result ← generateNarrative env Judging STANDARD;
       let cleaned :=
         cleanMatches (length annsA) (length annsB)
           (parseMatches env (gen_text result)) in
       mret (mkMatchResult cleaned (reason <$> head cleaned)))
      (onLog "Annotation match via Gemini failed; using fallback matching.";;
       mret (mkMatchResult [] (Some "Gemini comparison failed, fallback used."))).

(** [annsA[m.aIndex]?.quote || ''], and the like. *)
Definition fieldAt (f : Annotation -> string) (anns : list Annotation) (i : Z)
    : string :=
  if i <? 0 then "" else default "" (f <$> anns !! Z.to_nat i).

(** The part of [compareAnnotations] after the matcher has been chosen. *)
Definition summarize (annsA annsB : list Annotation)
    (matches : list AnnotationMatch) (note : string) : AnnotationComparison :=
  let matchedB : gset Z := list_to_set (map bIndex matches) in
  let shared := length matches in
  let onlyA := (length annsA - shared)%nat in
  let onlyB := (length annsB - size matchedB)%nat in
  let larger := Nat.max (length annsA) (length annsB) in
  let sharedFraction :=
    if (0 <? larger)%nat
    then Qmake (Z.of_nat shared) (Pos.of_nat larger) else 0%Q in
  let totalQuote :=
    fold_left
      (fun acc m =>
         (acc + quoteOverlapScore (fieldAt ann_quote annsA (aIndex m))
                  (fieldAt ann_quote annsB (bIndex m)))%Q)
      matches 0%Q in
  let totalComment :=
    fold_left
      (fun acc m =>
         (acc + commentSimilarityScore (fieldAt ann_comment annsA (aIndex m))
                  (fieldAt ann_comment annsB (bIndex m)))%Q)
      matches 0%Q in
  let averageQuoteOverlap :=
    if (0 <? shared)%nat
    then Js.toFixed 3 (totalQuote / inject_Z (Z.of_nat shared)) else 0%Q in
  let averageCommentSimilarity :=
    if (0 <? shared)%nat
    then Js.toFixed 3 (totalComment / inject_Z (Z.of_nat shared)) else 0%Q in
  mkComparison shared onlyA onlyB sharedFraction note
    averageQuoteOverlap averageCommentSimilarity.

Definition compareAnnotations (annsA annsB : list Annotation)
    : Exec AnnotationComparison :=
  let fallback := fallbackAnnotationMatches (map view annsA) (map view annsB) in
  let fallbackNote := default "" (reason <$> head fallback) in
  llmResult ← matchAnnotationsWithGemini annsA annsB;
  if (0 <? length (matches llmResult))%nat
  then
    mret (summarize annsA annsB (matches llmResult)
            (match note llmResult with
             | Some n => if Js.truthy n then n else fallbackNote
             | None => fallbackNote
             end))
  else mret (summarize annsA annsB fallback fallbackNote).

(** [text.split(/[.!?]+/)]: the pieces between runs of sentence marks. *)
Fixpoint splitSentences (cur : string) (s : string) : list string :=
  match s with
  | EmptyString => [cur]
  | String c s' =>
      if Ascii.eqb c "."%char || Ascii.eqb c "!"%char || Ascii.eqb c "?"%char
      then (match s' with
            | String d _ =>
                if Ascii.eqb d "."%char || Ascii.eqb d "!"%char || Ascii.eqb d "?"%char
                then splitSentences cur s'
                else cur :: splitSentences EmptyString s'
            | EmptyString => cur :: splitSentences EmptyString s'
            end)
      else splitSentences (cur ++ String c EmptyString) s'
  end.

(** [styleSignature]: mean tokens per sentence and type-token ratio. *)
Definition styleSignature (text : string) : Q * Q :=
  let sentences :=
    List.filter Js.truthy (map Js.trim (splitSentences EmptyString text)) in
  let tokens := tokenize text in
  let uniqueTokens : gset string := list_to_set tokens in
  let avgSentenceLen :=
    if (0 <? length sentences)%nat
    then Qmake (Z.of_nat (fold_left (fun acc s => (acc + length (tokenize s))%nat)
                            sentences 0%nat))
           (Pos.of_nat (length sentences))
    else 0%Q in
  let typeTokenRatio :=
    if (0 <? length tokens)%nat
    then Qmake (Z.of_nat (size uniqueTokens)) (Pos.of_nat (length tokens))
    else 0%Q in
  (avgSentenceLen, typeTokenRatio).

Definition absDiff (a b : nat) : nat := Nat.max (a - b) (b - a).

(** A [ConsistencyPairMetric] from two token sets and two texts. *)
Definition pairMetric (label : string) (setA setB : gset string)
    (contentA contentB : string) : ConsistencyPairMetric :=
  let sigA := styleSignature contentA in
  let sigB := styleSignature contentB in
  let styleDelta :=
    (Qabs (fst sigA - fst sigB) + Qabs (snd sigA - snd sigB))%Q in
  mkPairMetric label
    (Js.toFixed 3 (jaccard setA setB))
    (absDiff (String.length contentA) (String.length contentB))
    (Js.toFixed 3 styleDelta)
    (size (setA ∖ setB))
    (size (setB ∖ setA)).

(** The local [avgScore]: the mean of the ["AI"] scores of a document. *)
Definition avgScore (d : DocumentVersion) : Q :=
  let vals := omap (fun cat : gmap string Q => cat !! "AI")
                (snd <$> map_to_list (scores d)) in
  if (0 <? length vals)%nat
  then (fold_left Qplus vals 0 / inject_Z (Z.of_nat (length vals)))%Q
  else 0%Q.

(** The body of the two nested loops over [i < j]. *)
Definition comparePair (annotationOnly : bool) (a b : Output) (acc : ReportAcc)
    : Exec ReportAcc :=
  let pairLabel := out_label a ++ " vs " ++ out_label b in
  let '(textPairs', cache') :=
    if annotationOnly then (acc_textPairs acc, tokenCache acc)
    else
      let setA := default (tokenSet (content (doc a))) (tokenCache acc !! out_label a) in
      let setB := default (tokenSet (content (doc b))) (tokenCache acc !! out_label b) in
      ((acc_textPairs acc
          ++ [pairMetric pairLabel setA setB (content (doc a)) (content (doc b))])%list,
       <[out_label b := setB]> (<[out_label a := setA]> (tokenCache acc))) in
  annotationComparison ← compareAnnotations (annotations (doc a)) (annotations (doc b));
  let scoreDelta := Qabs (avgScore (doc a) - avgScore (doc b)) in
  mret (mkAcc textPairs'
          (acc_annotationPairs acc
             ++ [mkAnnotationMetric pairLabel
                   (shared annotationComparison)
                   (onlyA annotationComparison)
                   (onlyB annotationComparison)
                   (Js.toFixed 2 scoreDelta)
                   (Js.toFixed 3 (sharedFraction annotationComparison))
                   (cmp_note annotationComparison)
                   (averageQuoteOverlap annotationComparison)
                   (averageCommentSimilarity annotationComparison)])%list
          cache').

Definition pairLoops (annotationOnly : bool) (runs : list Output)
    : Exec ReportAcc :=
  forRange (length runs) 0
    (fun i acc =>
       forRange (length runs - S i) (S i)
         (fun j acc =>
            match runs !! i, runs !! j with
            | Some a, Some b => comparePair annotationOnly a b acc
            | _, _ => mret acc
            end)
         acc)
    (mkAcc [] [] ∅).

Definition buildConsistencyReport (runs : list Output)
    (baseline : option Output) (annotationOnly : bool)
    : Exec ConsistencyReport :=
  acc ← pairLoops annotationOnly runs;
  let baselineComparisons :=
    match baseline with
    | Some base =>
        if annotationOnly then []
        else
          let baseSet := tokenSet (content (doc base)) in
          omap
            (fun r =>
               if String.eqb (out_label r) (out_label base) then None
               else Some (pairMetric (out_label base ++ " vs " ++ out_label r)
                            baseSet (tokenSet (content (doc r)))
                            (content (doc base)) (content (doc r))))
            runs
    | None => []
    end in
  mret (mkReport (acc_textPairs acc) (acc_annotationPairs acc)
          (out_label <$> baseline)
          ((fun b => String.length (content (doc b))) <$> baseline)
          baselineComparisons None).

Definition generateConsistencyCommentary (report : ConsistencyReport)
    : Exec (option string) :=
  if (length (textPairs report) =? 0)%nat
     && (length (annotationPairs report) =? 0)%nat
  then mret None
  else
    tryCatch
      (result ← generateNarrative env Commentary STANDARD;
       onLog "Generated LLM commentary on consistency.";;
       mret (Some (gen_text result)))
      (onLog "Commentary generation failed";;
       mret None).

Definition setCommentary (report : ConsistencyReport) (c : option string)
    : ConsistencyReport :=
  mkReport (textPairs report) (annotationPairs report) (baselineLabel report)
    (baselineTextLength report) (baselineComparisons report) c.

Definition callUsage (model : string) (r : CallRole) (u : TokenUsage)
    : LlmCallUsage := mkCallUsage model r u.

Definition buildStepTokenUsage (generatorModelId evaluatorModelId : string)
    (genUsage evalUsage : option TokenUsage) (meta : option UsageMeta)
    : option StepTokenUsage :=
  let calls :=
    (match genUsage with
     | Some u => [callUsage generatorModelId generator u]
     | None => []
     end
     ++ match evalUsage with
        | Some u => [callUsage evaluatorModelId evaluator u]
        | None => []
        end)%list in
  if (length calls =? 0)%nat then None
  else
    let aggregate :=
      fold_left
        (fun acc c =>
           mkUsage (promptTokens acc + promptTokens (call_usage c))
             (outputTokens acc + outputTokens (call_usage c))
             (totalTokens acc + totalTokens (call_usage c)))
        calls (mkUsage 0 0 0) in
    Some (mkStepUsage calls aggregate meta).

Definition tokenLine (u : TokenUsage) : string :=
  "prompt=" ++ pretty (promptTokens u) ++ " output=" ++ pretty (outputTokens u)
    ++ " total=" ++ pretty (totalTokens u).

(** The annotations a step makes of the evaluator's candidates. *)
Fixpoint materialize (raw : list RawAnnotation) : Exec (list Annotation) :=
  match raw with
  | [] => mret []
  | a :: raw' =>
      uuid ← randomUUID;
      rest ← materialize raw';
      mret (mkAnnotation uuid (raw_quote a) (raw_level a) (raw_comment a)
              (raw_sourceId a) (raw_sourceQuote a) None None None
              "AI_EVALUATOR" [] [] :: rest)
  end.

Definition stepDelay (config : ExperimentConfig) : Exec unit :=
  delay (delaySeconds config * 1000)%Q.

Definition runGenerationStep (config : ExperimentConfig)
    (runId runLabel : string) (previousStep : option DocumentVersion)
    (resources : list Resource) (activeResourceIds : list string)
    (methodOverride : option GenerationMethod) (stepNumber iteration : Z)
    : Exec DocumentVersion :=
  let systemPrompt := systemPrompt config in
  let '(method, taskPrompt) :=
    match previousStep, methodOverride with
    | Some _, _ => (REFINE_LOOP, refinePrompt config)
    | None, Some STEP_BY_STEP =>
        (STEP_BY_STEP,
         match stepPrompt config with
         | Some p => if Js.truthy p then p else taskPrompt config
         | None => taskPrompt config
         end)
    | None, Some m => (m, taskPrompt config)
    | None, None => (STANDARD, taskPrompt config)
    end in
  let refineSettings :=
    match refineConfig config with
    | Some rc => rc
    | None => mkRefinement true true false activeResourceIds
    end in
  let runResourceIds := rc_activeResourceIds refineSettings in
  let fullPrompt :=
    match previousStep with
    | Some prev =>
        buildFullPrompt env
          (mkPromptOptions (refinePrompt config) resources systemPrompt
             (Some (content prev, annotations prev, refineSettings)) None)
    | None =>
        buildFullPrompt env
          (mkPromptOptions taskPrompt resources systemPrompt None
             (match method with
              | STEP_BY_STEP => cfg_stepConfig config
              | _ => None
              end))
    end in
  onLog ("Generating (" ++ methodName method ++ ")...");;
  genResult ← generateNarrative env Generation method;
  stepDelay config;;
  let stats :=
    match previousStep with
    | Some prev =>
        Some (calculateDiffStats (diffWords env) (content prev) (gen_text genResult))
    | None => None
    end in
  onLog "Evaluating...";;
  evalResult ← evaluateCoherence env;
  stepDelay config;;
  let stepTokenUsage :=
    buildStepTokenUsage (generatorModelId config) (evaluatorModelId config)
      (gen_tokenUsage genResult) (eval_tokenUsage evalResult)
      (Some (mkMeta runId runLabel stepNumber iteration method)) in
  match stepTokenUsage with
  | Some usage =>
      onLog ("Tokens step " ++ pretty stepNumber ++ " (" ++ runLabel ++ ", "
               ++ methodName method ++ "): " ++ tokenLine (aggregate usage))
  | None => mret tt
  end;;
  uuid ← randomUUID;
  anns ← materialize (eval_annotations evalResult);
  mret (mkDocument uuid (id <$> previousStep) (gen_text genResult)
          (gen_thoughts genResult) (generatorModelId config) method
          systemPrompt taskPrompt (Some fullPrompt) (Some refineSettings)
          (match method with
           | STEP_BY_STEP => cfg_stepConfig config
           | _ => None
           end)
          runResourceIds anns
          (normalizeScores (evaluationCategories config) (eval_scores evalResult))
          stepTokenUsage stats (Some (cfg_id config)) (Some runId) (Some runLabel)).

(** *** Protocol runners *)

Definition logCumulative (stepNumber : Z) (cumulative : TokenUsage) : Exec unit :=
  onLog ("Cumulative tokens after step " ++ pretty stepNumber ++ ": "
           ++ tokenLine cumulative).

(** [onUpdateRun(runId, step)] and the update of [cumulative] after it. *)
Definition publishStep (runId : string) (stepNumber : Z)
    (step : DocumentVersion) (cumulative : TokenUsage) : Exec TokenUsage :=
  onUpdateRun runId step;;
  match tokenUsage step with
  | Some usage =>
      let cumulative' :=
        mkUsage (promptTokens cumulative + promptTokens (aggregate usage))
          (outputTokens cumulative + outputTokens (aggregate usage))
          (totalTokens cumulative + totalTokens (aggregate usage)) in
      logCumulative stepNumber cumulative';;
      mret cumulative'
  | None => mret cumulative
  end.

(** One turn of the refinement [for] loop; the state is [currentStep] and
    [cumulative] ([stepNumber] is [i + 2] after its increment). *)
Definition refineOnce (config : ExperimentConfig) (runId runLabel : string)
    (resources : list Resource) (activeResourceIds : list string)
    (i : nat) (st : DocumentVersion * TokenUsage)
    : Exec (DocumentVersion * TokenUsage) :=
  let '(currentStep, cumulative) := st in
  onLog ("Refinement Iteration " ++ pretty (Z.of_nat i + 1) ++ "/"
           ++ pretty (iterations config));;
  let stepNumber := Z.of_nat i + 2 in
  currentStep' ← runGenerationStep config runId runLabel (Some currentStep)
                   resources activeResourceIds (Some REFINE_LOOP)
                   stepNumber (Z.of_nat i + 1);
  cumulative' ← publishStep runId stepNumber currentStep' cumulative;
  mret (currentStep', cumulative').

Definition executeRefinementLoop (config : ExperimentConfig)
    (runId runLabel : string) (resources : list Resource)
    (activeResourceIds : list string) : Exec unit :=
  currentStep ← runGenerationStep config runId runLabel None
                  resources activeResourceIds (Some STANDARD) 1 0;
  cumulative ← publishStep runId 1 currentStep (mkUsage 0 0 0);
  forRange (Z.to_nat (iterations config)) 0
    (refineOnce config runId runLabel resources activeResourceIds)
    (currentStep, cumulative);;
  mret tt.

Definition executeStepByStep (config : ExperimentConfig)
    (runId runLabel : string) (resources : list Resource)
    (activeResourceIds : list string) : Exec unit :=
  onLog "Running Step-by-Step Generation...";;
  stepDoc ← runGenerationStep config runId runLabel None
              resources activeResourceIds (Some STEP_BY_STEP) 1 0;
  onUpdateRun runId stepDoc;;
  match tokenUsage stepDoc with
  | Some usage => logCumulative 1 (aggregate usage)
  | None => mret tt
  end.

(** *** The entry point *)

Definition prepResources (allResources : list Resource) (activeIds : list string)
    : list Resource :=
  map
    (fun r =>
       mkResource (res_id r) (res_name r) (res_content r) (usageInstruction r)
         (res_type r)
         (existsb (String.eqb (res_id r)) activeIds))
    allResources.

(** [Math.max(2, config.runCount || 2)]. *)
Definition variantCount (config : ExperimentConfig) : Z :=
  Z.max 2 (if runCount config =? 0 then 2 else runCount config).

Definition variantLabel (i : nat) : string := "Variant " ++ pretty (Z.of_nat i + 1).

(** One annotation pass of the annotation-consistency protocol. *)
Definition annotationPass (config : ExperimentConfig) (baseDoc : DocumentVersion)
    (i : nat) (outputs : list Output) : Exec (list Output) :=
  let label := variantLabel i in
  let runId := getRunIdByLabel env label (Z.of_nat i) in
  onStatusChange runId running;;
  onLog ("=== ANNOTATION PASS " ++ pretty (Z.of_nat i + 1) ++ "/"
           ++ pretty (variantCount config) ++ " ===");;
  evalResult ← evaluateCoherence env;
  let normalizedScores :=
    normalizeScores (evaluationCategories config) (eval_scores evalResult) in
  uuid ← randomUUID;
  anns ← materialize (eval_annotations evalResult);
  let annDoc :=
    mkDocument uuid (Some (id baseDoc)) (content baseDoc) []
      (generatorModelId config) STANDARD (systemPrompt config)
      (taskPrompt config) (fullPromptSnapshot baseDoc) None None
      (cfg_activeResourceIds config) anns normalizedScores None None
      None None None in
  onUpdateRun runId annDoc;;
  onStatusChange runId completed;;
  stepDelay config;;
  mret (outputs ++ [mkOutput label runId annDoc])%list.

(** One variant of the text-consistency protocol. *)
Definition textVariant (config : ExperimentConfig) (resources : list Resource)
    (i : nat) (outputs : list Output) : Exec (list Output) :=
  let label := variantLabel i in
  let runId := getRunIdByLabel env label (Z.of_nat i) in
  onStatusChange runId running;;
  onLog ("=== STARTING CONSISTENCY VARIANT " ++ pretty (Z.of_nat i + 1) ++ "/"
           ++ pretty (variantCount config) ++ " ===");;
  doc ← runGenerationStep config runId label None resources
          (cfg_activeResourceIds config) (Some STANDARD) 1 0;
  onStatusChange runId completed;;
  stepDelay config;;
  mret (outputs ++ [mkOutput label runId doc])%list.

Definition highlightKind (a : RawHighlight) : string :=
  Js.toUpperCase (default "" (hl_type a)).

(** The annotation made of one highlight. *)
Definition highlightAnnotation (uuid : nat) (a : RawHighlight) : Annotation :=
  let related :=
    match hl_relatedQuote a with
    | Some q => Some q
    | None => hl_sourceQuote a
    end in
  mkAnnotation uuid
    (default "" (hl_quote a))
    (if String.eqb (highlightKind a) "SOURCE" then "Consistency-Source"
     else if String.eqb (highlightKind a) "ADDITION" then "Consistency-Addition"
     else "Consistency-Diff")
    (match hl_comment a with
     | Some c => c
     | None =>
         if String.eqb (highlightKind a) "SOURCE"
         then "Matches the original event or other variants."
         else if String.eqb (highlightKind a) "ADDITION"
         then "Unique addition versus other variants."
         else "Diverges from "
                ++ default "another variant" (hl_relatedVariant a) ++ "."
     end)
    None related (hl_relatedVariant a) related
    (if String.eqb (highlightKind a) "SOURCE" then Some "original"
     else match hl_relatedVariant a with
          | Some _ => Some "variant"
          | None => None
          end)
    "AI_CONSISTENCY" [] [].

Fixpoint highlightAnnotations (raw : list RawHighlight) : Exec (list Annotation) :=
  match raw with
  | [] => mret []
  | a :: raw' =>
      uuid ← randomUUID;
      rest ← highlightAnnotations raw';
      let ann := highlightAnnotation uuid a in
      mret (if Js.truthy (ann_quote ann)
               && (0 <? String.length (Js.trim (ann_quote ann)))%nat
            then ann :: rest else rest)
  end.

(** [outputs.forEach(o => { o.doc.annotations = ... })]. *)
Fixpoint annotateOutputs (annMap : gmap string (list RawHighlight))
    (outputs : list Output) : Exec (list Output) :=
  match outputs with
  | [] => mret []
  | o :: outputs' =>
      anns ← highlightAnnotations (default [] (annMap !! out_label o));
      rest ← annotateOutputs annMap outputs';
      mret (mkOutput (out_label o) (out_runId o) (setAnnotations (doc o) anns)
              :: rest)
  end.

(** The [try] block around the highlighting call.  When the call rejects,
    the outputs keep the annotations of their evaluation. *)
Definition highlightVariants (outputs : list Output) : Exec (list Output) :=
  tryCatch
    (result ← generateNarrative env Highlighting STANDARD;
     let parsed := parseHighlights env (gen_text result) in
     match parsed with
     | None => onLog "Consistency highlight could not be parsed; skipping annotations."
     | Some _ => mret tt
     end;;
     let annMap : gmap string (list RawHighlight) :=
       fold_left (fun m v => <[hv_label v := hv_annotations v]> m)
         (default [] parsed) ∅ in
     annotateOutputs annMap outputs)
    (onLog "Highlight generation failed";;
     mret outputs).

Fixpoint publishAll (outputs : list Output) : Exec unit :=
  match outputs with
  | [] => mret tt
  | o :: outputs' => onUpdateRun (out_runId o) (doc o);; publishAll outputs'
  end.

Definition finishReport (report : ConsistencyReport)
    : Exec (option ConsistencyReport) :=
  c ← generateConsistencyCommentary report;
  onLog "Consistency report ready.";;
  onLog "All protocols finished.";;
  mret (Some (setCommentary report c)).

(** What the annotation-consistency protocol does once it has its base
    document. *)
Definition annotationRounds (config : ExperimentConfig)
    (baseDoc : DocumentVersion) : Exec (option ConsistencyReport) :=
  outputs ← forRange (Z.to_nat (variantCount config)) 0
              (annotationPass config baseDoc) [];
  report ← buildConsistencyReport outputs (head outputs) true;
  finishReport report.

Definition generateBase (config : ExperimentConfig) (resources : list Resource)
    : Exec DocumentVersion :=
  runGenerationStep config (getRunIdByLabel env "Variant 1" 0) "Variant 1" None
    resources (cfg_activeResourceIds config) (Some STANDARD) 1 0.

Definition annotationConsistency (config : ExperimentConfig)
    (resources : list Resource) : Exec (option ConsistencyReport) :=
  let baseRunId := getRunIdByLabel env "Variant 1" 0 in
  onStatusChange baseRunId running;;
  onLog "=== GENERATING BASE TEXT FOR ANNOTATION CONSISTENCY ===";;
  baseDoc ← generateBase config resources;
  annotationRounds config baseDoc.

Definition textConsistency (config : ExperimentConfig)
    (resources : list Resource) : Exec (option ConsistencyReport) :=
  outputs ← forRange (Z.to_nat (variantCount config)) 0
              (textVariant config resources) [];
  outputs' ← highlightVariants outputs;
  publishAll outputs';;
  report ← buildConsistencyReport outputs' (head outputs') false;
  finishReport report.

(** One labelled run: status, banner, the runner, status. *)
Definition labelledRun (label banner : string) (i : nat)
    (runner : string -> string -> Exec unit) : Exec unit :=
  let runId := getRunIdByLabel env label (Z.of_nat i) in
  onStatusChange runId running;;
  (if Js.truthy banner then onLog banner else mret tt);;
  runner runId label;;
  onStatusChange runId completed.

Definition repetitions (config : ExperimentConfig) (body : nat -> Exec unit)
    : Exec unit :=
  forRange (Z.to_nat (runCount config)) 0 (fun i _ => body i) tt.

(** The [try] block of [runExperimentLoop]. *)
Definition protocol (config : ExperimentConfig) (allResources : list Resource)
    : Exec (option ConsistencyReport) :=
  let active := cfg_activeResourceIds config in
  let full := prepResources allResources active in
  let banner (what : string) (i : nat) :=
    "=== STARTING " ++ what ++ " RUN " ++ pretty (Z.of_nat i + 1) ++ " ===" in
  match cfg_type config with
  | CONSISTENCY_ANNOTATION => annotationConsistency config full
  | CONSISTENCY_TEXT => textConsistency config full
  | CONVERGENCE =>
      repetitions config
        (fun i =>
           labelledRun "Convergence" (banner "CONVERGENCE" i) i
             (fun runId label => executeRefinementLoop config runId label full active));;
      onLog "All protocols finished.";;
      mret None
  | COMPARATIVE =>
      repetitions config
        (fun i =>
           labelledRun "Step-by-Step" (banner "COMPARISON (SBS)" i) i
             (fun runId label => executeStepByStep config runId label full active);;
           labelledRun "Refinement Loop" (banner "COMPARISON (LOOP)" i) i
             (fun runId label => executeRefinementLoop config runId label full active));;
      onLog "All protocols finished.";;
      mret None
  | ABLATION =>
      repetitions config
        (fun i =>
           labelledRun "Full Context" (banner "ABLATION (FULL)" i) i
             (fun runId label => executeRefinementLoop config runId label full active);;
           labelledRun "Zero Context" (banner "ABLATION (ZERO)" i) i
             (fun runId label =>
                executeRefinementLoop config runId label
                  (prepResources allResources []) []));;
      onLog "All protocols finished.";;
      mret None
  | CUSTOM =>
      repetitions config
        (fun i =>
           labelledRun "Custom" "" i
             (fun runId label => executeRefinementLoop config runId label full active));;
      onLog "All protocols finished.";;
      mret None
  end.

Definition runExperimentLoop (config : ExperimentConfig)
    (allResources : list Resource) : Exec (option ConsistencyReport) :=
  tryCatch (protocol config allResources)
    (onLog "CRITICAL ERROR";;
     mret None).

End Automation.

(** ** Notions the properties are stated with *)

(** [b] occurs verbatim in [a]. *)
Definition substringOf (b a : string) : Prop :=
  exists pre post, a = pre ++ b ++ post.

(** What the inner loop of the matcher keeps true of its best candidate
    after the first [bound] items of [annsB]. *)
Definition candidateOk (usedB : gset Z) (annA : AnnotationView)
    (annsB : list AnnotationView) (bound : nat) (best : Best) : Prop :=
  bestIdx best = -1
  \/ (0 <= bestIdx best < Z.of_nat bound
      /\ (bestIdx best ∉ usedB)
      /\ exists b, annsB !! Z.to_nat (bestIdx best) = Some b
                   /\ (35 # 100 <= quoteOverlapScore (quote annA) (quote b))%Q).

(** A match pairs two existing annotations whose quotes overlap enough. *)
Definition matchOk (annsA annsB : list AnnotationView) (m : AnnotationMatch) : Prop :=
  0 <= aIndex m < Z.of_nat (length annsA)
  /\ 0 <= bIndex m < Z.of_nat (length annsB)
  /\ exists a b,
       annsA !! Z.to_nat (aIndex m) = Some a
       /\ annsB !! Z.to_nat (bIndex m) = Some b
       /\ (35 # 100 <= quoteOverlapScore (quote a) (quote b))%Q.

(** What the outer loop keeps true after the first [bound] items of [annsA]. *)
Definition matchesOk (annsA annsB : list AnnotationView) (bound : nat)
    (st : gset Z * list AnnotationMatch) : Prop :=
  (forall z, z ∈ fst st <-> z ∈ map bIndex (snd st))
  /\ NoDup (map bIndex (snd st))
  /\ NoDup (map aIndex (snd st))
  /\ Forall (fun m => aIndex m < Z.of_nat bound /\ matchOk annsA annsB m) (snd st).

(** A part of a diff that is neither an addition nor a removal. *)
Definition unchanged (part : DiffPart) : Prop :=
  added part = false /\ removed part = false.

(** The metrics of the heuristic matching alone, in the words of the
    specification: the shared count, [onlyA = |A| - shared],
    [onlyB = |B| - shared] (the heuristic uses an annotation of [B] at most
    once), [sharedFraction = shared / max(|A|, |B|)] (0 if both are empty),
    and the averages of the quote overlap and of the comment similarity over
    the matched pairs, to three decimals. *)
Definition heuristicComparison (annsA annsB : list Annotation)
    : AnnotationComparison :=
  let pairs := fallbackAnnotationMatches (map view annsA) (map view annsB) in
  let shared := length pairs in
  let quoteOf (anns : list Annotation) (i : Z) :=
    default "" (ann_quote <$> anns !! Z.to_nat i) in
  let commentOf (anns : list Annotation) (i : Z) :=
    default "" (ann_comment <$> anns !! Z.to_nat i) in
  let average (score : AnnotationMatch -> Q) :=
    if (shared =? 0)%nat then 0%Q
    else Js.toFixed 3
           (fold_left Qplus (map score pairs) 0 / inject_Z (Z.of_nat shared))%Q in
  mkComparison shared
    (length annsA - shared)
    (length annsB - shared)
    (if (Nat.max (length annsA) (length annsB) =? 0)%nat then 0%Q
     else Qmake (Z.of_nat shared)
            (Pos.of_nat (Nat.max (length annsA) (length annsB))))
    (default "" (reason <$> head pairs))
    (average (fun m => quoteOverlapScore (quoteOf annsA (aIndex m))
                         (quoteOf annsB (bIndex m))))
    (average (fun m => commentSimilarityScore (commentOf annsA (aIndex m))
                         (commentOf annsB (bIndex m)))).

(** The judge contributes nothing at world [w]: its call rejects, or none
    of the matches it returns passes the integrity filter. *)
Definition judgeSilent (env : Env) (annsA annsB : list Annotation) (w : World)
    : Prop :=
  generateContent env (oracleCalls w) = None
  \/ exists r,
       generateContent env (oracleCalls w) = Some r
       /\ cleanMatches (length annsA) (length annsB)
            (parseMatches env (Js.trim (responseText r))) = [].

(** *** Notions for the step parser *)

(** The character [c] occurs in [s]. *)
Fixpoint mentions (c : ascii) (s : string) : bool :=
  match s with
  | EmptyString => false
  | String d s' => Ascii.eqb c d || mentions c s'
  end.

(** The characters of [s] that are not white space, in order. *)
Definition visible (s : string) : string :=
  Js.filterChars (fun c => negb (Js.isSpace c)) s.

(** The thoughts and texts of the segments, one after the other. *)
Definition contentOf (segs : list StepParser.ParsedStepSegment) : string :=
  fold_right (fun seg acc => StepParser.thought seg ++ StepParser.text seg ++ acc)
    "" segs.

(** What follows the first tag, tags left out; the whole text when there is
    no tag. *)
Definition afterFirstTag (items : list (string * StepParser.Tag))
    (remainder : string) : string :=
  match items with
  | [] => remainder
  | _ :: rest => fold_right (fun it acc => fst it ++ acc) remainder rest
  end.

(** No closing tag was recognised. *)
Definition openingOnly (items : list (string * StepParser.Tag)) : Prop :=
  Forall (fun it => StepParser.isClosing (snd it) = false) items.

(** The parser is inside a block and has kept the visible characters of
    [kept]. *)
Definition keeps (p : StepParser.Parser) (kept : string) : Prop :=
  visible (contentOf (StepParser.segments p)
           ++ StepParser.currentThought p ++ StepParser.currentText p)
  = visible kept
  /\ StepParser.readingThought p || StepParser.readingText p = true
  /\ (StepParser.readingThought p = true -> StepParser.readingText p = false)
  /\ (StepParser.readingText p = false -> StepParser.currentText p = "").

(** ** Environments and inputs to run the model with *)

Definition sampleResponse : Response :=
  mkResponse "The gondola drifted under the Rialto." (Some (mkUsage 12 30 42)).

Definition samplePayload : EvalPayload :=
  mkPayload
    [mkRawAnnotation "The gondola drifted" "Historical Accuracy"
       "Plausible for 1740." None None]
    [("history", Some (80 # 1)%Q)].

(** An oracle whose every call resolves. *)
Definition obligingEnv : Env :=
  mkEnv (fun _ => Some sampleResponse) wholeTextDiffer opt_taskPrompt
    (fun _ => Some samplePayload) (fun _ => Some []) (fun _ => [])
    (fun label i => label ++ "#" ++ pretty i).

(** An oracle whose every call rejects. *)
Definition failingEnv : Env :=
  mkEnv (fun _ => None) wholeTextDiffer opt_taskPrompt
    (fun _ => None) (fun _ => None) (fun _ => [])
    (fun label i => label ++ "#" ++ pretty i).

(** An oracle whose calls resolve, except the one numbered [n]. *)
Definition failingAt (n : nat) : Env :=
  mkEnv (fun k => if (k =? n)%nat then None else Some sampleResponse)
    wholeTextDiffer opt_taskPrompt
    (fun _ => Some samplePayload) (fun _ => Some []) (fun _ => [])
    (fun label i => label ++ "#" ++ pretty i).

Definition sampleConfig (type : ExperimentType) (iterations runCount : Z)
    : ExperimentConfig :=
  mkConfig "experiment" type iterations runCount 1 "gemini-2.5-flash"
    "gemini-2.5-flash" "system" "task" None "refine" "" None []
    [mkCategory "history" "Historical Accuracy" ""] None.

Definition sampleAnnotation (quote comment : string) : Annotation :=
  mkAnnotation 0 quote "Historical Accuracy" comment None None None None None
    "AI_EVALUATOR" [] [].

Definition freshWorld : World := mkWorld 0 0.

(** ** Reading traces *)

(** The documents handed to [onUpdateRun], with their run, in order. *)
Definition published (ev : list Event) : list (string * DocumentVersion) :=
  omap (fun e => match e with
                 | StepAppended runId doc => Some (runId, doc)
                 | _ => None
                 end) ev.

Definition samePurpose (p q : Purpose) : bool :=
  match p, q with
  | Generation, Generation | Evaluation, Evaluation
  | Highlighting, Highlighting | Judging, Judging
  | Commentary, Commentary => true
  | _, _ => false
  end.

(** The number of oracle calls made for [purpose]. *)
Definition callCount (purpose : Purpose) (ev : list Event) : nat :=
  length (List.filter (fun e => match e with
                                | OracleCall p _ => samePurpose p purpose
                                | _ => false
                                end) ev).

(** Each node but the first has the node before it as parent. *)
Definition linearChain (nodes : list DocumentVersion) : Prop :=
  forall i d d', nodes !! i = Some d -> nodes !! S i = Some d' ->
                 parentId d' = Some (id d).

Definition isLog (e : Event) : Prop :=
  match e with LogLine _ => True | _ => False end.

(** The calls the generation pipeline paces: generation and evaluation. *)
Definition needsDelay (purpose : Purpose) : bool :=
  match purpose with
  | Generation | Evaluation => true
  | _ => false
  end.

(** [delaysRespected needs pending ev]: in [ev], no oracle call is made
    while a delay is pending, where a call for [purpose] leaves a delay
    pending when [needs purpose], and a [Delay] clears it.  [pending] is the
    situation at the start of [ev]. *)
Fixpoint delaysRespected (needs : Purpose -> bool) (pending : bool)
    (ev : list Event) : bool :=
  match ev with
  | [] => true
  | OracleCall p _ :: ev' => negb pending && delaysRespected needs (needs p) ev'
  | Delay _ :: ev' => delaysRespected needs false ev'
  | _ :: ev' => delaysRespected needs pending ev'
  end.

(** *** An observer of traces

    The observer follows an execution event by event.  It records whether
    a delay is owed, whether a generation call has been rejected, the
    documents published and the number of generation calls.  It refuses an
    oracle call made while a delay is owed, and after a rejected generation
    call it refuses everything but log lines. *)
Record Observed := mkObserved {
  owed : bool;
  aborted : bool;
  docs : list (string * DocumentVersion);
  generations : nat
}.

Definition isGeneration (purpose : Purpose) : bool :=
  match purpose with Generation => true | _ => false end.

Definition afterCall (purpose : Purpose) (resolved : bool) (s : Observed)
    : Observed :=
  mkObserved (needsDelay purpose) (isGeneration purpose && negb resolved)
    (docs s)
    (if isGeneration purpose then S (generations s) else generations s).

Definition observe (s : Observed) (e : Event) : option Observed :=
  if aborted s
  then match e with LogLine _ => Some s | _ => None end
  else match e with
       | OracleCall p ok => if owed s then None else Some (afterCall p ok s)
       | Delay _ => Some (mkObserved false false (docs s) (generations s))
       | StepAppended runId doc =>
           Some (mkObserved (owed s) false (docs s ++ [(runId, doc)])%list
                   (generations s))
       | StatusChanged _ _ => Some s
       | LogLine _ => Some s
       end.

Fixpoint runFrom {S : Type} (step : S -> Event -> option S) (s : S)
    (ev : list Event) : option S :=
  match ev with
  | [] => Some s
  | e :: ev' =>
      match step s e with
      | Some s' => runFrom step s' ev'
      | None => None
      end
  end.

(** [triple step s m Q R]: from every world, the observer [step], started
    in state [s], accepts the trace of [m]; it ends in a state that
    satisfies [Q] with the result when [m] returns, and [R] when [m]
    throws. *)
Definition triple {S A : Type} (step : S -> Event -> option S) (s : S)
    (m : Exec A) (Q : A -> S -> Prop) (R : S -> Prop) : Prop :=
  forall w,
    exists s', runFrom step s (trace (m w)) = Some s'
               /\ match outcome (m w) with
                  | Returned a => Q a s'
                  | Thrown => R s'
                  end.

(** The observer at rest, with a ledger. *)
Definition calm (d : list (string * DocumentVersion)) (g : nat) : Observed :=
  mkObserved false false d g.

(** No oracle call of [env] ever rejects. *)
Definition allResolve (env : Env) : Prop :=
  forall n, generateContent env n <> None.

(** The observer has seen a generation call rejected, which [Fail] allows. *)
Definition abortedBy (Fail : Prop) (s : Observed) : Prop :=
  Fail /\ aborted s = true.

(** An output and what highlighting makes of it are the same node of the
    same run. *)
Definition sameNode (o o' : Output) : Prop :=
  out_runId o' = out_runId o
  /\ id (doc o') = id (doc o)
  /\ parentId (doc o') = parentId (doc o)
  /\ content (doc o') = content (doc o).

(** A variant of the annotation-consistency protocol: a copy of the base
    document's text, linked to it, without token usage. *)
Definition variantOf (baseDoc : DocumentVersion) (v : string * DocumentVersion)
    : Prop :=
  parentId (snd v) = Some (id baseDoc)
  /\ content (snd v) = content baseDoc
  /\ tokenUsage (snd v) = None.

Definition isConsistency (type : ExperimentType) : bool :=
  match type with
  | CONSISTENCY_TEXT | CONSISTENCY_ANNOTATION => true
  | _ => false
  end.

(** The purpose of the first rejected oracle call of a trace, and the
    events that follow it. *)
Fixpoint afterRejection (ev : list Event) : option (Purpose * list Event) :=
  match ev with
  | [] => None
  | OracleCall p false :: ev' => Some (p, ev')
  | _ :: ev' => afterRejection ev'
  end.

Definition returnedReport (r : Outcome (option ConsistencyReport)) : bool :=
  match r with
  | Returned (Some _) => true
  | _ => false
  end.

(** The run of the [i]-th variant of a consistency protocol. *)
Definition variantRunId (env : Env) (i : nat) : string :=
  getRunIdByLabel env (variantLabel i) (Z.of_nat i).

(** ** Further notions: characters of a string *)

(** Every character of [s] satisfies [p]. *)
Fixpoint allChars (p : ascii -> bool) (s : string) : bool :=
  match s with
  | EmptyString => true
  | String c s' => p c && allChars p s'
  end.

(** A token: a non-empty run of lower-case letters and digits. *)
Definition isToken (t : string) : Prop :=
  t <> "" /\ allChars Js.isLowerAlnum t = true.

(** ** Further notions: what the heuristic matcher chooses *)

(** The score the matcher ranks a candidate pair by. *)
Definition combinedScore (a b : AnnotationView) : Q :=
  (quoteOverlapScore (quote a) (quote b) * (65 # 100)
   + commentSimilarityScore (comment a) (comment b) * (35 # 100))%Q.

(** A pair that passes the quote gate. *)
Definition eligible (a b : AnnotationView) : Prop :=
  (35 # 100 <= quoteOverlapScore (quote a) (quote b))%Q.

(** The annotations of [annsB] taken by the matches made for the
    annotations of [annsA] before the [i]-th. *)
Definition takenBefore (ms : list AnnotationMatch) (i : nat) : list Z :=
  map bIndex (List.filter (fun m => aIndex m <? Z.of_nat i) ms).

(** The match made for the [i]-th annotation of [annsA], if any. *)
Definition matchFor (ms : list AnnotationMatch) (i : nat) : option AnnotationMatch :=
  List.find (fun m => aIndex m =? Z.of_nat i) ms.

(** [m] names the [j]-th annotation [b] of [annsB] as partner of [a] and
    reports the scores of that pair. *)
Definition reportsPair (annsB : list AnnotationView) (a : AnnotationView)
    (m : AnnotationMatch) (j : nat) (b : AnnotationView) : Prop :=
  bIndex m = Z.of_nat j
  /\ annsB !! j = Some b
  /\ quoteScore m = Some (quoteOverlapScore (quote a) (quote b))
  /\ commentScore m = Some (commentSimilarityScore (comment a) (comment b))
  /\ reason m = reasonText (quoteOverlapScore (quote a) (quote b))
                  (commentSimilarityScore (comment a) (comment b)).

(** [b], at index [j], is the best partner for [a] among the annotations of
    [annsB] that are eligible and not in [taken]: none scores higher, and
    those before it score lower. *)
Definition bestAvailable (annsB : list AnnotationView) (taken : list Z)
    (a : AnnotationView) (j : nat) (b : AnnotationView) : Prop :=
  (Z.of_nat j ∉ taken)
  /\ eligible a b
  /\ forall j' b', annsB !! j' = Some b' -> Z.of_nat j' ∉ taken -> eligible a b' ->
       (combinedScore a b' <= combinedScore a b)%Q
       /\ ((j' < j)%nat -> (combinedScore a b' < combinedScore a b)%Q).

(** The numbers of [l] grow strictly. *)
Definition increasing (l : list Z) : Prop :=
  forall i j x y, l !! i = Some x -> l !! j = Some y -> (i < j)%nat -> x < y.

(** What the greedy matcher decides for [a], given the partners already
    taken: the best available partner, or no match when every eligible
    partner is taken. *)
Definition greedyChoice (annsB : list AnnotationView) (taken : list Z)
    (a : AnnotationView) (r : option AnnotationMatch) : Prop :=
  match r with
  | Some m => exists j b, reportsPair annsB a m j b /\ bestAvailable annsB taken a j b
  | None => forall j b, annsB !! j = Some b -> eligible a b -> Z.of_nat j ∈ taken
  end.

(** What the inner loop of the matcher knows of its best candidate after
    the first [bound] items of [annsB]. *)
Definition bestSoFar (usedB : gset Z) (a : AnnotationView)
    (annsB : list AnnotationView) (bound : nat) (best : Best) : Prop :=
  (best = noBest
   /\ forall j b, (j < bound)%nat -> annsB !! j = Some b -> eligible a b ->
                  Z.of_nat j ∈ usedB)
  \/ exists j b,
       (j < bound)%nat
       /\ annsB !! j = Some b
       /\ best = mkBest (Z.of_nat j) (combinedScore a b)
                   (quoteOverlapScore (quote a) (quote b))
                   (commentSimilarityScore (comment a) (comment b))
                   (reasonText (quoteOverlapScore (quote a) (quote b))
                      (commentSimilarityScore (comment a) (comment b)))
       /\ (Z.of_nat j ∉ usedB)
       /\ eligible a b
       /\ forall j' b', (j' < bound)%nat -> annsB !! j' = Some b' ->
            Z.of_nat j' ∉ usedB -> eligible a b' ->
            (combinedScore a b' <= combinedScore a b)%Q
            /\ ((j' < j)%nat -> (combinedScore a b' < combinedScore a b)%Q).

(** What the outer loop knows after the first [bound] items of [annsA]. *)
Definition greedySoFar (annsA annsB : list AnnotationView) (bound : nat)
    (st : gset Z * list AnnotationMatch) : Prop :=
  (forall z, z ∈ fst st <-> z ∈ map bIndex (snd st))
  /\ Forall (fun m => 0 <= aIndex m < Z.of_nat bound) (snd st)
  /\ increasing (map aIndex (snd st))
  /\ forall i a, (i < bound)%nat -> annsA !! i = Some a ->
       greedyChoice annsB (takenBefore (snd st) i) a (matchFor (snd st) i).

(** The two indices of a match. *)
Definition pairOf (m : AnnotationMatch) : Z * Z := (aIndex m, bIndex m).

(** The matching of the first [n] annotations of a list with themselves. *)
Definition diagonal (n : nat) : list (Z * Z) :=
  map (fun i => (Z.of_nat i, Z.of_nat i)) (seq 0 n).

(** The line logged when the judge's call fails. *)
Definition judgeFailedLine : string :=
  "Annotation match via Gemini failed; using fallback matching.".

(** ** Further notions: scores and token usage *)

(** The category a key of the evaluator's [scores] object is filed under
    ([categories.find(c => c.id === key || c.name === key)?.id || key]). *)
Definition categoryIdOf (categories : list EvaluationCategory) (key : string)
    : string :=
  match List.find (fun c => String.eqb (cat_id c) key || String.eqb (cat_name c) key)
          categories with
  | Some c => if Js.truthy (cat_id c) then cat_id c else key
  | None => key
  end.

(** The numeric scores that [rawScores] reports for category [cat], in the
    order of the keys. *)
Definition scoresFor (categories : list EvaluationCategory)
    (rawScores : list (string * option Q)) (cat : string) : list Q :=
  omap (fun entry : string * option Q =>
          if String.eqb (categoryIdOf categories (fst entry)) cat
          then snd entry else None)
    rawScores.

Definition addUsage (a b : TokenUsage) : TokenUsage :=
  mkUsage (promptTokens a + promptTokens b) (outputTokens a + outputTokens b)
    (totalTokens a + totalTokens b).

Definition optional {A} (o : option A) : list A :=
  match o with Some a => [a] | None => [] end.

(** ** Further notions: segments and responses *)

(** A segment as the parser makes them: both parts trimmed, one at least
    not empty. *)
Definition tidySegment (seg : StepParser.ParsedStepSegment) : Prop :=
  Js.trim (StepParser.thought seg) = StepParser.thought seg
  /\ Js.trim (StepParser.text seg) = StepParser.text seg
  /\ (StepParser.thought seg <> "" \/ StepParser.text seg <> "").

(** The first character of [s] is white space. *)
Definition headSpace (s : string) : bool :=
  match s with
  | String c _ => Js.isSpace c
  | EmptyString => false
  end.

(** ** Further notions: the documents of a step *)

(** The annotation a step makes of a candidate of the evaluator. *)
Definition evaluatorAnnotation (uuid : nat) (a : RawAnnotation) : Annotation :=
  mkAnnotation uuid (raw_quote a) (raw_level a) (raw_comment a)
    (raw_sourceId a) (raw_sourceQuote a) None None None "AI_EVALUATOR" [] [].

(** The candidates [raw] as annotations numbered from [first]. *)
Fixpoint numbered (first : nat) (raw : list RawAnnotation) : list Annotation :=
  match raw with
  | [] => []
  | a :: raw' => evaluatorAnnotation first a :: numbered (S first) raw'
  end.

(** The events of a trace that are not log lines. *)
Definition withoutLogs (ev : list Event) : list Event :=
  List.filter (fun e => match e with LogLine _ => false | _ => true end) ev.

(** The method of a step: a refinement as soon as there is a previous
    step, the requested method otherwise. *)
Definition methodOf (previousStep : option DocumentVersion)
    (methodOverride : option GenerationMethod) : GenerationMethod :=
  match previousStep, methodOverride with
  | Some _, _ => REFINE_LOOP
  | None, Some m => m
  | None, None => STANDARD
  end.

(** The call that follows in world [w]. *)
Definition nextCall (env : Env) (w : World) : option Response :=
  generateContent env (oracleCalls w).

Definition afterCalls (n : nat) (w : World) : World :=
  mkWorld (n + oracleCalls w) (uuids w).

Definition afterUuids (n : nat) (w : World) : World :=
  mkWorld (oracleCalls w) (n + uuids w).

(** The task prompt a step records: the refinement prompt when there is a
    previous step; the step prompt, if not empty, for a step-by-step
    generation; the task prompt otherwise. *)
Definition taskPromptOf (config : ExperimentConfig)
    (previousStep : option DocumentVersion)
    (methodOverride : option GenerationMethod) : string :=
  match previousStep, methodOverride with
  | Some _, _ => refinePrompt config
  | None, Some STEP_BY_STEP =>
      match stepPrompt config with
      | Some p => if Js.truthy p then p else taskPrompt config
      | None => taskPrompt config
      end
  | None, _ => taskPrompt config
  end.

(** The pacing delay of a configuration, in milliseconds. *)
Definition pause (config : ExperimentConfig) : Q := (delaySeconds config * 1000)%Q.

(** What a step that went through emits, log lines apart. *)
Definition stepEvents (config : ExperimentConfig) (evaluated : bool) : list Event :=
  [OracleCall Generation true; Delay (pause config);
   OracleCall Evaluation evaluated; Delay (pause config)].

(** ** The experiment dashboard ([ExperimentDashboard.tsx]), which calls
    [runExperimentLoop] *)

(** The status of a run: ['pending'] until the service reports one. *)
Inductive RunState := pending | reported (status : RunStatus).

Record ExperimentRun := mkRun {
  run_id : string;
  run_experimentId : string;
  runNumber : Z;
  run_label : string;
  run_status : RunState;
  stepIds : list nat
}.

Record ExperimentData := mkExperiment {
  exp_config : ExperimentConfig;
  exp_runs : list ExperimentRun;
  consistencyReport : option ConsistencyReport
}.

(** The part of [ProjectState] that running an experiment reads and
    writes; the state updates carry every other field over as it is. *)
Record ProjectState := mkProject {
  documents : list DocumentVersion;
  experiments : list ExperimentData
}.

(** The text of the [n]-th identifier drawn, where a string is needed. *)
Definition uuidText (n : nat) : string := pretty n.

Module Dashboard.

(** One entry of [newRuns]. *)
Definition newRun (config : ExperimentConfig) (i : nat) (label : string)
    : Exec ExperimentRun :=
  uuid ← randomUUID;
  mret (mkRun (uuidText uuid) (cfg_id config) (Z.of_nat i + 1) label pending []).

Definition pushOne (config : ExperimentConfig) (label : nat -> string)
    (i : nat) (newRuns : list ExperimentRun) : Exec (list ExperimentRun) :=
  a ← newRun config i (label i);
  mret (newRuns ++ [a])%list.

Definition pushTwo (config : ExperimentConfig) (labelA labelB : string)
    (i : nat) (newRuns : list ExperimentRun) : Exec (list ExperimentRun) :=
  a ← newRun config i labelA;
  b ← newRun config i labelB;
  mret (newRuns ++ [a; b])%list.

(** The run table that [handleRun] builds before it calls the service. *)
Definition newRuns (config : ExperimentConfig) : Exec (list ExperimentRun) :=
  match cfg_type config with
  | COMPARATIVE =>
      forRange (Z.to_nat (runCount config)) 0
        (pushTwo config "Step-by-Step" "Refinement Loop") []
  | ABLATION =>
      forRange (Z.to_nat (runCount config)) 0
        (pushTwo config "Full Context" "Zero Context") []
  | CONSISTENCY_TEXT | CONSISTENCY_ANNOTATION =>
      forRange (Z.to_nat (Z.max 2 (runCount config))) 0
        (pushOne config variantLabel) []
  | _ =>
      forRange (Z.to_nat (runCount config)) 0
        (pushOne config (fun _ => "Convergence")) []
  end.

(** [getRunIdByLabel]: the id of the [index]-th run with that label.  When
    there is none, the source draws a new identifier; [fresh] stands for
    it. *)
Definition getRunIdByLabel (newRuns : list ExperimentRun)
    (fresh : string -> Z -> string) (label : string) (index : Z) : string :=
  let matches := List.filter (fun r => String.eqb (run_label r) label) newRuns in
  match (if index <? 0 then None else matches !! Z.to_nat index) with
  | Some r => if Js.truthy (run_id r) then run_id r else fresh label index
  | None => fresh label index
  end.

Section Updates.

(** [activeExperiment.config.id]. *)
Variable activeId : string.

Definition isActive (e : ExperimentData) : Prop := cfg_id (exp_config e) = activeId.

#[global] Instance isActive_dec (e : ExperimentData) : Decision (isActive e) :=
  decide (cfg_id (exp_config e) = activeId).

Definition setRuns (e : ExperimentData) (runs : list ExperimentRun) : ExperimentData :=
  mkExperiment (exp_config e) runs (consistencyReport e).

Definition appendStep (r : ExperimentRun) (stepId : nat) : ExperimentRun :=
  mkRun (run_id r) (run_experimentId r) (runNumber r) (run_label r) (run_status r)
    (stepIds r ++ [stepId]).

Definition setStatus (r : ExperimentRun) (status : RunStatus) : ExperimentRun :=
  mkRun (run_id r) (run_experimentId r) (runNumber r) (run_label r) (reported status)
    (stepIds r).

(** [runs[idx] = change(runs[idx])] for the first run with that id, if
    there is one. *)
Definition changeRun (runId : string) (change : ExperimentRun -> ExperimentRun)
    (runs : list ExperimentRun) : list ExperimentRun :=
  match list_find (fun r => run_id r = runId) runs with
  | Some (runIdx, r) => <[runIdx := change r]> runs
  | None => runs
  end.

(** [updateRunStep]: the state update behind [onUpdateRun]. *)
Definition updateRunStep (runId : string) (step : DocumentVersion)
    (current : ProjectState) : ProjectState :=
  let newDocuments := step :: documents current in
  match list_find isActive (experiments current) with
  | None => current
  | Some (expIndex, e) =>
      let runs := changeRun runId (fun r => appendStep r (id step)) (exp_runs e) in
      mkProject newDocuments (<[expIndex := setRuns e runs]> (experiments current))
  end.

(** [updateStatus]: the state update behind [onStatusChange]. *)
Definition updateStatus (runId : string) (status : RunStatus)
    (current : ProjectState) : ProjectState :=
  match list_find isActive (experiments current) with
  | None => current
  | Some (expIndex, e) =>
      let runs := changeRun runId (fun r => setStatus r status) (exp_runs e) in
      mkProject (documents current)
        (<[expIndex := setRuns e runs]> (experiments current))
  end.

(** What an event of the service does to the project: [handleRun] passes
    [updateRunStep] as [onUpdateRun] and [updateStatus] as [onStatusChange];
    log lines go to a state of their own. *)
Definition onEvent (p : ProjectState) (e : Event) : ProjectState :=
  match e with
  | StepAppended runId step => updateRunStep runId step p
  | StatusChanged runId status => updateStatus runId status p
  | _ => p
  end.

End Updates.

(** [getDocsForRun]: the documents of a run, by the ids of its steps. *)
Definition getDocsForRun (project : ProjectState) (run : ExperimentRun)
    : list DocumentVersion :=
  omap (fun stepId => List.find (fun d => Nat.eqb (id d) stepId) (documents project))
    (stepIds run).

End Dashboard.

(** ** Further notions: the run table and the requests of the service *)

(** The run of number [k + 1] with its identifier and label. *)
Definition row (config : ExperimentConfig) (uuid k : nat) (label : string)
    : ExperimentRun :=
  mkRun (uuidText uuid) (cfg_id config) (Z.of_nat k + 1) label pending [].

(** A table with one run per round, identifiers from [first]. *)
Definition tableOne (config : ExperimentConfig) (label : nat -> string)
    (first n : nat) : list ExperimentRun :=
  map (fun k => row config (first + k) k (label k)) (seq 0 n).

(** A table with two runs per round. *)
Definition tableTwo (config : ExperimentConfig) (labelA labelB : string)
    (first n : nat) : list ExperimentRun :=
  flat_map (fun k => [row config (first + 2 * k) k labelA;
                      row config (first + 2 * k + 1) k labelB])
    (seq 0 n).

(** The table of a configuration, identifiers from [first]. *)
Definition tableOf (config : ExperimentConfig) (first : nat) : list ExperimentRun :=
  match cfg_type config with
  | COMPARATIVE =>
      tableTwo config "Step-by-Step" "Refinement Loop" first
        (Z.to_nat (runCount config))
  | ABLATION =>
      tableTwo config "Full Context" "Zero Context" first
        (Z.to_nat (runCount config))
  | CONSISTENCY_TEXT | CONSISTENCY_ANNOTATION =>
      tableOne config variantLabel first (Z.to_nat (Z.max 2 (runCount config)))
  | _ => tableOne config (fun _ => "Convergence") first (Z.to_nat (runCount config))
  end.

(** The labels under which [runExperimentLoop] asks for the run of a
    round, by protocol. *)
Definition labelsOf (type : ExperimentType) (i : nat) : list string :=
  match type with
  | CONVERGENCE => ["Convergence"]
  | COMPARATIVE => ["Step-by-Step"; "Refinement Loop"]
  | ABLATION => ["Full Context"; "Zero Context"]
  | CONSISTENCY_TEXT | CONSISTENCY_ANNOTATION => [variantLabel i]
  | CUSTOM => ["Custom"]
  end.

(** The number of rounds of a protocol. *)
Definition rounds (config : ExperimentConfig) : nat :=
  if isConsistency (cfg_type config) then Z.to_nat (variantCount config)
  else Z.to_nat (runCount config).

(** [runExperimentLoop] asks for the run of label [label] in round [i]. *)
Definition requested (config : ExperimentConfig) (label : string) (i : nat) : Prop :=
  (i < rounds config)%nat /\ label ∈ labelsOf (cfg_type config) i.

(** The resolver finds in [runs] the run of that label and that round. *)
Definition resolves (runs : list ExperimentRun) (fresh : string -> Z -> string)
    (label : string) (i : nat) : Prop :=
  exists r, r ∈ runs
            /\ run_label r = label
            /\ runNumber r = Z.of_nat i + 1
            /\ Dashboard.getRunIdByLabel runs fresh label (Z.of_nat i) = run_id r.

(** The resolver finds no run and answers with a new identifier. *)
Definition fallsBack (runs : list ExperimentRun) (fresh : string -> Z -> string)
    (label : string) (i : nat) : Prop :=
  Dashboard.getRunIdByLabel runs fresh label (Z.of_nat i) = fresh label (Z.of_nat i).

(** ** Further notions: what the service tells the dashboard *)

(** [rid] is what the resolver of [env] answers when the protocol asks for
    the run of [label] in one of its rounds. *)
Definition answers (env : Env) (config : ExperimentConfig) (label rid : string)
    : Prop :=
  exists i, requested config label i
            /\ rid = getRunIdByLabel env label (Z.of_nat i).

(** The document names the experiment, the run and the label. *)
Definition filedUnder (config : ExperimentConfig) (rid label : string)
    (step : DocumentVersion) : Prop :=
  experimentId step = Some (cfg_id config)
  /\ runId step = Some rid
  /\ runLabel step = Some label.

(** The document names no experiment, no run and no label. *)
Definition unfiled (step : DocumentVersion) : Prop :=
  experimentId step = None /\ runId step = None /\ runLabel step = None.

(** An event in order: a status is ['running'] or ['completed'] and goes
    to a run the protocol asked for; a document goes to a run the protocol
    asked for, and names it, except in the annotation-consistency protocol,
    whose documents name nothing. *)
Definition orderly (env : Env) (config : ExperimentConfig) (e : Event) : Prop :=
  match e with
  | StatusChanged rid status =>
      status <> failed /\ exists label, answers env config label rid
  | StepAppended rid step =>
      exists label,
        answers env config label rid
        /\ match cfg_type config with
           | CONSISTENCY_ANNOTATION => unfiled step
           | _ => filedUnder config rid label step
           end
  | _ => True
  end.

(** An event that is neither a status nor a document. *)
Definition quiet (e : Event) : Prop :=
  match e with
  | StatusChanged _ _ | StepAppended _ _ => False
  | _ => True
  end.

(** From every world, every event of [m] satisfies [P], and the result of
    [m], when it returns, satisfies [Q]. *)
Definition emits {A} (P : Event -> Prop) (m : Exec A) (Q : A -> Prop) : Prop :=
  forall w,
    Forall P (trace (m w))
    /\ match outcome (m w) with
       | Returned a => Q a
       | Thrown => True
       end.

(** An output of a consistency protocol that is in order. *)
Definition orderlyOutput (env : Env) (config : ExperimentConfig) (o : Output)
    : Prop :=
  answers env config (out_label o) (out_runId o)
  /\ filedUnder config (out_runId o) (out_label o) (doc o).

(** [env] with the resolver [resolver]. *)
Definition withResolver (env : Env) (resolver : string -> Z -> string) : Env :=
  mkEnv (generateContent env) (diffWords env) (buildFullPrompt env)
    (parseEvaluation env) (parseHighlights env) (parseMatches env) resolver.

(** An event that reaches a run of the table [runs]: a status goes to the
    identifier of a run; a document goes to the identifier of a run, and
    names that identifier and the label of that run. *)
Definition reaches (runs : list ExperimentRun) (e : Event) : Prop :=
  match e with
  | StatusChanged rid _ => exists r, r ∈ runs /\ run_id r = rid
  | StepAppended rid step =>
      exists r, r ∈ runs /\ run_id r = rid
                /\ runId step = Some rid
                /\ runLabel step = Some (run_label r)
  | _ => True
  end.

(** ** Further inputs to run the model with *)

Definition sampleDocument (n : nat) : DocumentVersion :=
  mkDocument n None "The gondola drifted under the Rialto." [] "gemini-2.5-flash"
    STANDARD "system" "task" None None None [] [] ∅ None None
    (Some "experiment") (Some (uuidText 0)) (Some "Convergence").

(** A project whose one experiment has one pending run, of identifier
    [uuidText 0]. *)
Definition sampleProject : ProjectState :=
  mkProject []
    [mkExperiment (sampleConfig CONVERGENCE 1 1)
       [row (sampleConfig CONVERGENCE 1 1) 0 0 "Convergence"] None].

(** * Properties *)

(** ** Lexical utilities *)

Example tokenize_sample :
  tokenize "The gondola, drifted SLOWLY!" = ["the"; "gondola"; "drifted"; "slowly"].
Proof. reflexivity. Qed.

Example clean_sample : clean "  Adds   invented-detail.  " = "adds inventeddetail".
Proof. reflexivity. Qed.

Example commentSimilarity_scenario :
  commentSimilarityScore "adds invented detail" "invents an extra detail" = (1 # 6)%Q.
Proof. vm_compute. reflexivity. Qed.

Lemma prefix_spec (b a : string) :
  String.prefix b a = true <-> exists post, a = b ++ post.
Proof.
  revert a. induction b as [|c b IH]; intros a.
  - destruct a; simpl; (split; [intros _; eexists; reflexivity | done]).
  - destruct a as [|d a]; simpl.
    + split; [done | intros [post H]; discriminate].
    + destruct (Ascii.ascii_dec c d) as [->|Hne].
      * rewrite IH. split; intros [post H]; exists post.
        -- by rewrite H.
        -- by injection H.
      * split; [done | intros [post H]; injection H; congruence].
Qed.

Lemma includes_spec (a b : string) :
  Js.includes a b = true <-> substringOf b a.
Proof.
  unfold substringOf. induction a as [|c a IH]; cbn [Js.includes].
  - rewrite orb_false_r, prefix_spec. split.
    + intros [post ->]. by exists "", post.
    + intros [pre [post H]]. destruct pre; simpl in H.
      * by exists post.
      * discriminate.
  - rewrite orb_true_iff, prefix_spec, IH. split.
    + intros [[post ->] | [pre [post ->]]].
      * by exists "", post.
      * by exists (String c pre), post.
    + intros [pre [post H]]. destruct pre as [|d pre]; simpl in H.
      * left. by exists post.
      * right. injection H as -> ->. by exists pre, post.
Qed.

Lemma jaccard_sym (a b : gset string) : jaccard a b = jaccard b a.
Proof.
  unfold jaccard. by rewrite (comm_L (∩) a b), (comm_L (∪) a b).
Qed.

Lemma truthy_false (s : string) : Js.truthy s = false <-> s = "".
Proof. destruct s; simpl; split; congruence. Qed.

Lemma quoteOverlapScore_sym (a b : string) :
  quoteOverlapScore a b = quoteOverlapScore b a.
Proof.
  unfold quoteOverlapScore.
  rewrite (orb_comm (negb (Js.truthy a))), (orb_comm (Js.includes a b)).
  by rewrite jaccard_sym.
Qed.




(** ** The heuristic matcher *)

Lemma Qltb_false (x y : Q) : Js.Qltb x y = false -> (y <= x)%Q.
Proof.
  unfold Js.Qltb. intros H. apply negb_false_iff in H. by apply Qle_bool_iff.
Qed.

Lemma considerCandidate_ok usedB annA annsB k best b :
  annsB !! k = Some b ->
  candidateOk usedB annA annsB k best ->
  candidateOk usedB annA annsB (S k) (considerCandidate usedB annA best b k).
Proof.
  intros Hb Hbest.
  assert (candidateOk usedB annA annsB (S k) best) as Hkeep.
  { destruct Hbest as [? | (? & ? & ?)]; [by left | right].
    split; [lia | done]. }
  unfold considerCandidate.
  destruct (decide (Z.of_nat k ∈ usedB)) as [|Hfree]; [done |].
  destruct (Js.Qltb (quoteOverlapScore (quote annA) (quote b)) (35 # 100)) eqn:Hq;
    [done |].
  destruct (Js.Qltb (bestScore best) _); [| done].
  right. cbn [bestIdx]. split; [lia |]. split; [done |].
  exists b. rewrite Nat2Z.id. split; [done |]. by apply Qltb_false.
Qed.

Lemma innerLoop_ok usedB annA annsB rest k best :
  (forall j b, rest !! j = Some b -> annsB !! (k + j)%nat = Some b) ->
  candidateOk usedB annA annsB k best ->
  candidateOk usedB annA annsB (k + length rest)
    (forEachFrom (considerCandidate usedB annA) k rest best).
Proof.
  revert k best. induction rest as [|b rest IH]; intros k best Hrest Hbest;
    cbn [forEachFrom length].
  - by rewrite Nat.add_0_r.
  - replace (k + S (length rest))%nat with (S k + length rest)%nat by lia.
    apply IH.
    + intros j b' Hj. replace (S k + j)%nat with (k + S j)%nat by lia.
      by apply Hrest.
    + apply considerCandidate_ok; [| done].
      specialize (Hrest 0%nat b eq_refl). by rewrite Nat.add_0_r in Hrest.
Qed.

Lemma matchOne_ok annsA annsB k st a :
  annsA !! k = Some a ->
  matchesOk annsA annsB k st ->
  matchesOk annsA annsB (S k) (matchOne annsB st a k).
Proof.
  intros Ha. destruct st as [usedB ms]. intros (Hused & HnB & HnA & Hall).
  cbn [fst snd] in *.
  assert (Forall (fun m => aIndex m < Z.of_nat (S k) /\ matchOk annsA annsB m) ms)
    as Hall'.
  { eapply Forall_impl; [exact Hall |]. intros m [? ?]. split; [lia | done]. }
  unfold matchOne.
  pose proof (innerLoop_ok usedB a annsB annsB 0 noBest) as Hbest.
  cbn [Nat.add] in Hbest. fold (forEach (considerCandidate usedB a) annsB noBest) in Hbest.
  specialize (Hbest (fun j b H => H) (or_introl eq_refl)).
  set (best := forEach (considerCandidate usedB a) annsB noBest) in *.
  destruct (decide (bestIdx best ≠ -1)) as [Hfound|];
    [| unfold matchesOk; cbn [fst snd]; split; [done | split; [done | split; done]]].
  destruct Hbest as [? | (Hrange & Hfree & b & Hb & Hscore)]; [done |].
  unfold matchesOk. cbn [fst snd]. rewrite !map_app. cbn [map aIndex bIndex].
  split; [| split; [| split]].
  - intros z. rewrite elem_of_union, elem_of_singleton, elem_of_app, Hused.
    rewrite list_elem_of_singleton. tauto.
  - apply NoDup_app. split; [done |]. split; [| apply NoDup_singleton].
    intros z Hz Hz'. apply list_elem_of_singleton in Hz'. subst z.
    by apply Hfree, Hused.
  - apply NoDup_app. split; [done |]. split; [| apply NoDup_singleton].
    intros z Hz Hz'. apply list_elem_of_singleton in Hz'. subst z.
    apply list_elem_of_fmap in Hz as (m & Hm & Hin).
    rewrite Forall_forall in Hall. apply Hall in Hin as [Hlt _]. lia.
  - apply Forall_app. split; [done |]. apply Forall_singleton.
    unfold matchOk. cbn [aIndex bIndex].
    apply lookup_lt_Some in Ha as HltA.
    split; [lia |]. split; [lia |]. split; [lia |].
    exists a, b. by rewrite Nat2Z.id.
Qed.

Lemma outerLoop_ok annsA annsB rest k st :
  (forall j a, rest !! j = Some a -> annsA !! (k + j)%nat = Some a) ->
  matchesOk annsA annsB k st ->
  matchesOk annsA annsB (k + length rest)
    (forEachFrom (matchOne annsB) k rest st).
Proof.
  revert k st. induction rest as [|a rest IH]; intros k st Hrest Hst;
    cbn [forEachFrom length].
  - by rewrite Nat.add_0_r.
  - replace (k + S (length rest))%nat with (S k + length rest)%nat by lia.
    apply IH.
    + intros j a' Hj. replace (S k + j)%nat with (k + S j)%nat by lia.
      by apply Hrest.
    + apply matchOne_ok; [| done].
      specialize (Hrest 0%nat a eq_refl). by rewrite Nat.add_0_r in Hrest.
Qed.

Lemma fallback_matchesOk annsA annsB :
  matchesOk annsA annsB (length annsA)
    (forEach (matchOne annsB) annsA (∅, [])).
Proof.
  apply (outerLoop_ok annsA annsB annsA 0 (∅, [])); [done |].
  unfold matchesOk. cbn [fst snd map]. repeat split; try constructor.
  - intros H. by apply not_elem_of_empty in H.
  - intros H. by apply not_elem_of_nil in H.
Qed.

(** Distinct indices below [n] are at most [n]. *)
Lemma distinct_indices_bounded (l : list Z) (n : nat) :
  NoDup l -> Forall (fun z => 0 <= z < Z.of_nat n) l -> (length l <= n)%nat.
Proof.
  intros Hnd Hall.
  assert (NoDup (Z.to_nat <$> l)) as Hnd'.
  { apply NoDup_fmap_2_strong; [| done].
    intros x y Hx Hy Heq. rewrite Forall_forall in Hall.
    apply Hall in Hx. apply Hall in Hy. lia. }
  assert (forall i, i ∈ Z.to_nat <$> l -> i ∈ seq 0 n) as Hsub.
  { intros i Hi. apply list_elem_of_fmap in Hi as (z & -> & Hz).
    rewrite Forall_forall in Hall. apply Hall in Hz.
    apply elem_of_seq. lia. }
  pose proof (submseteq_length _ _ (NoDup_submseteq _ _ Hnd' Hsub)) as Hlen.
  by rewrite length_fmap, length_seq in Hlen.
Qed.

(** The matches of the heuristic never reuse an annotation of [annsB], and
    each of them pairs two existing annotations. *)
Lemma fallback_matches_sound annsA annsB :
  NoDup (map bIndex (fallbackAnnotationMatches annsA annsB))
  /\ Forall (matchOk annsA annsB) (fallbackAnnotationMatches annsA annsB).
Proof.
  destruct (fallback_matchesOk annsA annsB) as (_ & HnB & _ & Hall).
  split; [done |]. eapply Forall_impl; [exact Hall |]. by intros m [_ ?].
Qed.

(** C9: the heuristic matcher returns a one-to-one partial matching: its
    [aIndex] values are pairwise distinct, its [bIndex] values are pairwise
    distinct, all are in range, there are at most [min(|A|, |B|)] matches,
    and the quotes of every matched pair overlap by at least 0.35. *)
Theorem fallbackAnnotationMatches_one_to_one (annsA annsB : list AnnotationView) :
  let ms := fallbackAnnotationMatches annsA annsB in
  NoDup (map aIndex ms)
  /\ NoDup (map bIndex ms)
  /\ (length ms <= Nat.min (length annsA) (length annsB))%nat
  /\ Forall (matchOk annsA annsB) ms.
Proof.
  cbn zeta. unfold fallbackAnnotationMatches.
  destruct (fallback_matchesOk annsA annsB) as (_ & HnB & HnA & Hall).
  set (ms := snd (forEach (matchOne annsB) annsA (∅, []))) in *.
  assert (Forall (matchOk annsA annsB) ms) as Hok.
  { eapply Forall_impl; [exact Hall |]. by intros m [_ ?]. }
  split; [done |]. split; [done |]. split; [| done].
  apply Nat.min_glb.
  - rewrite <- (length_map aIndex). apply distinct_indices_bounded; [done |].
    apply Forall_fmap. eapply Forall_impl; [exact Hok |].
    intros m (? & _). done.
  - rewrite <- (length_map bIndex). apply distinct_indices_bounded; [done |].
    apply Forall_fmap. eapply Forall_impl; [exact Hok |].
    intros m (_ & ? & _). done.
Qed.

(** ** Diff statistics *)

Lemma countPart_unchanged parts acc :
  Forall unchanged parts -> fold_left countPart parts acc = acc.
Proof.
  revert acc. induction parts as [|p parts IH]; intros acc Hall; [done |].
  inversion Hall as [|? ? [Ha Hr] Hrest]; subst. cbn [fold_left].
  rewrite IH by done. unfold countPart. destruct acc as [[[? ?] ?] ?].
  by rewrite Ha, Hr.
Qed.

Lemma toFixed_zero (d : nat) (p : positive) : (Js.toFixed d (0 # p) == 0)%Q.
Proof.
  unfold Js.toFixed.
  assert (Qfloor ((0 # p) * inject_Z (10 ^ Z.of_nat d) + (1 # 2)) = 0) as ->; [| done].
  assert ((0 # p) * inject_Z (10 ^ Z.of_nat d) + (1 # 2) == 1 # 2)%Q as ->.
  { assert ((0 # p) == 0)%Q as -> by done. ring. }
  done.
Qed.

Lemma toFixed_one (n : nat) :
  (Js.toFixed 4 (Z.of_nat (S n) # Pos.of_nat (S n)) == 1)%Q.
Proof.
  unfold Js.toFixed.
  assert (Qfloor ((Z.of_nat (S n) # Pos.of_nat (S n)) * inject_Z (10 ^ Z.of_nat 4)
                  + (1 # 2)) = 10000) as ->; [| done].
  assert ((Z.of_nat (S n) # Pos.of_nat (S n)) * inject_Z (10 ^ Z.of_nat 4) + (1 # 2)
          == 20001 # 2)%Q as ->.
  { assert ((Z.of_nat (S n) # Pos.of_nat (S n)) == 1)%Q as ->.
    { unfold Qeq. cbn [Qnum Qden]. lia. }
    done. }
  done.
Qed.

(** Two texts that differ only in their line endings get the statistics of
    the text with [\n] endings against itself, whatever the differ. *)
Lemma calculateDiffStats_line_endings (dw : Differ) :
  calculateDiffStats dw
    (String "a" (String (ascii_of_nat 13) (String Js.LF "b")))
    (String "a" (String Js.LF "b"))
  = calculateDiffStats dw
      (String "a" (String Js.LF "b")) (String "a" (String Js.LF "b")).
Proof. reflexivity. Qed.




(** ** Annotation comparison *)

Lemma run_bind {A B} (m : Exec A) (f : A -> Exec B) (w : World) :
  (m ≫= f) w
  = match m w with
    | (Returned a, ev1, w1) =>
        let '(r, ev2, w2) := f a w1 in (r, (ev1 ++ ev2)%list, w2)
    | (Thrown, ev1, w1) => (Thrown, ev1, w1)
    end.
Proof. reflexivity. Qed.

Lemma matchAnnotationsWithGemini_silent env annsA annsB w :
  judgeSilent env annsA annsB w ->
  exists n ev w',
    matchAnnotationsWithGemini env annsA annsB w
    = (Returned (mkMatchResult [] n), ev, w').
Proof.
  intros Hsilent. unfold matchAnnotationsWithGemini.
  destruct (_ || _); [by eexists _, _, _ |].
  unfold tryCatch, generateNarrative. rewrite !run_bind. unfold callModel.
  destruct Hsilent as [-> | (r & -> & Hclean)].
  - by eexists _, _, _.
  - cbn. unfold extractTextFromResponse. rewrite Hclean. by eexists _, _, _.
Qed.

Lemma fold_left_sum {A} (f : A -> Q) (l : list A) (acc : Q) :
  fold_left (fun acc x => (acc + f x)%Q) l acc = fold_left Qplus (map f l) acc.
Proof. revert acc. induction l as [|x l IH]; intros acc; [done | apply IH]. Qed.

Lemma fold_left_ext_in {A B} (f g : B -> A -> B) (l : list A) (acc : B) :
  (forall b x, x ∈ l -> f b x = g b x) -> fold_left f l acc = fold_left g l acc.
Proof.
  revert acc. induction l as [|x l IH]; intros acc H; [done |].
  cbn [fold_left]. rewrite H by apply list_elem_of_here.
  apply IH. intros b y Hy. apply H. by apply list_elem_of_further.
Qed.

Lemma fieldAt_nonneg (f : Annotation -> string) anns i :
  0 <= i -> fieldAt f anns i = default "" (f <$> anns !! Z.to_nat i).
Proof. intros Hi. unfold fieldAt. by destruct (Z.ltb_spec i 0); [lia |]. Qed.

(** The pure part of [compareAnnotations], applied to the heuristic's
    matches, is the comparison the specification describes. *)
Lemma summarize_fallback annsA annsB :
  let fallback := fallbackAnnotationMatches (map view annsA) (map view annsB) in
  summarize annsA annsB fallback (default "" (reason <$> head fallback))
  = heuristicComparison annsA annsB.
Proof.
  cbn zeta. unfold summarize, heuristicComparison.
  destruct (fallback_matches_sound (map view annsA) (map view annsB))
    as (HnB & Hok).
  set (fb := fallbackAnnotationMatches (map view annsA) (map view annsB)) in *.
  rewrite size_list_to_set by done. rewrite length_map.
  assert (forall n, (0 <? n)%nat = negb (n =? 0)%nat) as Hpos.
  { intros [|n]; done. }
  rewrite !Hpos.
  assert (forall (g : Annotation -> string) (score : string -> string -> Q) acc,
    fold_left (fun acc m =>
                 (acc + score (fieldAt g annsA (aIndex m)) (fieldAt g annsB (bIndex m)))%Q)
      fb acc
    = fold_left Qplus
        (map (fun m => score (default "" (g <$> annsA !! Z.to_nat (aIndex m)))
                         (default "" (g <$> annsB !! Z.to_nat (bIndex m)))) fb) acc)
    as Hsum.
  { intros g score acc. rewrite <- fold_left_sum. apply fold_left_ext_in.
    intros b m Hm. rewrite Forall_forall in Hok.
    destruct (Hok m Hm) as (? & ? & _). by rewrite !fieldAt_nonneg by lia. }
  rewrite !Hsum.
  by destruct (length fb =? 0)%nat, (_ =? 0)%nat.
Qed.



(** The scenario of the specification: the two annotations are paired by
    the heuristic, and with both lists empty nothing is shared and no judge
    is called. *)
Example heuristic_scenario :
  heuristicComparison
    [sampleAnnotation "the gondola drifted" "adds invented detail"]
    [sampleAnnotation "the gondola drifted slowly" "invents an extra detail"]
  = mkComparison 1 0 0 1 "Quote overlap 100%, comment similarity 17%"
      (1000 # 1000) (167 # 1000).
Proof. vm_compute. reflexivity. Qed.

Example empty_lists_scenario :
  compareAnnotations obligingEnv [] [] freshWorld
  = (Returned (mkComparison 0 0 0 0 "" 0 0), [], freshWorld).
Proof. vm_compute. reflexivity. Qed.

(** ** The step parser *)

Section StepParserFacts.

Import StepParser.

(** *** Strings *)

Lemma str_app_cons c (s t : string) : String c s ++ t = String c (s ++ t).
Proof. reflexivity. Qed.

Lemma str_app_nil_r (s : string) : s ++ "" = s.
Proof. induction s as [|c s IH]; [done |]. by rewrite str_app_cons, IH. Qed.

Lemma str_app_assoc (s t u : string) : (s ++ t) ++ u = s ++ t ++ u.
Proof. induction s as [|c s IH]; [done |]. by rewrite !str_app_cons, IH. Qed.

Lemma visible_app (s t : string) : visible (s ++ t) = visible s ++ visible t.
Proof.
  unfold visible. induction s as [|c s IH]; [done |].
  rewrite str_app_cons. cbn [Js.filterChars]. destruct (negb _); [| done].
  by rewrite str_app_cons, IH.
Qed.

Lemma visible_trimStart (s : string) : visible (Js.trimStart s) = visible s.
Proof.
  unfold visible. induction s as [|c s IH]; [done |].
  cbn [Js.trimStart]. destruct (Js.isSpace c) eqn:E; [| done].
  cbn [Js.filterChars]. by rewrite E.
Qed.

Lemma trimEnd_empty (s : string) : Js.trimEnd s = "" -> visible s = "".
Proof.
  unfold visible. induction s as [|c s IH]; [done |].
  cbn [Js.trimEnd Js.filterChars].
  destruct (Js.trimEnd s); [| done].
  destruct (Js.isSpace c); [intros _; by apply IH | done].
Qed.

Lemma visible_trimEnd (s : string) : visible (Js.trimEnd s) = visible s.
Proof.
  induction s as [|c s IH]; [done |]. cbn [Js.trimEnd].
  destruct (Js.trimEnd s) as [|d r] eqn:Hr.
  - pose proof (trimEnd_empty s Hr) as Hs. unfold visible in *.
    destruct (Js.isSpace c) eqn:E; cbn [Js.filterChars]; rewrite E, Hs; done.
  - unfold visible in *. cbn [Js.filterChars] in *. by rewrite IH.
Qed.

Lemma visible_trim (s : string) : visible (Js.trim s) = visible s.
Proof. unfold Js.trim. by rewrite visible_trimEnd, visible_trimStart. Qed.

Lemma blank_visible (s : string) : nonBlank s = false -> visible s = "".
Proof.
  unfold nonBlank. intros H. apply truthy_false in H.
  by rewrite <- visible_trim, H.
Qed.

Lemma visible_nonempty_trim (s : string) : visible s <> "" -> Js.trim s <> "".
Proof. intros H Ht. apply H. by rewrite <- visible_trim, Ht. Qed.

Lemma contentOf_snoc segs seg :
  contentOf (segs ++ [seg]) = contentOf segs ++ thought seg ++ text seg.
Proof.
  unfold contentOf. induction segs as [|x segs IH]; cbn [fold_right app].
  - by rewrite str_app_nil_r.
  - by rewrite IH, !str_app_assoc.
Qed.

(** *** The state machine on opening tags *)

Lemma flushSegment_content (p : Parser) :
  visible (contentOf (segments (flushSegment p)))
  = visible (contentOf (segments p) ++ currentThought p ++ currentText p).
Proof.
  unfold flushSegment. cbn [segments].
  fold (nonBlank (currentThought p)). fold (nonBlank (currentText p)).
  destruct (nonBlank (currentThought p)) eqn:Ht; cbn [orb].
  - rewrite contentOf_snoc. cbn [thought text].
    by rewrite !visible_app, !visible_trim.
  - destruct (nonBlank (currentText p)) eqn:Hx.
    + rewrite contentOf_snoc. cbn [thought text].
      by rewrite !visible_app, !visible_trim.
    + by rewrite !visible_app, (blank_visible _ Ht), (blank_visible _ Hx), !str_app_nil_r.
Qed.

Lemma absorb_keeps (p : Parser) (kept chunk : string) :
  keeps p kept -> keeps (absorb p chunk) (kept ++ chunk).
Proof.
  intros (Hc & Hr & Hx & Ht). unfold absorb, keeps.
  destruct (readingThought p) eqn:Rt.
  - cbn [segments currentThought currentText readingThought readingText].
    rewrite Ht by auto. rewrite Ht in Hc by auto.
    rewrite !str_app_nil_r in *. rewrite <- str_app_assoc, visible_app, Hc, <- visible_app.
    auto.
  - destruct (readingText p) eqn:Rx; [| done].
    cbn [segments currentThought currentText readingThought readingText].
    rewrite <- !str_app_assoc, visible_app, !str_app_assoc, Hc, <- visible_app.
    by repeat split.
Qed.

Lemma flushed_keeps (p : Parser) (kept : string) (rThought rText : bool) :
  visible (contentOf (segments p) ++ currentThought p ++ currentText p)
  = visible kept ->
  rThought || rText = true ->
  (rThought = true -> rText = false) ->
  keeps (setReading (flushSegment p) rThought rText) kept.
Proof.
  intros Hc Hr Hx. unfold keeps, setReading.
  cbn [segments currentThought currentText readingThought readingText].
  change (currentThought (flushSegment p)) with "".
  change (currentText (flushSegment p)) with "".
  by rewrite !str_app_nil_r, flushSegment_content.
Qed.

Lemma reading_keeps (p : Parser) (kept : string) (rThought rText : bool) :
  visible (contentOf (segments p) ++ currentThought p ++ currentText p)
  = visible kept ->
  rThought || rText = true ->
  (rThought = true -> rText = false) ->
  (rText = false -> currentText p = "") ->
  keeps (setReading p rThought rText) kept.
Proof. intros. unfold keeps, setReading. by cbn. Qed.

Lemma onTag_opening_keeps (p : Parser) (kept : string) (tag : Tag) :
  isClosing tag = false ->
  keeps p kept \/ (p = initial /\ kept = "") ->
  keeps (onTag p tag) kept.
Proof.
  intros Hopen Hp. unfold onTag. rewrite Hopen.
  assert (visible (contentOf (segments p) ++ currentThought p ++ currentText p)
          = visible kept
          /\ (readingThought p = true -> readingText p = false)
          /\ (readingText p = false -> currentText p = "")) as (Hc & Hx & Ht).
  { destruct Hp as [(? & _ & ? & ?) | [-> ->]]; [done |]. by repeat split. }
  clear Hp. destruct (tagName tag).
  - (* [[THOUGHT]] *)
    destruct (readingText p) eqn:Rx; cbn [orb].
    + by apply flushed_keeps.
    + rewrite (Ht eq_refl). change (nonBlank "") with false. cbn iota.
      apply reading_keeps; auto.
  - (* [[TEXT]] *)
    destruct (readingText p) eqn:Rx; cbn [andb].
    + assert (readingThought p = false) as Rt.
      { destruct (readingThought p); [by specialize (Hx eq_refl) | done]. }
      destruct (nonBlank (currentThought p) || nonBlank (currentText p)).
      * change (readingThought (flushSegment p)) with false. cbn [andb].
        by apply (flushed_keeps p kept false true).
      * rewrite Rt. cbn [andb]. rewrite Rt. by apply reading_keeps.
    + rewrite (Ht eq_refl). change (nonBlank "") with false. cbn [negb].
      rewrite andb_true_r.
      destruct (readingThought p) eqn:Rt.
      * change (readingThought (setReading p false false)) with false.
        apply (reading_keeps (setReading p false false)); done.
      * rewrite ?Rt. by apply reading_keeps.
Qed.

Lemma loop_keeps (items : list (string * Tag)) (p : Parser) (kept : string) :
  openingOnly items ->
  keeps p kept ->
  keeps (fold_left onMatch items p)
    (kept ++ fold_right (fun it acc => fst it ++ acc) "" items).
Proof.
  revert p kept. induction items as [|[chunk tag] items IH]; intros p kept Hopen Hp.
  - cbn [fold_left fold_right]. by rewrite str_app_nil_r.
  - inversion Hopen as [|? ? Htag Hrest]; subst. cbn [fold_left fold_right fst].
    rewrite <- str_app_assoc. apply IH; [done |].
    unfold onMatch. cbn [fst snd].
    apply onTag_opening_keeps; [done | left]. by apply absorb_keeps.
Qed.

Lemma fold_right_remainder (items : list (string * Tag)) (remainder : string) :
  fold_right (fun it acc => fst it ++ acc) remainder items
  = fold_right (fun it acc => fst it ++ acc) "" items ++ remainder.
Proof.
  induction items as [|it items IH]; [done |].
  cbn [fold_right]. by rewrite IH, str_app_assoc.
Qed.

(** With opening tags only, what is recovered is what follows the first
    tag, up to white space. *)
Lemma recovered_opening (items : list (string * Tag)) (remainder : string) :
  items <> [] ->
  openingOnly items ->
  visible (contentOf (recovered items remainder))
  = visible (afterFirstTag items remainder).
Proof.
  destruct items as [|[chunk tag] items]; [done |]. intros _ Hopen.
  inversion Hopen as [|? ? Htag Hrest]; subst.
  unfold recovered, afterFirstTag. cbn [fold_left].
  assert (keeps (onMatch initial (chunk, tag)) "") as Hfirst.
  { unfold onMatch. cbn [fst snd absorb initial readingThought readingText].
    apply onTag_opening_keeps; [done | by right]. }
  pose proof (loop_keeps items _ _ Hrest Hfirst) as Hloop.
  apply (absorb_keeps _ _ remainder) in Hloop.
  rewrite fold_right_remainder.
  set (p := absorb _ remainder) in *. destruct Hloop as (Hc & _).
  change ("" ++ ?x) with x in Hc. rewrite <- Hc.
  destruct (nonBlank (currentThought p) || nonBlank (currentText p)) eqn:Hnb.
  - apply flushSegment_content.
  - apply orb_false_iff in Hnb as [Ht Hx].
    by rewrite !visible_app, (blank_visible _ Ht), (blank_visible _ Hx), !str_app_nil_r.
Qed.

(** *** Texts without a closing bracket *)

Lemma eqCI_bracket (c : ascii) : Js.eqCI "]" c = true -> c = "]"%char.
Proof.
  unfold Js.eqCI. intros H. apply Ascii.eqb_eq in H. revert H.
  destruct c as [[] [] [] [] [] [] [] []]; vm_compute; congruence.
Qed.

Lemma mentions_trimStart c (s : string) :
  mentions c (Js.trimStart s) = true -> mentions c s = true.
Proof.
  induction s as [|d s IH]; [done |]. cbn [Js.trimStart mentions].
  destruct (Js.isSpace d); [| done]. intros H. rewrite IH by done. apply orb_true_r.
Qed.

(** If a literal that contains ["]"] matches, or what follows a match
    contains one, the subject contains one. *)
Lemma matchLit_mentions (lit s rest : string) :
  matchLit lit s = Some rest ->
  mentions "]" lit = true \/ mentions "]" rest = true ->
  mentions "]" s = true.
Proof.
  revert s. induction lit as [|p lit IH]; intros s; cbn [matchLit mentions].
  - intros [= ->] [|]; done.
  - destruct s as [|c s]; [done |].
    destruct (Js.eqCI p c) eqn:Hpc; [| done]. intros Hm Hor. cbn [mentions].
    destruct (Ascii.eqb_spec "]" p) as [<-|Hne].
    + apply eqCI_bracket in Hpc as ->. done.
    + cbn [orb] in Hor. rewrite (IH s Hm Hor). apply orb_true_r.
Qed.

Lemma afterSpaces_mentions (lit s rest : string) :
  mentions "]" lit = true -> afterSpaces lit s = Some rest ->
  mentions "]" s = true.
Proof.
  unfold afterSpaces. intros Hlit Hm. apply mentions_trimStart.
  eapply matchLit_mentions; eauto.
Qed.

Lemma matchLoose_plain (lit : string) (atStart : bool) (s : string) :
  mentions "]" lit = true -> mentions "]" s = false ->
  matchLoose lit atStart s = None.
Proof.
  intros Hlit Hs. unfold matchLoose.
  assert (afterSpaces lit s = None) as Hnone.
  { destruct (afterSpaces lit s) eqn:H; [| done].
    apply afterSpaces_mentions in H; congruence. }
  rewrite Hnone. replace (if atStart then None else None) with (@None string)
    by by destruct atStart.
  destruct s as [|c s]; [done |]. destruct (Ascii.eqb c "["); [done |].
  cbn [mentions] in Hs. apply orb_false_iff in Hs as [_ Hs].
  destruct (afterSpaces lit s) eqn:H; [| done].
  apply afterSpaces_mentions in H; congruence.
Qed.

Lemma replaceLoose_plain (lit tag : string) (fuel : nat) (atStart : bool) (s : string) :
  mentions "]" lit = true -> mentions "]" s = false ->
  replaceLoose lit tag fuel atStart s = s.
Proof.
  intros Hlit. revert atStart s. induction fuel as [|fuel IH]; intros atStart s Hs;
    [done |].
  cbn [replaceLoose]. rewrite matchLoose_plain by done.
  destruct s as [|c s]; [done |].
  cbn [mentions] in Hs. apply orb_false_iff in Hs as [_ Hs]. by rewrite IH.
Qed.

Lemma normalizeStepTags_plain (s : string) :
  mentions "]" s = false -> normalizeStepTags s = s.
Proof.
  intros Hs. unfold normalizeStepTags, ensureBracket.
  rewrite (replaceLoose_plain "THOUGHT]]") by done.
  rewrite (replaceLoose_plain "/THOUGHT]]") by done.
  rewrite (replaceLoose_plain "TEXT]]") by done.
  by rewrite (replaceLoose_plain "/TEXT]]").
Qed.

Lemma matchTag_mentions (s : string) (tag : Tag) (rest : string) :
  matchTag s = Some (tag, rest) -> mentions "]" s = true.
Proof.
  unfold matchTag. destruct (matchLit "[[" s) as [s1|] eqn:H1; [| done].
  intros H. eapply matchLit_mentions; [exact H1 | right].
  apply mentions_trimStart.
  assert (forall closing s3,
            (let s4 := Js.trimStart s3 in
             let named :=
               match matchLit "THOUGHT" s4 with
               | Some s5 => Some (THOUGHT, s5)
               | None => match matchLit "TEXT" s4 with
                         | Some s5 => Some (TEXT, s5)
                         | None => None
                         end
               end in
             match named with
             | None => None
             | Some (name, s5) =>
                 match matchLit "]]" (Js.trimStart s5) with
                 | Some rest => Some (mkTag closing name, rest)
                 | None => None
                 end
             end) = Some (tag, rest) -> mentions "]" s3 = true) as Htail.
  { intros closing s3. cbn zeta.
    destruct (matchLit "THOUGHT" (Js.trimStart s3)) as [s5|] eqn:Ha;
      [| destruct (matchLit "TEXT" (Js.trimStart s3)) as [s5|] eqn:Hb; [| done]];
      (destruct (matchLit "]]" (Js.trimStart s5)) eqn:Hc; [| done]; intros _;
       apply mentions_trimStart;
       eapply matchLit_mentions; [eassumption | right];
       apply mentions_trimStart;
       eapply matchLit_mentions; [exact Hc | by left]). }
  destruct (Js.trimStart s1) as [|c r]; [by apply (Htail false "") |].
  destruct (Ascii.eqb c "/").
  - cbn [mentions]. rewrite (Htail true r H). apply orb_true_r.
  - by apply (Htail false (String c r)).
Qed.

Lemma scanTags_plain (fuel : nat) (chunk s : string) :
  mentions "]" s = false -> scanTags fuel chunk s = ([], chunk ++ s).
Proof.
  revert chunk s. induction fuel as [|fuel IH]; intros chunk s Hs; [done |].
  cbn [scanTags].
  destruct (matchTag s) as [[tag rest]|] eqn:Hm.
  { apply matchTag_mentions in Hm. congruence. }
  destruct s as [|c s]; [by rewrite str_app_nil_r |].
  cbn [mentions] in Hs. apply orb_false_iff in Hs as [_ Hs].
  rewrite IH by done. by rewrite str_app_assoc.
Qed.

(** When no tag is found, the remainder is the whole text. *)
Lemma scanTags_none (fuel : nat) (chunk s remainder : string) :
  scanTags fuel chunk s = ([], remainder) -> remainder = chunk ++ s.
Proof.
  revert chunk s. induction fuel as [|fuel IH]; intros chunk s; cbn [scanTags].
  - by intros [= <-].
  - destruct (matchTag s) as [[tag rest]|].
    + by destruct (scanTags fuel "" rest).
    + destruct s as [|c s]; [intros [= <-]; by rewrite str_app_nil_r |].
      intros H. apply IH in H. by rewrite str_app_assoc in H.
Qed.

Lemma recovered_nothing (remainder : string) : recovered [] remainder = [].
Proof. reflexivity. Qed.

(** C8 (as amended): (a) an output without any closing bracket, hence
    without a recognisable tag, comes back as one segment with an empty
    thought and the whole trimmed output as its text; (b) when no closing
    tag is recognised (they are all missing), every visible character that
    follows the first opening tag is kept, in order, in the recovered
    thoughts and texts, while what precedes the first tag is dropped;
    (c) when nothing is recovered from a non-blank output, the result is
    one segment with an empty thought whose text is the whole trimmed output
    after tag normalisation. *)
Theorem parseStepByStepSegments_recovery (input : string) :
  (mentions "]" input = false -> Js.trim input <> "" ->
   parseStepByStepSegments input = [mkSegment "" (Js.trim input)])
  /\ (forall items remainder,
        tagMatches (normalizeStepTags input) = (items, remainder) ->
        (openingOnly items ->
         visible (afterFirstTag items remainder) <> "" ->
         visible (contentOf (parseStepByStepSegments input))
         = visible (afterFirstTag items remainder))
        /\ (recovered items remainder = [] ->
            Js.trim (normalizeStepTags input) <> "" ->
            parseStepByStepSegments input
            = [mkSegment "" (Js.trim (normalizeStepTags input))])).
Proof.
  assert (forall s, s <> "" -> Js.truthy s = true) as Htruthy.
  { intros [|c s] H; done. }
  split.
  - intros Hplain Hnonblank. unfold parseStepByStepSegments.
    rewrite normalizeStepTags_plain by done. unfold tagMatches.
    rewrite scanTags_plain by done. rewrite recovered_nothing.
    cbn [length Nat.eqb andb]. by rewrite Htruthy.
  - intros items remainder Hitems. unfold parseStepByStepSegments.
    rewrite Hitems. split.
    + intros Hopen Hkept. destruct items as [|it items].
      * apply scanTags_none in Hitems. change ("" ++ ?x) with x in Hitems.
        subst remainder. cbn [afterFirstTag] in *. rewrite recovered_nothing.
        cbn [length Nat.eqb andb].
        rewrite Htruthy by by apply visible_nonempty_trim.
        unfold contentOf. cbn [fold_right thought text].
        change ("" ++ ?x) with x. by rewrite str_app_nil_r, visible_trim.
      * pose proof (recovered_opening (it :: items) remainder
                      ltac:(done) Hopen) as Hrec.
        destruct (recovered (it :: items) remainder) as [|seg segs] eqn:Hsegs.
        -- rewrite <- Hrec in Hkept. done.
        -- by cbn [length Nat.eqb andb].
    + intros -> Hnonblank. cbn [length Nat.eqb andb]. by rewrite Htruthy.
Qed.

Lemma parseStepByStepSegments_recovery_witness :
  visible (contentOf (parseStepByStepSegments
                        "[[THOUGHT]] plan the scene [[TEXT]] The gondola drifted."))
  = "planthesceneThegondoladrifted.".
Proof.
  apply (proj1 (proj2 (parseStepByStepSegments_recovery
                         "[[THOUGHT]] plan the scene [[TEXT]] The gondola drifted.")
                 [("", mkTag false THOUGHT); (" plan the scene ", mkTag false TEXT)]
                 " The gondola drifted." eq_refl)).
  - repeat constructor.
  - discriminate.
Defined.

(** C8 as stated fails.  With the closing tag missing, the text before the
    first tag is lost; and an output from which nothing is recovered comes
    back with its tags rewritten, not as the trimmed input. *)
Lemma parseStepByStepSegments_loses_preamble :
  parseStepByStepSegments "Preface. [[TEXT]] The gondola drifted."
  = [mkSegment "" "The gondola drifted."]
  /\ ~ substringOf "Preface."
        (contentOf (parseStepByStepSegments "Preface. [[TEXT]] The gondola drifted."))
  /\ parseStepByStepSegments "foo THOUGHT]]" = [mkSegment "" "foo[[THOUGHT]]"]
  /\ Js.trim "foo THOUGHT]]" = "foo THOUGHT]]".
Proof.
  split; [reflexivity |]. split; [| split; reflexivity].
  intros H. apply includes_spec in H. vm_compute in H. discriminate.
Qed.

(** The normaliser also rewrites well-formed closing tags: [/THOUGHT]]]
    matches the pattern for a bracket-less [THOUGHT]]] with prefix [/], so
    that a closing tag becomes the text [[[/] followed by an opening tag. *)
Example closing_tags_are_rewritten :
  normalizeStepTags "[[THOUGHT]]a[[/THOUGHT]][[TEXT]]b[[/TEXT]]"
  = "[[THOUGHT]]a[[/[[THOUGHT]][[TEXT]]b[[/[[TEXT]]"
  /\ parseStepByStepSegments "[[THOUGHT]]a[[/THOUGHT]][[TEXT]]b[[/TEXT]]"
     = [mkSegment "a[[/" "b[[/"].
Proof. split; reflexivity. Qed.

End StepParserFacts.

(** *** The fuel of the two scanners

    Both scanners are given the length of their subject as fuel.  A match
    is never empty, so that is enough: more fuel changes nothing. *)

Section Fuel.

Import StepParser.

Lemma trimStart_length (s : string) :
  (String.length (Js.trimStart s) <= String.length s)%nat.
Proof.
  induction s as [|c s IH]; [done |]. cbn [Js.trimStart].
  destruct (Js.isSpace c); cbn [String.length]; lia.
Qed.

Lemma matchLit_length (lit s rest : string) :
  matchLit lit s = Some rest ->
  String.length s = (String.length lit + String.length rest)%nat.
Proof.
  revert s. induction lit as [|p lit IH]; intros s; cbn [matchLit].
  - by intros [= ->].
  - destruct s as [|c s]; [done |]. destruct (Js.eqCI p c); [| done].
    intros H. apply IH in H. cbn [String.length]. lia.
Qed.

Lemma matchLoose_shorter (lit : string) (atStart : bool) (s prefix rest : string) :
  lit <> "" -> matchLoose lit atStart s = Some (prefix, rest) ->
  (String.length rest < String.length s)%nat.
Proof.
  intros Hlit. unfold matchLoose.
  assert (forall t r, afterSpaces lit t = Some r ->
                      (String.length r < String.length t)%nat) as Hafter.
  { intros t r H. unfold afterSpaces in H. apply matchLit_length in H.
    pose proof (trimStart_length t). destruct lit; [done |].
    cbn [String.length] in H. lia. }
  destruct (if atStart then afterSpaces lit s else None) as [r|] eqn:Hfirst.
  - intros [= _ <-]. destruct atStart; [by apply Hafter | done].
  - destruct s as [|c s]; [done |]. destruct (Ascii.eqb c "["); [done |].
    destruct (afterSpaces lit s) as [r|] eqn:Hsecond; [| done].
    intros [= _ <-]. apply Hafter in Hsecond. cbn [String.length]. lia.
Qed.

Lemma replaceLoose_fuel (lit tag : string) (fuel1 fuel2 : nat) (atStart : bool)
    (s : string) :
  lit <> "" ->
  (String.length s <= fuel1)%nat -> (String.length s <= fuel2)%nat ->
  replaceLoose lit tag fuel1 atStart s = replaceLoose lit tag fuel2 atStart s.
Proof.
  intros Hlit. revert fuel2 atStart s.
  assert (forall b, matchLoose lit b "" = None) as Hempty.
  { intros b. unfold matchLoose, afterSpaces. cbn [Js.trimStart].
    destruct lit; [done |]. by destruct b. }
  induction fuel1 as [|fuel1 IH]; intros fuel2 atStart s H1 H2.
  - destruct s; [| cbn [String.length] in H1; lia].
    destruct fuel2; [done |]. cbn [replaceLoose]. by rewrite Hempty.
  - destruct fuel2 as [|fuel2].
    + destruct s; [| cbn [String.length] in H2; lia].
      cbn [replaceLoose]. by rewrite Hempty.
    + cbn [replaceLoose].
      destruct (matchLoose lit atStart s) as [[prefix rest]|] eqn:Hm.
      * apply matchLoose_shorter in Hm; [| done].
        rewrite (IH fuel2) by lia. done.
      * destruct s as [|c s]; [done |]. cbn [String.length] in *.
        rewrite (IH fuel2) by lia. done.
Qed.

Lemma matchTag_shorter (s : string) (tag : Tag) (rest : string) :
  matchTag s = Some (tag, rest) -> (String.length rest < String.length s)%nat.
Proof.
  unfold matchTag. destruct (matchLit "[[" s) as [s1|] eqn:H1; [| done].
  apply matchLit_length in H1. cbn [String.length] in H1.
  assert (forall closing s3,
            (let s4 := Js.trimStart s3 in
             let named :=
               match matchLit "THOUGHT" s4 with
               | Some s5 => Some (THOUGHT, s5)
               | None => match matchLit "TEXT" s4 with
                         | Some s5 => Some (TEXT, s5)
                         | None => None
                         end
               end in
             match named with
             | None => None
             | Some (name, s5) =>
                 match matchLit "]]" (Js.trimStart s5) with
                 | Some rest => Some (mkTag closing name, rest)
                 | None => None
                 end
             end) = Some (tag, rest) ->
            (String.length rest <= String.length s3)%nat) as Htail.
  { intros closing s3. cbn zeta. pose proof (trimStart_length s3).
    destruct (matchLit "THOUGHT" (Js.trimStart s3)) as [s5|] eqn:Ha;
      [| destruct (matchLit "TEXT" (Js.trimStart s3)) as [s5|] eqn:Hb; [| done]];
      (destruct (matchLit "]]" (Js.trimStart s5)) as [r|] eqn:Hc; [| done];
       intros [= _ <-]; pose proof (trimStart_length s5);
       apply matchLit_length in Hc;
       first [apply matchLit_length in Ha | apply matchLit_length in Hb]; lia). }
  pose proof (trimStart_length s1) as Htrim.
  destruct (Js.trimStart s1) as [|c r].
  - intros H. apply (Htail false "") in H. cbn [String.length] in *. lia.
  - destruct (Ascii.eqb c "/"); intros H.
    + apply (Htail true r) in H. cbn [String.length] in *. lia.
    + apply (Htail false (String c r)) in H. cbn [String.length] in *. lia.
Qed.

Lemma scanTags_fuel (fuel1 fuel2 : nat) (chunk s : string) :
  (String.length s <= fuel1)%nat -> (String.length s <= fuel2)%nat ->
  scanTags fuel1 chunk s = scanTags fuel2 chunk s.
Proof.
  revert fuel2 chunk s.
  induction fuel1 as [|fuel1 IH]; intros fuel2 chunk s H1 H2.
  - destruct s; [| cbn [String.length] in H1; lia].
    destruct fuel2; [done |]. cbn [scanTags matchTag matchLit].
    by rewrite str_app_nil_r.
  - destruct fuel2 as [|fuel2].
    + destruct s; [| cbn [String.length] in H2; lia].
      cbn [scanTags matchTag matchLit]. by rewrite str_app_nil_r.
    + cbn [scanTags]. destruct (matchTag s) as [[tag rest]|] eqn:Hm.
      * apply matchTag_shorter in Hm. by rewrite (IH fuel2) by lia.
      * destruct s as [|c s]; [done |]. cbn [String.length] in *.
        by rewrite (IH fuel2) by lia.
Qed.

End Fuel.

(** ** Reasoning about executions *)

Section Logic.

Context {S : Type} (step : S -> Event -> option S).

Lemma runFrom_app (s : S) (ev1 ev2 : list Event) :
  runFrom step s (ev1 ++ ev2)
  = match runFrom step s ev1 with
    | Some s1 => runFrom step s1 ev2
    | None => None
    end.
Proof.
  revert s. induction ev1 as [|e ev1 IH]; intros s; [done |].
  cbn [app runFrom]. by destruct (step s e).
Qed.

Lemma triple_ret {A} (s : S) (a : A) (Q : A -> S -> Prop) (R : S -> Prop) :
  Q a s -> triple step s (mret a) Q R.
Proof. intros H w. by exists s. Qed.

Lemma triple_throw {A} (s : S) (Q : A -> S -> Prop) (R : S -> Prop) :
  R s -> triple step s throw Q R.
Proof. intros H w. by exists s. Qed.

Lemma triple_emit (s s' : S) (e : Event) (Q : unit -> S -> Prop) (R : S -> Prop) :
  step s e = Some s' -> Q tt s' -> triple step s (emit e) Q R.
Proof. intros He H w. exists s'. cbn. by rewrite He. Qed.

Lemma triple_bind {A B} (s : S) (m : Exec A) (f : A -> Exec B)
    (Q1 : A -> S -> Prop) (R1 : S -> Prop) (Q : B -> S -> Prop) (R : S -> Prop) :
  triple step s m Q1 R1 ->
  (forall s1, R1 s1 -> R s1) ->
  (forall a s1, Q1 a s1 -> triple step s1 (f a) Q R) ->
  triple step s (m ≫= f) Q R.
Proof.
  intros Hm HR Hf w. destruct (Hm w) as (s1 & Hrun & Hpost).
  rewrite run_bind. unfold outcome, trace in *.
  destruct (m w) as [[[a|] ev1] w1]; cbn [fst snd] in *.
  - destruct (Hf a s1 Hpost w1) as (s2 & Hrun2 & Hpost2).
    unfold outcome, trace in *.
    destruct (f a w1) as [[r ev2] w2]; cbn [fst snd] in *.
    exists s2. by rewrite runFrom_app, Hrun.
  - exists s1. auto.
Qed.

Lemma triple_tryCatch {A} (s : S) (m handler : Exec A)
    (Q : A -> S -> Prop) (R1 R : S -> Prop) :
  triple step s m Q R1 ->
  (forall s1, R1 s1 -> triple step s1 handler Q R) ->
  triple step s (tryCatch m handler) Q R.
Proof.
  intros Hm Hh w. destruct (Hm w) as (s1 & Hrun & Hpost).
  unfold tryCatch, outcome, trace in *.
  destruct (m w) as [[[a|] ev1] w1]; cbn [fst snd] in *.
  - by exists s1.
  - destruct (Hh s1 Hpost w1) as (s2 & Hrun2 & Hpost2).
    unfold outcome, trace in *.
    destruct (handler w1) as [[r ev2] w2]; cbn [fst snd] in *.
    exists s2. by rewrite runFrom_app, Hrun.
Qed.

Lemma triple_conseq {A} (s : S) (m : Exec A)
    (Q1 Q : A -> S -> Prop) (R1 R : S -> Prop) :
  triple step s m Q1 R1 ->
  (forall a s', Q1 a s' -> Q a s') ->
  (forall s', R1 s' -> R s') ->
  triple step s m Q R.
Proof.
  intros Hm HQ HR w. destruct (Hm w) as (s' & Hrun & Hpost).
  exists s'. split; [done |]. destruct (outcome (m w)); auto.
Qed.

(** A loop keeps an invariant of its counter, its state and the observer. *)
Lemma triple_forRange {St} (I : nat -> St -> S -> Prop) (R : S -> Prop)
    (body : nat -> St -> Exec St) (count from : nat) (st : St) (s : S) :
  I from st s ->
  (forall i st s, (from <= i < from + count)%nat -> I i st s ->
                  triple step s (body i st) (fun st' s' => I (Datatypes.S i) st' s') R) ->
  triple step s (forRange count from body st)
    (fun st' s' => I (from + count)%nat st' s') R.
Proof.
  revert from st s.
  induction count as [|count IH]; intros from st s Hstart Hbody; cbn [forRange].
  - apply triple_ret. by rewrite Nat.add_0_r.
  - eapply triple_bind; [apply Hbody; [lia | done] | done |].
    intros st' s1 H1. cbn beta in H1.
    replace (from + Datatypes.S count)%nat with (Datatypes.S from + count)%nat by lia.
    apply IH; [done |]. intros i st0 s0 Hi. apply Hbody. lia.
Qed.

Lemma triple_randomUUID (s : S) (Q : nat -> S -> Prop) (R : S -> Prop) :
  (forall n, Q n s) -> triple step s randomUUID Q R.
Proof. intros H w. exists s. split; [done | apply H]. Qed.

End Logic.

(** ** What each function of the service shows to the observer *)

Ltac keep := exact (fun _ H => H).
Ltac never := intros ? [].

Section Specs.

Variable env : Env.

(** [Fail] stands for "some oracle call may reject": the specifications
    below hold for every oracle with [Fail := True], and for an oracle that
    always resolves with [Fail := False]. *)
Variable Fail : Prop.
Hypothesis rejection : forall n, generateContent env n = None -> Fail.

Lemma onLog_spec (s : Observed) (msg : string) (R : Observed -> Prop) :
  triple observe s (onLog msg) (fun _ s' => s' = s) R.
Proof.
  apply (triple_emit _ _ s); [| done]. unfold observe. by destruct (aborted s).
Qed.

Lemma onStatusChange_spec o d g runId status (R : Observed -> Prop) :
  triple observe (mkObserved o false d g) (onStatusChange runId status)
    (fun _ s' => s' = mkObserved o false d g) R.
Proof. by apply (triple_emit _ _ (mkObserved o false d g)). Qed.

Lemma onUpdateRun_spec o d g runId step (R : Observed -> Prop) :
  triple observe (mkObserved o false d g) (onUpdateRun runId step)
    (fun _ s' => s' = mkObserved o false (d ++ [(runId, step)]) g) R.
Proof. by eapply triple_emit. Qed.

Lemma stepDelay_spec o d g config (R : Observed -> Prop) :
  triple observe (mkObserved o false d g) (stepDelay config)
    (fun _ s' => s' = calm d g) R.
Proof. by eapply triple_emit. Qed.

Lemma callModel_spec purpose d g :
  triple observe (calm d g) (callModel env purpose)
    (fun _ s' => s' = afterCall purpose true (calm d g))
    (fun s' => Fail /\ s' = afterCall purpose false (calm d g)).
Proof.
  intros w. unfold callModel, outcome, trace.
  destruct (generateContent env (oracleCalls w)) eqn:E; cbn; eauto.
Qed.

Lemma generateNarrative_spec purpose method d g :
  triple observe (calm d g) (generateNarrative env purpose method)
    (fun _ s' => s' = afterCall purpose true (calm d g))
    (fun s' => Fail /\ s' = afterCall purpose false (calm d g)).
Proof.
  unfold generateNarrative.
  eapply triple_bind; [apply callModel_spec | keep |].
  intros response s1 ->. destruct method; by apply triple_ret.
Qed.

Lemma evaluateCoherence_spec d g :
  triple observe (calm d g) (evaluateCoherence env)
    (fun _ s' => s' = mkObserved true false d g) (fun _ => False).
Proof.
  unfold evaluateCoherence.
  apply triple_tryCatch with (R1 := fun s' => s' = mkObserved true false d g).
  - eapply triple_bind; [apply callModel_spec | by intros s1 [_ ->] |].
    intros response s1 ->.
    destruct (parseEvaluation env _); [by apply triple_ret | by apply triple_throw].
  - intros s1 ->. by apply triple_ret.
Qed.

Lemma materialize_spec (s : Observed) raw (R : Observed -> Prop) :
  triple observe s (materialize raw) (fun _ s' => s' = s) R.
Proof.
  induction raw as [|a raw IH]; cbn [materialize]; [by apply triple_ret |].
  eapply triple_bind; [apply triple_randomUUID with (Q := fun _ s' => s' = s); done | keep |].
  intros uuid s1 ->.
  eapply triple_bind; [apply IH | keep |].
  intros rest s1 ->. by apply triple_ret.
Qed.

Lemma runGenerationStep_spec config runId runLabel previousStep resources
    activeResourceIds methodOverride stepNumber iteration d g :
  triple observe (calm d g)
    (runGenerationStep env config runId runLabel previousStep resources
       activeResourceIds methodOverride stepNumber iteration)
    (fun doc s' => s' = calm d (S g) /\ parentId doc = id <$> previousStep)
    (abortedBy Fail).
Proof.
  unfold runGenerationStep.
  match goal with |- context [let '(_, _) := ?x in _] => destruct x as [method taskPrompt] end.
  eapply triple_bind; [apply onLog_spec | keep |]. intros _ s1 ->.
  eapply triple_bind; [apply generateNarrative_spec | by intros s1 [? ->] |].
  intros genResult s1 ->.
  eapply triple_bind; [apply stepDelay_spec | keep |]. intros _ s1 ->.
  eapply triple_bind; [apply onLog_spec | keep |]. intros _ s1 ->.
  eapply triple_bind; [apply evaluateCoherence_spec | never |].
  intros evalResult s1 ->.
  eapply triple_bind; [apply stepDelay_spec | keep |]. intros _ s1 ->.
  eapply triple_bind with (Q1 := fun _ s' => s' = calm d (S g))
                         (R1 := abortedBy Fail).
  { destruct (buildStepTokenUsage _ _ _ _ _); [apply onLog_spec | by apply triple_ret]. }
  { keep. }
  intros _ s1 ->.
  eapply triple_bind; [apply triple_randomUUID with (Q := fun _ s' => s' = calm d (S g)); done | keep |].
  intros uuid s1 ->.
  eapply triple_bind; [apply materialize_spec | keep |].
  intros anns s1 ->. by apply triple_ret.
Qed.

Lemma publishStep_spec runId stepNumber step cumulative d g (R : Observed -> Prop) :
  triple observe (calm d g) (publishStep runId stepNumber step cumulative)
    (fun _ s' => s' = calm (d ++ [(runId, step)]) g) R.
Proof.
  unfold publishStep.
  eapply triple_bind; [apply onUpdateRun_spec | keep |]. intros _ s1 ->.
  destruct (tokenUsage step); [| by apply triple_ret].
  eapply triple_bind; [apply onLog_spec | keep |]. intros _ s1 ->.
  by apply triple_ret.
Qed.

Lemma refineOnce_spec config runId runLabel resources activeResourceIds i
    currentStep cumulative d g :
  triple observe (calm d g)
    (refineOnce env config runId runLabel resources activeResourceIds i
       (currentStep, cumulative))
    (fun st' s' => s' = calm (d ++ [(runId, fst st')]) (S g)
                   /\ parentId (fst st') = Some (id currentStep))
    (abortedBy Fail).
Proof.
  unfold refineOnce.
  eapply triple_bind; [apply onLog_spec | keep |]. intros _ s1 ->.
  eapply triple_bind; [apply runGenerationStep_spec | keep |].
  intros currentStep' s1 [-> Hparent].
  eapply triple_bind; [apply publishStep_spec | keep |].
  intros cumulative' s1 ->. by apply triple_ret.
Qed.

Lemma linearChain_snoc (nodes : list DocumentVersion) (cur d : DocumentVersion) :
  linearChain nodes -> last nodes = Some cur -> parentId d = Some (id cur) ->
  linearChain (nodes ++ [d]).
Proof.
  intros Hchain Hlast Hparent i x y Hx Hy.
  rewrite last_lookup in Hlast.
  destruct (decide (S i < length nodes)%nat) as [Hlt|Hge].
  - rewrite lookup_app_l in Hx by lia. rewrite lookup_app_l in Hy by lia.
    by eapply Hchain.
  - apply lookup_lt_Some in Hy as Hlen. rewrite length_app in Hlen.
    cbn [length] in Hlen.
    assert (S i = length nodes) as Hi by lia.
    rewrite lookup_app_l in Hx by lia.
    rewrite lookup_app_r in Hy by lia.
    replace (S i - length nodes)%nat with 0%nat in Hy by lia.
    injection Hy as <-.
    replace (Init.Nat.pred (length nodes)) with i in Hlast by lia.
    rewrite Hlast in Hx. injection Hx as <-. done.
Qed.

Lemma executeRefinementLoop_spec config runId runLabel resources
    activeResourceIds d g :
  triple observe (calm d g)
    (executeRefinementLoop env config runId runLabel resources activeResourceIds)
    (fun _ s' =>
       exists seed rest,
         s' = calm (d ++ map (pair runId) (seed :: rest))
                (S g + Z.to_nat (iterations config))
         /\ parentId seed = None
         /\ length rest = Z.to_nat (iterations config)
         /\ linearChain (seed :: rest))
    (abortedBy Fail).
Proof.
  unfold executeRefinementLoop.
  eapply triple_bind; [apply runGenerationStep_spec | keep |].
  intros seed s1 [-> Hseed].
  eapply triple_bind; [apply publishStep_spec | keep |].
  intros cumulative s1 ->.
  eapply triple_bind.
  { apply triple_forRange with
      (I := fun i (st : DocumentVersion * TokenUsage) s =>
              exists rest,
                s = calm (d ++ map (pair runId) (seed :: rest)) (S g + i)
                /\ length rest = i
                /\ linearChain (seed :: rest)
                /\ last (seed :: rest) = Some (fst st)).
    - exists []. rewrite Nat.add_0_r. split; [done |]. split; [done |].
      split; [| done]. intros i x y Hx Hy. by destruct i.
    - intros i [cur cum] s _ (rest & -> & Hlen & Hchain & Hlast).
      eapply triple_conseq; [apply refineOnce_spec | | keep].
      intros [cur' cum'] s' [-> Hparent]. cbn [fst] in *.
      exists (rest ++ [cur'])%list. rewrite length_app, Hlen. cbn [length].
      split.
      { rewrite app_comm_cons, map_app, <- app_assoc. cbn [map].
        by rewrite Nat.add_succ_r. }
      split; [lia |]. split.
      + rewrite app_comm_cons. by eapply linearChain_snoc.
      + rewrite app_comm_cons. by rewrite last_snoc. }
  { keep. }
  intros st s1 (rest & -> & Hlen & Hchain & _). apply triple_ret.
  exists seed, rest. by rewrite Nat.add_0_l in *.
Qed.

Lemma executeStepByStep_spec config runId runLabel resources activeResourceIds d g :
  triple observe (calm d g)
    (executeStepByStep env config runId runLabel resources activeResourceIds)
    (fun _ s' => exists d' g', s' = calm d' g')
    (abortedBy Fail).
Proof.
  unfold executeStepByStep.
  eapply triple_bind; [apply onLog_spec | keep |]. intros _ s1 ->.
  eapply triple_bind; [apply runGenerationStep_spec | keep |].
  intros stepDoc s1 [-> _].
  eapply triple_bind; [apply onUpdateRun_spec | keep |]. intros _ s1 ->.
  destruct (tokenUsage stepDoc).
  - eapply triple_conseq; [apply onLog_spec | | keep]. intros _ s' ->. by eexists _, _.
  - apply triple_ret. by eexists _, _.
Qed.

(** *** The consistency protocols *)

Lemma highlightAnnotations_spec (s : Observed) raw (R : Observed -> Prop) :
  triple observe s (highlightAnnotations raw) (fun _ s' => s' = s) R.
Proof.
  induction raw as [|a raw IH]; cbn [highlightAnnotations]; [by apply triple_ret |].
  eapply triple_bind; [apply triple_randomUUID with (Q := fun _ s' => s' = s); done | keep |].
  intros uuid s1 ->.
  eapply triple_bind; [apply IH | keep |].
  intros rest s1 ->. by apply triple_ret.
Qed.

Lemma annotateOutputs_spec (s : Observed) annMap outputs (R : Observed -> Prop) :
  triple observe s (annotateOutputs annMap outputs)
    (fun outputs' s' => s' = s /\ Forall2 sameNode outputs outputs') R.
Proof.
  induction outputs as [|o outputs IH]; cbn [annotateOutputs].
  - apply triple_ret. by split.
  - eapply triple_bind; [apply highlightAnnotations_spec | keep |].
    intros anns s1 ->.
    eapply triple_bind; [apply IH | keep |].
    intros rest s1 [-> Hrest]. apply triple_ret. split; [done |].
    by constructor.
Qed.

Lemma sameNode_refl (outputs : list Output) : Forall2 sameNode outputs outputs.
Proof. induction outputs; by constructor. Qed.

Lemma highlightVariants_spec outputs d g :
  triple observe (calm d g) (highlightVariants env outputs)
    (fun outputs' s' => s' = calm d g /\ Forall2 sameNode outputs outputs')
    (fun _ => False).
Proof.
  unfold highlightVariants.
  apply triple_tryCatch with (R1 := fun s' => s' = calm d g).
  - eapply triple_bind; [apply generateNarrative_spec | by intros s1 [_ ->] |].
    intros result s1 ->.
    eapply triple_bind with (Q1 := fun _ s' => s' = calm d g)
                           (R1 := fun s' => s' = calm d g).
    { destruct (parseHighlights env _); [by apply triple_ret | apply onLog_spec]. }
    { keep. }
    intros _ s1 ->. apply annotateOutputs_spec.
  - intros s1 ->.
    eapply triple_bind; [apply onLog_spec | keep |]. intros _ s1 ->.
    apply triple_ret. split; [done | apply sameNode_refl].
Qed.

Lemma publishAll_spec outputs d g (R : Observed -> Prop) :
  triple observe (calm d g) (publishAll outputs)
    (fun _ s' => s' = calm (d ++ map (fun o => (out_runId o, doc o)) outputs) g) R.
Proof.
  revert d. induction outputs as [|o outputs IH]; intros d; cbn [publishAll map].
  - apply triple_ret. by rewrite app_nil_r.
  - eapply triple_bind; [apply onUpdateRun_spec | keep |]. intros _ s1 ->.
    eapply triple_conseq; [apply IH | | keep].
    intros _ s' ->. by rewrite <- app_assoc.
Qed.

Lemma matchAnnotationsWithGemini_spec annsA annsB d g :
  triple observe (calm d g) (matchAnnotationsWithGemini env annsA annsB)
    (fun _ s' => s' = calm d g) (fun _ => False).
Proof.
  unfold matchAnnotationsWithGemini.
  destruct (_ || _); [by apply triple_ret |].
  apply triple_tryCatch with (R1 := fun s' => s' = calm d g).
  - eapply triple_bind; [apply generateNarrative_spec | by intros s1 [_ ->] |].
    intros result s1 ->. by apply triple_ret.
  - intros s1 ->.
    eapply triple_bind; [apply onLog_spec | keep |]. intros _ s1 ->.
    by apply triple_ret.
Qed.

Lemma compareAnnotations_spec annsA annsB d g :
  triple observe (calm d g) (compareAnnotations env annsA annsB)
    (fun _ s' => s' = calm d g) (fun _ => False).
Proof.
  unfold compareAnnotations.
  eapply triple_bind; [apply matchAnnotationsWithGemini_spec | keep |].
  intros llmResult s1 ->. destruct (0 <? _)%nat; by apply triple_ret.
Qed.

Lemma comparePair_spec annotationOnly a b acc d g :
  triple observe (calm d g) (comparePair env annotationOnly a b acc)
    (fun acc' s' =>
       s' = calm d g
       /\ length (acc_textPairs acc')
          = (length (acc_textPairs acc) + if annotationOnly then 0 else 1)%nat)
    (fun _ => False).
Proof.
  unfold comparePair.
  match goal with |- context [let '(_, _) := ?x in _] =>
    destruct x as [textPairs' cache'] eqn:Hpairs end.
  eapply triple_bind; [apply compareAnnotations_spec | keep |].
  intros comparison s1 ->. apply triple_ret. split; [done |].
  cbn [acc_textPairs]. destruct annotationOnly; injection Hpairs as <- _.
  - lia.
  - by rewrite length_app.
Qed.

Lemma pairLoops_spec annotationOnly runs d g :
  triple observe (calm d g) (pairLoops env annotationOnly runs)
    (fun acc s' =>
       s' = calm d g
       /\ (2 * length (acc_textPairs acc)
           = if annotationOnly then 0 else length runs * (length runs - 1))%nat)
    (fun _ => False).
Proof.
  unfold pairLoops. set (n := length runs).
  eapply triple_conseq.
  - apply triple_forRange with
      (I := fun i acc s =>
              s = calm d g
              /\ (2 * length (acc_textPairs acc) + (if annotationOnly then 0 else i * (i + 1))
                  = if annotationOnly then 0 else 2 * i * n)%nat).
    + split; [done |]. cbn [acc_textPairs length]. destruct annotationOnly; lia.
    + intros i acc s Hi [-> Hcount].
      eapply triple_conseq.
      * apply triple_forRange with
          (I := fun j acc' s =>
                  s = calm d g
                  /\ (length (acc_textPairs acc') + (if annotationOnly then 0 else S i)
                      = length (acc_textPairs acc) + (if annotationOnly then 0 else j))%nat).
        -- split; [done |]. lia.
        -- intros j acc' s Hj [-> Hinner].
           destruct (lookup_lt_is_Some_2 runs i) as [a ->]; [fold n; lia |].
           destruct (lookup_lt_is_Some_2 runs j) as [b ->]; [fold n; lia |].
           eapply triple_conseq; [apply comparePair_spec | | keep].
           intros acc'' s' [-> Hlen]. split; [done |].
           rewrite Hlen. destruct annotationOnly; lia.
      * intros acc' s' [-> Hinner]. split; [done |].
        destruct annotationOnly; [lia |]. nia.
      * keep.
  - intros acc s' [-> Hcount]. split; [done |].
    destruct annotationOnly; [lia |]. cbn [Nat.add] in Hcount. nia.
  - keep.
Qed.

Lemma buildConsistencyReport_spec runs baseline annotationOnly d g :
  triple observe (calm d g) (buildConsistencyReport env runs baseline annotationOnly)
    (fun report s' =>
       s' = calm d g
       /\ (2 * length (textPairs report)
           = if annotationOnly then 0 else length runs * (length runs - 1))%nat)
    (fun _ => False).
Proof.
  unfold buildConsistencyReport.
  eapply triple_bind; [apply pairLoops_spec | keep |].
  intros acc s1 [-> Hcount]. by apply triple_ret.
Qed.

Lemma generateConsistencyCommentary_spec report d g :
  triple observe (calm d g) (generateConsistencyCommentary env report)
    (fun _ s' => s' = calm d g) (fun _ => False).
Proof.
  unfold generateConsistencyCommentary.
  destruct (_ && _); [by apply triple_ret |].
  apply triple_tryCatch with (R1 := fun s' => s' = calm d g).
  - eapply triple_bind; [apply generateNarrative_spec | by intros s1 [_ ->] |].
    intros result s1 ->.
    eapply triple_bind; [apply onLog_spec | keep |]. intros _ s1 ->.
    by apply triple_ret.
  - intros s1 ->.
    eapply triple_bind; [apply onLog_spec | keep |]. intros _ s1 ->.
    by apply triple_ret.
Qed.

Lemma finishReport_spec report d g :
  triple observe (calm d g) (finishReport env report)
    (fun r s' => s' = calm d g /\ exists c, r = Some (setCommentary report c))
    (fun _ => False).
Proof.
  unfold finishReport.
  eapply triple_bind; [apply generateConsistencyCommentary_spec | keep |].
  intros c s1 ->.
  eapply triple_bind; [apply onLog_spec | keep |]. intros _ s1 ->.
  eapply triple_bind; [apply onLog_spec | keep |]. intros _ s1 ->.
  apply triple_ret. eauto.
Qed.

Lemma annotationPass_spec config baseDoc i outputs d g :
  triple observe (calm d g) (annotationPass env config baseDoc i outputs)
    (fun outputs' s' =>
       exists runId annDoc,
         outputs' = (outputs ++ [mkOutput (variantLabel i) runId annDoc])%list
         /\ s' = calm (d ++ [(runId, annDoc)]) g
         /\ variantOf baseDoc (runId, annDoc))
    (fun _ => False).
Proof.
  unfold annotationPass.
  eapply triple_bind; [apply onStatusChange_spec | keep |]. intros _ s1 ->.
  eapply triple_bind; [apply onLog_spec | keep |]. intros _ s1 ->.
  eapply triple_bind; [apply evaluateCoherence_spec | keep |].
  intros evalResult s1 ->.
  eapply triple_bind;
    [apply triple_randomUUID with (Q := fun _ s' => s' = mkObserved true false d g); done
    | keep |].
  intros uuid s1 ->.
  eapply triple_bind; [apply materialize_spec | keep |]. intros anns s1 ->.
  eapply triple_bind; [apply onUpdateRun_spec | keep |]. intros _ s1 ->.
  eapply triple_bind; [apply onStatusChange_spec | keep |]. intros _ s1 ->.
  eapply triple_bind; [apply stepDelay_spec | keep |]. intros _ s1 ->.
  apply triple_ret. eexists _, _. by repeat split.
Qed.

Lemma annotationRounds_spec config baseDoc d g :
  triple observe (calm d g) (annotationRounds env config baseDoc)
    (fun r s' =>
       exists report variants,
         r = Some report
         /\ s' = calm (d ++ variants) g
         /\ length variants = Z.to_nat (variantCount config)
         /\ Forall (variantOf baseDoc) variants)
    (fun _ => False).
Proof.
  unfold annotationRounds.
  eapply triple_bind.
  { apply triple_forRange with
      (I := fun i (outputs : list Output) s =>
              exists variants,
                s = calm (d ++ variants) g
                /\ length variants = i
                /\ Forall (variantOf baseDoc) variants).
    - exists []. by rewrite app_nil_r.
    - intros i outputs s _ (variants & -> & Hlen & Hall).
      eapply triple_conseq; [apply annotationPass_spec | | keep].
      intros outputs' s' (runId & annDoc & _ & -> & Hvar).
      exists (variants ++ [(runId, annDoc)])%list.
      rewrite <- app_assoc, length_app, Hlen. cbn [length].
      split; [done |]. split; [lia |].
      apply Forall_app. split; [done |]. by apply Forall_singleton. }
  { keep. }
  intros outputs s1 (variants & -> & Hlen & Hall).
  eapply triple_bind; [apply buildConsistencyReport_spec | keep |].
  intros report s1 [-> _].
  eapply triple_conseq; [apply finishReport_spec | | keep].
  intros r s' [-> [c ->]]. by eexists _, variants.
Qed.

Lemma generateBase_spec config resources d g :
  triple observe (calm d g) (generateBase env config resources)
    (fun baseDoc s' => s' = calm d (S g) /\ parentId baseDoc = None)
    (abortedBy Fail).
Proof. apply runGenerationStep_spec. Qed.

Lemma annotationConsistency_spec config resources d g :
  triple observe (calm d g) (annotationConsistency env config resources)
    (fun r s' =>
       exists report baseDoc variants,
         r = Some report
         /\ s' = calm (d ++ variants) (S g)
         /\ parentId baseDoc = None
         /\ length variants = Z.to_nat (variantCount config)
         /\ Forall (variantOf baseDoc) variants)
    (abortedBy Fail).
Proof.
  unfold annotationConsistency.
  eapply triple_bind; [apply onStatusChange_spec | keep |]. intros _ s1 ->.
  eapply triple_bind; [apply onLog_spec | keep |]. intros _ s1 ->.
  eapply triple_bind; [apply generateBase_spec | keep |].
  intros baseDoc s1 [-> Hbase].
  eapply triple_conseq; [apply annotationRounds_spec | | never].
  intros r s' (report & variants & -> & -> & Hlen & Hall).
  by eexists report, baseDoc, variants.
Qed.

Lemma textVariant_spec config resources i outputs d g :
  triple observe (calm d g) (textVariant env config resources i outputs)
    (fun outputs' s' =>
       exists o,
         outputs' = (outputs ++ [o])%list
         /\ s' = calm d (S g)
         /\ out_runId o = variantRunId env i
         /\ parentId (doc o) = None)
    (abortedBy Fail).
Proof.
  unfold textVariant.
  eapply triple_bind; [apply onStatusChange_spec | keep |]. intros _ s1 ->.
  eapply triple_bind; [apply onLog_spec | keep |]. intros _ s1 ->.
  eapply triple_bind; [apply runGenerationStep_spec | keep |].
  intros doc s1 [-> Hparent].
  eapply triple_bind; [apply onStatusChange_spec | keep |]. intros _ s1 ->.
  eapply triple_bind; [apply stepDelay_spec | keep |]. intros _ s1 ->.
  apply triple_ret. by eexists.
Qed.

Lemma sameNode_published (outputs outputs' : list Output) :
  Forall2 sameNode outputs outputs' ->
  map fst (map (fun o => (out_runId o, doc o)) outputs') = map out_runId outputs
  /\ (Forall (fun o => parentId (doc o) = None) outputs ->
      Forall (fun v => parentId (snd v) = None)
        (map (fun o => (out_runId o, doc o)) outputs')).
Proof.
  induction 1 as [|o o' outputs outputs' (Hr & _ & Hp & _) _ [IH1 IH2]];
    [by split |].
  cbn [map fst snd]. rewrite IH1, Hr. split; [done |].
  intros Hall. inversion Hall; subst. constructor; [cbn; congruence | auto].
Qed.

Lemma textConsistency_spec config resources d g :
  triple observe (calm d g) (textConsistency env config resources)
    (fun r s' =>
       exists report variants,
         r = Some report
         /\ (2 * length (textPairs report)
             = Z.to_nat (variantCount config) * (Z.to_nat (variantCount config) - 1))%nat
         /\ s' = calm (d ++ variants) (g + Z.to_nat (variantCount config))
         /\ map fst variants
            = map (variantRunId env) (seq 0 (Z.to_nat (variantCount config)))
         /\ Forall (fun v => parentId (snd v) = None) variants)
    (abortedBy Fail).
Proof.
  unfold textConsistency.
  eapply triple_bind.
  { apply triple_forRange with
      (I := fun i (outputs : list Output) s =>
              s = calm d (g + i)
              /\ map out_runId outputs = map (variantRunId env) (seq 0 i)
              /\ Forall (fun o => parentId (doc o) = None) outputs).
    - by rewrite Nat.add_0_r.
    - intros i outputs s _ (-> & Hids & Hall).
      eapply triple_conseq; [apply textVariant_spec | | keep].
      intros outputs' s' (o & -> & -> & Hid & Hparent).
      rewrite Nat.add_succ_r. split; [done |]. split.
      + rewrite map_app, seq_S, map_app, Hids. cbn [map Nat.add]. by rewrite Hid.
      + apply Forall_app. split; [done |]. by apply Forall_singleton. }
  { keep. }
  cbn [Nat.add]. intros outputs s1 (-> & Hids & Hall).
  eapply triple_bind; [apply highlightVariants_spec | never |].
  intros outputs' s1 [-> Hsame].
  eapply triple_bind; [apply publishAll_spec | keep |]. intros _ s1 ->.
  eapply triple_bind; [apply buildConsistencyReport_spec | never |].
  intros report s1 [-> Hpairs].
  eapply triple_conseq; [apply finishReport_spec | | never].
  intros r s' [-> [c ->]].
  apply Forall2_length in Hsame as Hlen'.
  assert (length outputs = Z.to_nat (variantCount config)) as Hlen.
  { by rewrite <- (length_map out_runId), Hids, length_map, length_seq. }
  destruct (sameNode_published _ _ Hsame) as [Hfst Hnone].
  eexists _, _. split; [done |]. cbn [setCommentary textPairs].
  split; [by rewrite Hpairs, <- Hlen', Hlen |].
  split; [done |]. split; [by rewrite Hfst |]. by apply Hnone.
Qed.

(** *** The other protocols and the entry point *)

Lemma labelledRun_spec label banner i (runner : string -> string -> Exec unit) d g :
  (forall runId label d g,
      triple observe (calm d g) (runner runId label)
        (fun _ s' => exists d' g', s' = calm d' g') (abortedBy Fail)) ->
  triple observe (calm d g) (labelledRun env label banner i runner)
    (fun _ s' => exists d' g', s' = calm d' g') (abortedBy Fail).
Proof.
  intros Hrunner. unfold labelledRun.
  eapply triple_bind; [apply onStatusChange_spec | keep |]. intros _ s1 ->.
  eapply triple_bind with (Q1 := fun _ s' => s' = calm d g) (R1 := abortedBy Fail).
  { destruct (Js.truthy banner); [apply onLog_spec | by apply triple_ret]. }
  { keep. }
  intros _ s1 ->.
  eapply triple_bind; [apply Hrunner | keep |].
  intros _ s1 (d' & g' & ->).
  eapply triple_conseq; [apply onStatusChange_spec | | keep].
  intros _ s' ->. by eexists _, _.
Qed.

Lemma repetitions_spec config (body : nat -> Exec unit) d g :
  (forall i d g,
      triple observe (calm d g) (body i)
        (fun _ s' => exists d' g', s' = calm d' g') (abortedBy Fail)) ->
  triple observe (calm d g) (repetitions config body)
    (fun _ s' => exists d' g', s' = calm d' g') (abortedBy Fail).
Proof.
  intros Hbody. unfold repetitions.
  eapply triple_conseq.
  - apply triple_forRange with
      (I := fun (i : nat) (_ : unit) s => exists d' g', s = calm d' g').
    + by eexists _, _.
    + intros i [] s _ (d' & g' & ->). apply Hbody.
  - done.
  - keep.
Qed.

Lemma executeRefinementLoop_calm config runId runLabel resources
    activeResourceIds d g :
  triple observe (calm d g)
    (executeRefinementLoop env config runId runLabel resources activeResourceIds)
    (fun _ s' => exists d' g', s' = calm d' g') (abortedBy Fail).
Proof.
  eapply triple_conseq; [apply executeRefinementLoop_spec | | keep].
  intros _ s' (seed & rest & -> & _). by eexists _, _.
Qed.

(** A protocol either runs to its end, at rest, with a report if it is a
    consistency protocol and without one otherwise; or it stops at a
    rejected generation call. *)
Lemma protocol_spec config allResources d g :
  triple observe (calm d g) (protocol env config allResources)
    (fun r s' =>
       (exists d' g', s' = calm d' g')
       /\ (is_Some r <-> isConsistency (cfg_type config) = true))
    (abortedBy Fail).
Proof.
  unfold protocol.
  assert (forall m : Exec unit,
    triple observe (calm d g) m
      (fun _ s' => exists d' g', s' = calm d' g') (abortedBy Fail) ->
    triple observe (calm d g)
      (m ≫= fun _ => onLog "All protocols finished." ≫= fun _ => mret None)
      (fun (r : option ConsistencyReport) s' =>
         (exists d' g', s' = calm d' g') /\ (is_Some r <-> false = true))
      (abortedBy Fail)) as Hplain.
  { intros m Hm.
    eapply triple_bind; [apply Hm | keep |]. intros _ s1 (d' & g' & ->).
    eapply triple_bind; [apply onLog_spec | keep |]. intros _ s1 ->.
    apply triple_ret. split; [by eexists _, _ |].
    split; [by intros [? ?] | done]. }
  destruct (cfg_type config); cbn [isConsistency].
  - apply Hplain, repetitions_spec. intros i d0 g0.
    apply labelledRun_spec. intros. apply executeRefinementLoop_calm.
  - apply Hplain, repetitions_spec. intros i d0 g0.
    eapply triple_bind; [apply labelledRun_spec | keep |].
    { intros. apply executeStepByStep_spec. }
    intros _ s1 (d' & g' & ->).
    apply labelledRun_spec. intros. apply executeRefinementLoop_calm.
  - apply Hplain, repetitions_spec. intros i d0 g0.
    eapply triple_bind; [apply labelledRun_spec | keep |].
    { intros. apply executeRefinementLoop_calm. }
    intros _ s1 (d' & g' & ->).
    apply labelledRun_spec. intros. apply executeRefinementLoop_calm.
  - eapply triple_conseq; [apply textConsistency_spec | | keep].
    intros r s' (report & variants & -> & _ & -> & _).
    split; [by eexists _, _ | done].
  - eapply triple_conseq; [apply annotationConsistency_spec | | keep].
    intros r s' (report & baseDoc & variants & -> & -> & _).
    split; [by eexists _, _ | done].
  - apply Hplain, repetitions_spec. intros i d0 g0.
    apply labelledRun_spec. intros. apply executeRefinementLoop_calm.
Qed.

(** The entry point never throws: it returns what the protocol returns, or
    no report after a rejected generation call. *)
Lemma runExperimentLoop_spec config allResources d g :
  triple observe (calm d g) (runExperimentLoop env config allResources)
    (fun r s' =>
       ((exists d' g', s' = calm d' g')
        /\ (is_Some r <-> isConsistency (cfg_type config) = true))
       \/ (Fail /\ aborted s' = true /\ r = None))
    (fun _ => False).
Proof.
  unfold runExperimentLoop.
  apply triple_tryCatch with (R1 := abortedBy Fail).
  - eapply triple_conseq; [apply protocol_spec | | keep]. by left.
  - intros s1 [Hfail Haborted].
    eapply triple_bind; [apply onLog_spec | keep |]. intros _ s2 ->.
    apply triple_ret. by right.
Qed.

End Specs.

(** ** What an accepted trace looks like *)

Lemma published_app (ev1 ev2 : list Event) :
  published (ev1 ++ ev2) = (published ev1 ++ published ev2)%list.
Proof. unfold published. apply omap_app. Qed.

Lemma callCount_app (p : Purpose) (ev1 ev2 : list Event) :
  callCount p (ev1 ++ ev2) = (callCount p ev1 + callCount p ev2)%nat.
Proof. unfold callCount. by rewrite List.filter_app, length_app. Qed.

(** After a rejected generation call the observer accepts log lines only,
    and does not change. *)
Lemma observe_aborted (s s' : Observed) (ev : list Event) :
  aborted s = true -> runFrom observe s ev = Some s' ->
  s' = s /\ Forall isLog ev.
Proof.
  intros Hab. revert s'. induction ev as [|e ev IH]; intros s' Hrun.
  - by injection Hrun as <-.
  - cbn [runFrom] in Hrun. unfold observe in Hrun at 1. rewrite Hab in Hrun.
    destruct e; try done. destruct (IH _ Hrun) as [-> Hlogs].
    split; [done |]. by constructor.
Qed.

(** The observer's ledger is what the trace published and the number of
    generation calls it made. *)
Lemma observe_ledger (s s' : Observed) (ev : list Event) :
  runFrom observe s ev = Some s' ->
  docs s' = (docs s ++ published ev)%list
  /\ generations s' = (generations s + callCount Generation ev)%nat.
Proof.
  revert s. induction ev as [|e ev IH]; intros s Hrun.
  - injection Hrun as <-. by rewrite app_nil_r, Nat.add_0_r.
  - cbn [runFrom] in Hrun. destruct (observe s e) as [s1|] eqn:He; [| done].
    destruct (IH _ Hrun) as [Hd Hg]. rewrite Hd, Hg. clear IH Hrun Hd Hg.
    unfold observe in He. destruct (aborted s).
    + destruct e; try done. injection He as <-. done.
    + destruct e as [p ok| | | |].
      * destruct (owed s); [done |]. injection He as <-.
        unfold callCount. cbn [afterCall docs generations published omap List.filter].
        destruct p; cbn; split; try done; lia.
      * injection He as <-. done.
      * injection He as <-. cbn [docs generations published omap].
        unfold callCount. cbn [List.filter]. split; [| done].
        by rewrite <- app_assoc.
      * injection He as <-. done.
      * injection He as <-. done.
Qed.

(** An accepted trace respects the delays owed after generation and
    evaluation calls. *)
Lemma observe_paced (s s' : Observed) (ev : list Event) :
  runFrom observe s ev = Some s' ->
  delaysRespected needsDelay (owed s) ev = true.
Proof.
  revert s. induction ev as [|e ev IH]; intros s Hrun; [done |].
  cbn [runFrom] in Hrun. destruct (observe s e) as [s1|] eqn:He; [| done].
  specialize (IH _ Hrun). unfold observe in He. destruct (aborted s) eqn:Hab.
  - destruct e; try done. injection He as <-. done.
  - destruct e as [p ok| | | |]; cbn [delaysRespected].
    + destruct (owed s); [done |]. by injection He as <-.
    + by injection He as <-.
    + by injection He as <-.
    + by injection He as <-.
    + by injection He as <-.
Qed.

(** In an accepted trace, a rejected generation call is followed by log
    lines only, and leaves the observer aborted. *)
Lemma observe_abort_point (s s' : Observed) (pre post : list Event) :
  runFrom observe s (pre ++ OracleCall Generation false :: post) = Some s' ->
  aborted s' = true /\ Forall isLog post.
Proof.
  rewrite runFrom_app. destruct (runFrom observe s pre) as [s1|]; [| done].
  cbn [runFrom]. destruct (observe s1 (OracleCall Generation false)) as [s2|] eqn:He;
    [| done].
  intros Hrun. unfold observe in He. destruct (aborted s1); [done |].
  destruct (owed s1); [done |]. injection He as <-.
  destruct (observe_aborted (afterCall Generation false s1) s' post eq_refl Hrun)
    as [-> Hlogs]. done.
Qed.

(** An observer that ends aborted has seen a rejected generation call. *)
Lemma observe_abort_found (s s' : Observed) (ev : list Event) :
  aborted s = false -> runFrom observe s ev = Some s' -> aborted s' = true ->
  OracleCall Generation false ∈ ev.
Proof.
  revert s. induction ev as [|e ev IH]; intros s Hs Hev Hab.
  - injection Hev as <-. congruence.
  - cbn [runFrom] in Hev. destruct (observe s e) as [s1|] eqn:He; [| done].
    unfold observe in He. rewrite Hs in He.
    destruct e as [p ok| | | |].
    + destruct (owed s); [done |]. injection He as <-.
      destruct p, ok;
        try (apply list_elem_of_further; eapply IH; [| exact Hev | exact Hab];
             reflexivity).
      apply list_elem_of_here.
    + injection He as <-.
      apply list_elem_of_further; eapply IH; [| exact Hev | exact Hab]; reflexivity.
    + injection He as <-.
      apply list_elem_of_further; eapply IH; [| exact Hev | exact Hab]; reflexivity.
    + injection He as <-. apply list_elem_of_further, (IH _ Hs Hev Hab).
    + injection He as <-. apply list_elem_of_further, (IH _ Hs Hev Hab).
Qed.

Lemma published_logs (ev : list Event) : Forall isLog ev -> published ev = [].
Proof.
  induction 1 as [|e ev He _ IH]; [done |]. by destruct e.
Qed.

(** ** The protocols *)

Lemma obliging_never_fails (env : Env) :
  allResolve env -> forall n, generateContent env n = None -> False.
Proof. intros H n Hn. by apply (H n). Qed.



Lemma variantCount_clamped (config : ExperimentConfig) :
  2 <= variantCount config
  /\ (2 <= runCount config -> variantCount config = runCount config)
  /\ (runCount config < 2 -> variantCount config = 2).
Proof.
  unfold variantCount. destruct (Z.eqb_spec (runCount config) 0); lia.
Qed.



Lemma annotationConsistency_run (env : Env) (config : ExperimentConfig)
    (resources : list Resource) (w w1 : World) (baseDoc : DocumentVersion)
    (ev0 : list Event) :
  generateBase env config resources w = (Returned baseDoc, ev0, w1) ->
  annotationConsistency env config resources w
  = let '(r, ev, w2) := annotationRounds env config baseDoc w1 in
    (r,
     (StatusChanged (getRunIdByLabel env "Variant 1" 0) running
        :: LogLine "=== GENERATING BASE TEXT FOR ANNOTATION CONSISTENCY ==="
        :: ev0 ++ ev)%list,
     w2).
Proof.
  intros Hbase. unfold annotationConsistency.
  rewrite run_bind. unfold onStatusChange at 1, emit at 1. cbn beta iota.
  rewrite run_bind. unfold onLog at 1, emit at 1. cbn beta iota.
  rewrite run_bind, Hbase.
  by destruct (annotationRounds env config baseDoc w1) as [[r ev] w2].
Qed.








(** ** More on the lexical utilities *)

Section LexicalFacts.

Import Js.

Lemma lowerChar_idem (c : ascii) : lowerChar (lowerChar c) = lowerChar c.
Proof. by destruct c as [[] [] [] [] [] [] [] []]. Qed.

Lemma lowerChar_upperChar (c : ascii) : lowerChar (upperChar c) = lowerChar c.
Proof. by destruct c as [[] [] [] [] [] [] [] []]. Qed.

Lemma lowerChar_alnum (c : ascii) : isLowerAlnum c = true -> lowerChar c = c.
Proof. by destruct c as [[] [] [] [] [] [] [] []]. Qed.

Lemma toLowerCase_idem (s : string) : toLowerCase (toLowerCase s) = toLowerCase s.
Proof. induction s as [|c s IH]; cbn; [done |]. by rewrite lowerChar_idem, IH. Qed.

Lemma toLowerCase_toUpperCase (s : string) :
  toLowerCase (toUpperCase s) = toLowerCase s.
Proof. induction s as [|c s IH]; cbn; [done |]. by rewrite lowerChar_upperChar, IH. Qed.

Lemma allChars_app (p : ascii -> bool) (s t : string) :
  allChars p (s ++ t) = allChars p s && allChars p t.
Proof.
  induction s as [|c s IH]; [done |].
  rewrite str_app_cons. cbn [allChars]. by rewrite IH, andb_assoc.
Qed.

Lemma truthy_true (s : string) : truthy s = true <-> s <> "".
Proof. by destruct s. Qed.

(** The tokens cut out of a lower-cased text are tokens. *)
Lemma splitTokens_tokens (cur s : string) :
  allChars isLowerAlnum cur = true ->
  Forall isToken (splitTokens cur (toLowerCase s)).
Proof.
  revert cur. induction s as [|c s IH]; intros cur Hcur; cbn [toLowerCase splitTokens].
  - destruct cur; cbn [truthy]; [constructor |].
    by apply Forall_singleton.
  - rewrite lowerChar_idem.
    destruct (isLowerAlnum (lowerChar c)) eqn:Hc.
    + apply IH. rewrite allChars_app, Hcur. cbn [allChars]. by rewrite Hc.
    + apply Forall_app. split; [| by apply IH].
      destruct cur; cbn [truthy]; [constructor |]. by apply Forall_singleton.
Qed.

Lemma tokenize_tokens (text : string) : Forall isToken (tokenize text).
Proof. by apply splitTokens_tokens. Qed.

Lemma toLowerCase_token (t : string) :
  allChars isLowerAlnum t = true -> toLowerCase t = t.
Proof.
  induction t as [|c t IH]; cbn [allChars toLowerCase]; [done |].
  intros [Hc Ht]%andb_true_iff. by rewrite lowerChar_alnum, IH.
Qed.

Lemma toLowerCase_app (s t : string) :
  toLowerCase (s ++ t) = toLowerCase s ++ toLowerCase t.
Proof.
  induction s as [|c s IH]; [done |].
  rewrite str_app_cons. cbn [toLowerCase]. by rewrite IH, str_app_cons.
Qed.

(** Reading a token extends the run being read. *)
Lemma splitTokens_token (cur t rest : string) :
  allChars isLowerAlnum t = true ->
  splitTokens cur (t ++ rest) = splitTokens (cur ++ t) rest.
Proof.
  revert cur. induction t as [|c t IH]; intros cur; cbn [allChars].
  - intros _. by rewrite str_app_nil_r.
  - intros [Hc Ht]%andb_true_iff. rewrite str_app_cons. cbn [splitTokens].
    rewrite (lowerChar_alnum c Hc), Hc, (IH _ Ht), str_app_assoc.
    by rewrite str_app_cons.
Qed.

Lemma splitTokens_joined (ts : list string) :
  Forall isToken ts -> splitTokens "" (String.concat " " ts) = ts.
Proof.
  induction ts as [|t ts IH]; [done |].
  intros Hts. apply Forall_cons in Hts as [[Hne Ht] Hts].
  destruct ts as [|t' ts].
  - cbn [String.concat]. rewrite <- (str_app_nil_r t) at 1.
    rewrite splitTokens_token by done. change ("" ++ t) with t.
    cbn [splitTokens]. by destruct t.
  - change (String.concat " " (t :: t' :: ts))
      with (t ++ " " ++ String.concat " " (t' :: ts)).
    rewrite splitTokens_token by done. change ("" ++ t) with t.
    change (" " ++ String.concat " " (t' :: ts))
      with (String " " (String.concat " " (t' :: ts))).
    cbn [splitTokens]. change (isLowerAlnum (lowerChar " ")) with false.
    cbn match. rewrite (IH Hts). by destruct t.
Qed.

Lemma toLowerCase_joined (ts : list string) :
  Forall isToken ts ->
  toLowerCase (String.concat " " ts) = String.concat " " ts.
Proof.
  induction ts as [|t ts IH]; [done |].
  intros Hts. apply Forall_cons in Hts as [[Hne Ht] Hts].
  destruct ts as [|t' ts]; [by apply toLowerCase_token |].
  change (String.concat " " (t :: t' :: ts))
    with (t ++ " " ++ String.concat " " (t' :: ts)).
  rewrite !toLowerCase_app, (toLowerCase_token t Ht), (IH Hts). done.
Qed.


(** X2: tokens survive a round trip: the tokens of a text, joined by
    spaces and tokenized again, are the same tokens; and [tokenize] undoes
    the joining of any list of tokens. *)
Theorem tokenize_join_roundtrip (text : string) (ts : list string) :
  tokenize (String.concat " " (tokenize text)) = tokenize text
  /\ (Forall isToken ts -> tokenize (String.concat " " ts) = ts).
Proof.
  assert (forall l, Forall isToken l -> tokenize (String.concat " " l) = l)
    as Hjoin.
  { intros l Hl. unfold tokenize.
    by rewrite toLowerCase_joined, splitTokens_joined. }
  split; [apply Hjoin, tokenize_tokens | apply Hjoin].
Qed.

Lemma tokenize_join_roundtrip_witness :
  Forall isToken ["rialto"; "1740"]
  /\ tokenize (String.concat " " ["rialto"; "1740"]) = ["rialto"; "1740"].
Proof.
  assert (Forall isToken ["rialto"; "1740"]) as H by (repeat constructor; done).
  split; [exact H |].
  exact (proj2 (tokenize_join_roundtrip "" ["rialto"; "1740"]) H).
Defined.

(** *** The Jaccard index *)

Lemma Qmake_le_1 (n : nat) (p : positive) :
  (n <= Pos.to_nat p)%nat -> (Qmake (Z.of_nat n) p <= 1)%Q.
Proof. intros H. unfold Qle. cbn [Qnum Qden]. lia. Qed.

Lemma Qmake_nonneg (n : nat) (p : positive) : (0 <= Qmake (Z.of_nat n) p)%Q.
Proof. unfold Qle. cbn [Qnum Qden]. lia. Qed.

Lemma Qmake_eq_0 (n : nat) (p : positive) :
  (Qmake (Z.of_nat n) p == 0)%Q <-> n = 0%nat.
Proof. unfold Qeq. cbn [Qnum Qden]. lia. Qed.

Lemma Qmake_eq_1 (n : nat) (p : positive) :
  (Qmake (Z.of_nat n) p == 1)%Q <-> n = Pos.to_nat p.
Proof. unfold Qeq. cbn [Qnum Qden]. lia. Qed.

Lemma inter_size_le (a b : gset string) : (size (a ∩ b) <= size (a ∪ b))%nat.
Proof.
  apply subseteq_size. intros x [Hx _]%elem_of_intersection.
  apply elem_of_union. by left.
Qed.

Lemma jaccard_range (a b : gset string) : (0 <= jaccard a b <= 1)%Q.
Proof.
  unfold jaccard. cbn zeta. split; [apply Qmake_nonneg |].
  apply Qmake_le_1. pose proof (inter_size_le a b) as Hle.
  destruct (size (a ∪ b)) as [|n] eqn:Hu; [lia |].
  rewrite Nat2Pos.id by done. lia.
Qed.

(** X3: the Jaccard index lies between 0 and 1; it is 1 exactly for two
    equal sets that are not empty (two empty sets score 0), and 0 exactly
    for disjoint sets. *)
Theorem jaccard_extremes (a b : gset string) :
  (0 <= jaccard a b <= 1)%Q
  /\ ((jaccard a b == 1)%Q <-> a = b /\ a <> ∅)
  /\ ((jaccard a b == 0)%Q <-> a ## b).
Proof.
  split; [apply jaccard_range |]. unfold jaccard. cbn zeta.
  pose proof (inter_size_le a b) as Hle.
  split.
  - rewrite Qmake_eq_1. destruct (size (a ∪ b)) as [|n] eqn:Hu.
    + apply size_empty_iff, leibniz_equiv, empty_union_L in Hu as [-> ->].
      change (Pos.to_nat (Pos.of_nat 1)) with 1%nat.
      split; [rewrite intersection_empty_l_L, size_empty; lia |]. by intros [_ ?].
    + rewrite Nat2Pos.id by done. rewrite <- Hu. split.
      * intros Heq.
        assert (a ∩ b = a ∪ b) as Hsame.
        { apply set_subseteq_size_eq; [| lia].
          intros x [Hx _]%elem_of_intersection. apply elem_of_union. by left. }
        split.
        -- apply set_eq. intros x. split; intros Hx.
           ++ assert (x ∈ a ∩ b) as [_ ?]%elem_of_intersection; [| done].
              rewrite Hsame. apply elem_of_union. by left.
           ++ assert (x ∈ a ∩ b) as [? _]%elem_of_intersection; [| done].
              rewrite Hsame. apply elem_of_union. by right.
        -- intros ->. rewrite Hu, intersection_empty_l_L, size_empty in Heq. lia.
      * intros [-> _]. by rewrite intersection_idemp_L, union_idemp_L.
  - rewrite Qmake_eq_0, size_empty_iff, disjoint_intersection. done.
Qed.

(** *** The two similarity scores *)

Lemma quoteOverlapScore_range (a b : string) : (0 <= quoteOverlapScore a b <= 1)%Q.
Proof.
  unfold quoteOverlapScore.
  destruct (negb (truthy a) || negb (truthy b)); [done |].
  destruct (includes a b || includes b a); [done |]. apply jaccard_range.
Qed.

Lemma commentSimilarityScore_range (a b : string) :
  (0 <= commentSimilarityScore a b <= 1)%Q.
Proof.
  unfold commentSimilarityScore. cbn zeta.
  destruct (negb (truthy a) || negb (truthy b)); [done |].
  destruct (negb (truthy (clean a)) || negb (truthy (clean b))); [done |].
  destruct (_ || _ || _); [done |]. apply jaccard_range.
Qed.

Lemma clean_empty : clean "" = "".
Proof. reflexivity. Qed.

Lemma commentSimilarityScore_sym (a b : string) :
  commentSimilarityScore a b = commentSimilarityScore b a.
Proof.
  unfold commentSimilarityScore. cbn zeta.
  rewrite (orb_comm (negb (truthy a))).
  rewrite (orb_comm (negb (truthy (clean a)))).
  rewrite (String.eqb_sym (clean a)).
  rewrite <- (orb_assoc _ (includes (clean a) (clean b))).
  rewrite (orb_comm (includes (clean a) (clean b))), orb_assoc.
  by rewrite (jaccard_sym (tokenSet (clean a))).
Qed.

Lemma commentSimilarityScore_same (a b : string) :
  clean a = clean b -> clean a <> "" -> commentSimilarityScore a b = 1%Q.
Proof.
  intros Heq Hne. unfold commentSimilarityScore. cbn zeta.
  assert (truthy a = true) as ->.
  { destruct a; [by rewrite clean_empty in Hne | done]. }
  assert (truthy b = true) as ->.
  { destruct b; [by rewrite Heq, clean_empty in Hne | done]. }
  rewrite <- Heq. apply truthy_true in Hne. rewrite Hne.
  cbn [negb orb]. by rewrite String.eqb_refl.
Qed.

Lemma commentSimilarityScore_blank (a b : string) :
  clean a = "" -> commentSimilarityScore a b = 0%Q.
Proof.
  intros Hblank. unfold commentSimilarityScore. cbn zeta.
  destruct (negb (truthy a) || negb (truthy b)); [done |].
  by rewrite Hblank.
Qed.

(** X4: the comment similarity is symmetric and lies between 0 and 1; it
    is 1 for two comments that are equal once cleaned (lower case, letters,
    digits and single spaces only) and not blank, and 0 as soon as one of
    them has nothing left after cleaning. *)
Theorem commentSimilarityScore_clean (a b : string) :
  commentSimilarityScore a b = commentSimilarityScore b a
  /\ (0 <= commentSimilarityScore a b <= 1)%Q
  /\ (clean a = clean b -> clean a <> "" -> commentSimilarityScore a b = 1%Q)
  /\ (clean a = "" -> commentSimilarityScore a b = 0%Q).
Proof.
  split; [apply commentSimilarityScore_sym |].
  split; [apply commentSimilarityScore_range |].
  split; [apply commentSimilarityScore_same | apply commentSimilarityScore_blank].
Qed.

Lemma commentSimilarityScore_clean_witness :
  commentSimilarityScore "Adds invented detail." "adds   INVENTED detail" = 1%Q
  /\ commentSimilarityScore "?!" "Adds invented detail." = 0%Q.
Proof.
  split.
  - apply (commentSimilarityScore_clean "Adds invented detail."
             "adds   INVENTED detail"); [reflexivity | discriminate].
  - apply (commentSimilarityScore_clean "?!" "Adds invented detail."). reflexivity.
Defined.

(** *** The style signature *)

Lemma size_list_to_set_le (l : list string) :
  (size (list_to_set l : gset string) <= length l)%nat
  /\ (size (list_to_set l : gset string) = length l -> NoDup l).
Proof.
  induction l as [|x l [IHle IHnd]]; cbn [list_to_set length].
  - split; [by rewrite size_empty | constructor].
  - destruct (decide (x ∈ l)) as [Hin|Hout].
    + assert ({[x]} ∪ list_to_set l = (list_to_set l : gset string)) as ->.
      { apply subseteq_union_1_L, singleton_subseteq_l. by apply elem_of_list_to_set. }
      split; lia.
    + rewrite size_union, size_singleton
        by (apply disjoint_singleton_l; by rewrite elem_of_list_to_set).
      split; [lia |]. intros Heq. constructor; [done |]. apply IHnd. lia.
Qed.

(** X5: in a style signature the mean sentence length is not negative and
    the type-token ratio lies between 0 and 1; the ratio is 0 for a text
    without tokens and otherwise 1 exactly when no token occurs twice. *)
Theorem styleSignature_range (text : string) :
  (0 <= fst (styleSignature text))%Q
  /\ (0 <= snd (styleSignature text) <= 1)%Q
  /\ (tokenize text = [] -> snd (styleSignature text) = 0%Q)
  /\ (tokenize text <> [] ->
      ((snd (styleSignature text) == 1)%Q <-> NoDup (tokenize text))).
Proof.
  unfold styleSignature. cbn zeta. cbn [fst snd].
  pose proof (size_list_to_set_le (tokenize text)) as [Hle Hnd].
  split; [| split; [| split]].
  - destruct (0 <? length _)%nat; [apply Qmake_nonneg | done].
  - destruct (0 <? length (tokenize text))%nat eqn:Hlen; [| done].
    apply Nat.ltb_lt in Hlen.
    split; [apply Qmake_nonneg |]. apply Qmake_le_1. rewrite Nat2Pos.id; lia.
  - by intros ->.
  - intros Hne. destruct (tokenize text) as [|t ts] eqn:Htok; [done |].
    change (0 <? length (t :: ts))%nat with true. cbn match.
    rewrite Qmake_eq_1, Nat2Pos.id by done. split; [exact Hnd |].
    intros H. by apply size_list_to_set.
Qed.

Lemma styleSignature_range_witness :
  snd (styleSignature "?!") = 0%Q
  /\ ((snd (styleSignature "The gondola drifted.") == 1)%Q
      <-> NoDup (tokenize "The gondola drifted.")).
Proof.
  split.
  - apply (styleSignature_range "?!"). reflexivity.
  - apply (styleSignature_range "The gondola drifted."). discriminate.
Defined.

End LexicalFacts.

(** ** More on the heuristic matcher *)

Section MatcherFacts.

Lemma Qltb_true (x y : Q) : Js.Qltb x y = true -> (x < y)%Q.
Proof.
  unfold Js.Qltb. intros H. apply negb_true_iff in H.
  apply Qnot_le_lt. intros Hle. apply Qle_bool_iff in Hle. congruence.
Qed.

Lemma Qltb_spec (x y : Q) : reflect (x < y)%Q (Js.Qltb x y).
Proof.
  destruct (Js.Qltb x y) eqn:H; constructor.
  - by apply Qltb_true.
  - apply Qltb_false in H. by apply Qle_not_lt.
Qed.

Lemma combinedScore_pos (a b : AnnotationView) :
  eligible a b -> (0 < combinedScore a b)%Q.
Proof.
  unfold eligible, combinedScore. intros Hq.
  pose proof (commentSimilarityScore_range (comment a) (comment b)) as [Hc _].
  lra.
Qed.

(** The earlier candidate stays the best: what is left to show is that it
    beats the new one. *)
Ltac requalify :=
  split; [lia |]; split; [done |]; split; [done |]; split; [done |];
  split; [done |].

(** One candidate more. *)
Lemma considerCandidate_best usedB a annsB k best b :
  annsB !! k = Some b ->
  bestSoFar usedB a annsB k best ->
  bestSoFar usedB a annsB (S k) (considerCandidate usedB a best b k).
Proof.
  intros Hb Hbest. unfold considerCandidate.
  destruct (decide (Z.of_nat k ∈ usedB)) as [Hused|Hfree].
  { destruct Hbest as [[-> Hnone] | (j & b0 & Hj & Hb0 & -> & Hfree & Hel & Hmax)].
    - left. split; [done |]. intros j b' Hj Hb' Hel.
      destruct (decide (j = k)) as [->|]; [done |]. apply (Hnone j b'); [lia | done..].
    - right. exists j, b0. requalify.
      intros j' b' Hj' Hb' Hfree' Hel'.
      destruct (decide (j' = k)) as [->|]; [done |]. apply Hmax; [lia | done..]. }
  destruct (Qltb_spec (quoteOverlapScore (quote a) (quote b)) (35 # 100)) as [Hlow|Hq].
  { assert (~ eligible a b) as Hnot by (unfold eligible; by apply Qlt_not_le).
    destruct Hbest as [[-> Hnone] | (j & b0 & Hj & Hb0 & -> & Hfree0 & Hel & Hmax)].
    - left. split; [done |]. intros j b' Hj Hb' Hel.
      destruct (decide (j = k)) as [->|];
        [exfalso; apply Hnot; by replace b with b' by congruence |].
      apply (Hnone j b'); [lia | done..].
    - right. exists j, b0. requalify.
      intros j' b' Hj' Hb' Hfree' Hel'.
      destruct (decide (j' = k)) as [->|];
        [exfalso; apply Hnot; by replace b with b' by congruence |].
      apply Hmax; [lia | done..]. }
  apply Qnot_lt_le in Hq. fold (eligible a b) in Hq.
  fold (combinedScore a b).
  destruct (Qltb_spec (bestScore best) (combinedScore a b)) as [Hbetter|Hworse].
  - right. exists k, b. split; [lia |]. split; [done |]. split; [done |].
    split; [done |]. split; [done |].
    intros j' b' Hj' Hb' Hfree' Hel'.
    destruct (decide (j' = k)) as [->|Hne].
    { replace b' with b by congruence. split; [apply Qle_refl | lia]. }
    destruct Hbest as [[-> Hnone] | (j & b0 & Hj & Hb0 & -> & Hfree0 & Hel & Hmax)].
    + exfalso. apply Hfree'. apply (Hnone j' b'); [lia | done..].
    + cbn [bestScore] in Hbetter.
      destruct (Hmax j' b' ltac:(lia) Hb' Hfree' Hel') as [Hle _].
      split; [lra |]. intros _. lra.
  - apply Qnot_lt_le in Hworse.
    destruct Hbest as [[-> Hnone] | (j & b0 & Hj & Hb0 & -> & Hfree0 & Hel & Hmax)].
    + exfalso. cbn [bestScore noBest] in Hworse.
      pose proof (combinedScore_pos a b Hq). lra.
    + cbn [bestScore] in Hworse.
      right. exists j, b0. requalify.
      intros j' b' Hj' Hb' Hfree' Hel'.
      destruct (decide (j' = k)) as [->|Hne]; [| apply Hmax; [lia | done..]].
      replace b' with b by congruence. split; [done | lia].
Qed.

Lemma innerLoop_best usedB a annsB rest k best :
  (forall j b, rest !! j = Some b -> annsB !! (k + j)%nat = Some b) ->
  bestSoFar usedB a annsB k best ->
  bestSoFar usedB a annsB (k + length rest)
    (forEachFrom (considerCandidate usedB a) k rest best).
Proof.
  revert k best. induction rest as [|b rest IH]; intros k best Hrest Hbest;
    cbn [forEachFrom length].
  - by rewrite Nat.add_0_r.
  - replace (k + S (length rest))%nat with (S k + length rest)%nat by lia.
    apply IH.
    + intros j b' Hj. replace (S k + j)%nat with (k + S j)%nat by lia.
      by apply Hrest.
    + apply considerCandidate_best; [| done].
      specialize (Hrest 0%nat b eq_refl). by rewrite Nat.add_0_r in Hrest.
Qed.

Lemma innerLoop_result usedB a annsB :
  bestSoFar usedB a annsB (length annsB)
    (forEach (considerCandidate usedB a) annsB noBest).
Proof.
  apply (innerLoop_best usedB a annsB annsB 0 noBest); [done |].
  left. split; [done |]. intros j b Hj. lia.
Qed.

Lemma takenBefore_all (ms : list AnnotationMatch) (k : nat) :
  Forall (fun m => 0 <= aIndex m < Z.of_nat k) ms ->
  takenBefore ms k = map bIndex ms.
Proof.
  unfold takenBefore. induction 1 as [|m ms Hm _ IH]; [done |].
  cbn [List.filter]. destruct (Z.ltb_spec (aIndex m) (Z.of_nat k)); [| lia].
  cbn [map]. by rewrite IH.
Qed.

Lemma takenBefore_snoc (ms : list AnnotationMatch) (m : AnnotationMatch) (i : nat) :
  Z.of_nat i <= aIndex m -> takenBefore (ms ++ [m]) i = takenBefore ms i.
Proof.
  intros Hge. unfold takenBefore. rewrite List.filter_app. cbn [List.filter].
  destruct (Z.ltb_spec (aIndex m) (Z.of_nat i)); [lia |]. by rewrite app_nil_r.
Qed.

Lemma matchFor_snoc (ms : list AnnotationMatch) (m : AnnotationMatch) (i : nat) :
  matchFor (ms ++ [m]) i
  = match matchFor ms i with
    | Some m' => Some m'
    | None => if aIndex m =? Z.of_nat i then Some m else None
    end.
Proof.
  unfold matchFor. induction ms as [|m' ms IH]; [done |].
  cbn [app List.find]. by destruct (aIndex m' =? Z.of_nat i).
Qed.

Lemma matchFor_none (ms : list AnnotationMatch) (k : nat) :
  Forall (fun m => 0 <= aIndex m < Z.of_nat k) ms -> matchFor ms k = None.
Proof.
  unfold matchFor. induction 1 as [|m ms Hm _ IH]; [done |].
  cbn [List.find]. destruct (Z.eqb_spec (aIndex m) (Z.of_nat k)); [lia | done].
Qed.

Lemma increasing_snoc (l : list Z) (x : Z) :
  increasing l -> Forall (fun y => y < x) l -> increasing (l ++ [x]).
Proof.
  intros Hinc Hlt i j y z Hi Hj Hij.
  apply lookup_lt_Some in Hi as Hi'. apply lookup_lt_Some in Hj as Hj'.
  rewrite length_app in Hi', Hj'. cbn [length] in Hi', Hj'.
  rewrite lookup_app_l in Hi by lia.
  destruct (decide (j < length l)%nat) as [Hjl|Hjl].
  - rewrite lookup_app_l in Hj by done. by apply (Hinc i j).
  - rewrite lookup_app_r in Hj by lia.
    replace (j - length l)%nat with 0%nat in Hj by lia. injection Hj as <-.
    rewrite Forall_forall in Hlt. apply Hlt. by eapply list_elem_of_lookup_2.
Qed.

(** One annotation of [annsA] more. *)
Lemma matchOne_greedy annsA annsB k st a :
  annsA !! k = Some a ->
  greedySoFar annsA annsB k st ->
  greedySoFar annsA annsB (S k) (matchOne annsB st a k).
Proof.
  intros Ha. destruct st as [usedB ms]. intros (Hused & Hlt & Hinc & Hall).
  cbn [fst snd] in *.
  pose proof (innerLoop_result usedB a annsB) as Hbest.
  unfold matchOne.
  set (best := forEach (considerCandidate usedB a) annsB noBest) in *.
  assert (Forall (fun m => 0 <= aIndex m < Z.of_nat (S k)) ms) as Hlt'.
  { eapply Forall_impl; [exact Hlt |]. intros m Hm. cbn beta in Hm |- *. lia. }
  destruct Hbest as [[-> Hnone] | (j & b & Hj & Hb & -> & Hfree & Hel & Hmax)].
  - cbn [bestIdx noBest]. destruct (decide (-1 ≠ -1)) as [|_]; [done |].
    unfold greedySoFar. cbn [fst snd].
    split; [done |]. split; [done |]. split; [done |].
    intros i a' Hi Ha'. destruct (decide (i = k)) as [->|Hne];
      [| apply Hall; [lia | done]].
    replace a' with a by congruence.
    rewrite matchFor_none, takenBefore_all by done. cbn [greedyChoice].
    intros j b Hb Hel. apply Hused. apply (Hnone j b); [| done..].
    by eapply lookup_lt_Some.
  - cbn [bestIdx bestReason bestQuote bestComment].
    destruct (decide (Z.of_nat j ≠ -1)) as [_|Hbad]; [| exfalso; apply Hbad; lia].
    set (m := mkMatch _ _ _ _ _).
    unfold greedySoFar. cbn [fst snd]. rewrite !map_app. cbn [map].
    split; [| split; [| split]].
    + intros z. rewrite elem_of_union, elem_of_singleton, elem_of_app, Hused.
      rewrite list_elem_of_singleton. cbn [bIndex m]. tauto.
    + apply Forall_app. split; [done |]. apply Forall_singleton. cbn [aIndex m]. lia.
    + apply increasing_snoc; [done |]. apply Forall_fmap.
      eapply Forall_impl; [exact Hlt |]. intros m' Hm'.
      cbn [aIndex m compose] in Hm' |- *. lia.
    + intros i a' Hi Ha'. rewrite matchFor_snoc, takenBefore_snoc
        by (cbn [aIndex m]; lia).
      destruct (decide (i = k)) as [->|Hne].
      * replace a' with a by congruence.
        rewrite matchFor_none, takenBefore_all by done.
        cbn [aIndex m]. rewrite Z.eqb_refl. cbn [greedyChoice].
        exists j, b. split; [done |]. split; [| split; [done |]].
        { intros Hin. by apply Hfree, Hused. }
        intros j' b' Hb' Hfree' Hel'. apply Hmax; [by eapply lookup_lt_Some | done | | done].
        intros Hin. by apply Hfree', Hused.
      * specialize (Hall i a' ltac:(lia) Ha').
        destruct (matchFor ms i) as [m'|] eqn:Hm; [done |].
        cbn [aIndex m]. destruct (Z.eqb_spec (Z.of_nat k) (Z.of_nat i)); [lia | done].
Qed.

Lemma outerLoop_greedy annsA annsB rest k st :
  (forall j a, rest !! j = Some a -> annsA !! (k + j)%nat = Some a) ->
  greedySoFar annsA annsB k st ->
  greedySoFar annsA annsB (k + length rest)
    (forEachFrom (matchOne annsB) k rest st).
Proof.
  revert k st. induction rest as [|a rest IH]; intros k st Hrest Hst;
    cbn [forEachFrom length].
  - by rewrite Nat.add_0_r.
  - replace (k + S (length rest))%nat with (S k + length rest)%nat by lia.
    apply IH.
    + intros j a' Hj. replace (S k + j)%nat with (k + S j)%nat by lia.
      by apply Hrest.
    + apply matchOne_greedy; [| done].
      specialize (Hrest 0%nat a eq_refl). by rewrite Nat.add_0_r in Hrest.
Qed.

(** The matcher is greedy: every annotation of [annsA], in order, gets the
    best partner still available, or none when none is. *)
Lemma fallback_greedy annsA annsB :
  greedySoFar annsA annsB (length annsA) (forEach (matchOne annsB) annsA (∅, [])).
Proof.
  apply (outerLoop_greedy annsA annsB annsA 0 (∅, [])); [done |].
  unfold greedySoFar. cbn [fst snd map].
  split; [intros z; by rewrite elem_of_empty, elem_of_nil |].
  split; [constructor |]. split.
  - intros i j x y Hi. done.
  - intros i a Hi. lia.
Qed.

Lemma matchFor_elem (ms : list AnnotationMatch) (m : AnnotationMatch) :
  increasing (map aIndex ms) -> m ∈ ms -> 0 <= aIndex m ->
  matchFor ms (Z.to_nat (aIndex m)) = Some m.
Proof.
  unfold matchFor. induction ms as [|m0 ms IH]; intros Hinc Hin Hpos.
  - by apply not_elem_of_nil in Hin.
  - cbn [List.find].
    assert (m ∈ ms -> aIndex m0 < aIndex m) as Hlt.
    { intros [i Hi]%list_elem_of_lookup.
      apply (Hinc 0%nat (S i)); [done | | lia].
      change (map aIndex (m0 :: ms)) with (aIndex <$> m0 :: ms).
      rewrite list_lookup_fmap. change ((m0 :: ms) !! S i) with (ms !! i).
      by rewrite Hi. }
    apply elem_of_cons in Hin as [->|Hin].
    + destruct (Z.eqb_spec (aIndex m0) (Z.of_nat (Z.to_nat (aIndex m0)))); [done | lia].
    + specialize (Hlt Hin).
      destruct (Z.eqb_spec (aIndex m0) (Z.of_nat (Z.to_nat (aIndex m)))); [lia |].
      apply IH; [| done..].
      intros i' j' x y Hi' Hj' Hij. apply (Hinc (S i') (S j')); [done.. | lia].
Qed.

Lemma matchFor_Some (ms : list AnnotationMatch) (i : nat) (m : AnnotationMatch) :
  matchFor ms i = Some m -> m ∈ ms /\ aIndex m = Z.of_nat i.
Proof.
  unfold matchFor. intros H. apply List.find_some in H as [Hin Heq].
  split; [by apply list_elem_of_In | by apply Z.eqb_eq].
Qed.

Lemma matchFor_None (ms : list AnnotationMatch) (i : nat) :
  Z.of_nat i ∉ map aIndex ms -> matchFor ms i = None.
Proof.
  unfold matchFor. induction ms as [|m ms IH]; [done |].
  cbn [map List.find]. intros Hout.
  destruct (Z.eqb_spec (aIndex m) (Z.of_nat i)) as [Heq|_].
  - exfalso. apply Hout. rewrite Heq. apply list_elem_of_here.
  - apply IH. intros Hin. apply Hout. by apply list_elem_of_further.
Qed.

Lemma takenBefore_elem (ms : list AnnotationMatch) (i : nat) (z : Z) :
  z ∈ takenBefore ms i <-> exists m, m ∈ ms /\ aIndex m < Z.of_nat i /\ bIndex m = z.
Proof.
  unfold takenBefore. rewrite list_elem_of_fmap. split.
  - intros (m & -> & Hin). apply list_elem_of_In, List.filter_In in Hin as [Hin Hlt].
    exists m. split; [by apply list_elem_of_In |]. split; [by apply Z.ltb_lt | done].
  - intros (m & Hin & Hlt & <-). exists m. split; [done |].
    apply list_elem_of_In, List.filter_In. split; [by apply list_elem_of_In |].
    by apply Z.ltb_lt.
Qed.

(** Every match, with the annotation of [annsA] it was made for. *)
Lemma fallback_matches_greedy annsA annsB (m : AnnotationMatch) :
  m ∈ fallbackAnnotationMatches annsA annsB ->
  exists i a,
    aIndex m = Z.of_nat i /\ annsA !! i = Some a
    /\ greedyChoice annsB (takenBefore (fallbackAnnotationMatches annsA annsB) i)
         a (Some m).
Proof.
  unfold fallbackAnnotationMatches.
  destruct (fallback_greedy annsA annsB) as (_ & Hlt & Hinc & Hall).
  set (ms := snd (forEach (matchOne annsB) annsA (∅, []))) in *.
  intros Hin. rewrite Forall_forall in Hlt. pose proof (Hlt m Hin) as Hm.
  cbn beta in Hm.
  destruct (lookup_lt_is_Some_2 annsA (Z.to_nat (aIndex m)) ltac:(lia)) as [a Ha].
  exists (Z.to_nat (aIndex m)), a. split; [lia |]. split; [done |].
  rewrite <- (matchFor_elem ms m Hinc Hin) by lia.
  apply Hall; [lia | done].
Qed.


(** X7: the heuristic leaves an annotation of the first list unmatched
    only when each of its eligible partners (quote overlap of 0.35 or more)
    has been taken by an annotation before it. *)
Theorem fallbackAnnotationMatches_complete (annsA annsB : list AnnotationView)
    (i j : nat) (a b : AnnotationView) :
  let ms := fallbackAnnotationMatches annsA annsB in
  annsA !! i = Some a -> annsB !! j = Some b ->
  Z.of_nat i ∉ map aIndex ms -> eligible a b ->
  exists m, m ∈ ms /\ aIndex m < Z.of_nat i /\ bIndex m = Z.of_nat j.
Proof.
  cbn zeta. intros Ha Hb Hout Hel. apply takenBefore_elem.
  unfold fallbackAnnotationMatches in *.
  destruct (fallback_greedy annsA annsB) as (_ & _ & _ & Hall).
  set (ms := snd (forEach (matchOne annsB) annsA (∅, []))) in *.
  specialize (Hall i a ltac:(by eapply lookup_lt_Some) Ha).
  rewrite (matchFor_None ms i Hout) in Hall. by apply (Hall j b).
Qed.


Lemma fallbackAnnotationMatches_complete_witness :
  exists m,
    m ∈ fallbackAnnotationMatches
          [mkView "the gondola" "late"; mkView "the gondola" "too late"]
          [mkView "the gondola" "late"]
    /\ aIndex m < Z.of_nat 1 /\ bIndex m = Z.of_nat 0.
Proof.
  apply (fallbackAnnotationMatches_complete
           [mkView "the gondola" "late"; mkView "the gondola" "too late"]
           [mkView "the gondola" "late"] 1 0
           (mkView "the gondola" "too late") (mkView "the gondola" "late")).
  - reflexivity.
  - reflexivity.
  - intros H. vm_compute in H. apply list_elem_of_singleton in H. discriminate.
  - unfold eligible. cbn [quote].
    change (quoteOverlapScore "the gondola" "the gondola") with 1%Q. lra.
Defined.

(** *** A list of annotations matched against itself *)

Lemma includes_refl (a : string) : Js.includes a a = true.
Proof. apply includes_spec. exists "", "". by rewrite str_app_nil_r. Qed.

Lemma quoteOverlapScore_self (a : string) : a <> "" -> quoteOverlapScore a a = 1%Q.
Proof.
  intros Hne. unfold quoteOverlapScore. apply truthy_true in Hne.
  by rewrite Hne, includes_refl.
Qed.

Lemma commentSimilarityScore_self_max (c c' : string) :
  (commentSimilarityScore c c' <= commentSimilarityScore c c)%Q.
Proof.
  destruct (decide (clean c = "")) as [Hblank|Hne].
  - rewrite !commentSimilarityScore_blank by done. apply Qle_refl.
  - rewrite (commentSimilarityScore_same c c) by done.
    apply commentSimilarityScore_range.
Qed.

Lemma combinedScore_self_max (a b : AnnotationView) :
  quote a <> "" -> (combinedScore a b <= combinedScore a a)%Q.
Proof.
  intros Hne. unfold combinedScore. rewrite (quoteOverlapScore_self _ Hne).
  pose proof (quoteOverlapScore_range (quote a) (quote b)) as [_ Hq].
  pose proof (commentSimilarityScore_self_max (comment a) (comment b)). lra.
Qed.

Lemma diagonal_S (k : nat) :
  diagonal (S k) = (diagonal k ++ [(Z.of_nat k, Z.of_nat k)])%list.
Proof. unfold diagonal. by rewrite seq_S, map_app. Qed.

Lemma selfMatch_loop (l rest : list AnnotationView) (k : nat)
    (st : gset Z * list AnnotationMatch) :
  Forall (fun a => quote a <> "") l ->
  (forall j a, rest !! j = Some a -> l !! (k + j)%nat = Some a) ->
  (forall z, z ∈ fst st <-> 0 <= z < Z.of_nat k) ->
  map pairOf (snd st) = diagonal k ->
  map pairOf (snd (forEachFrom (matchOne l) k rest st))
  = diagonal (k + length rest).
Proof.
  intros Hquotes. revert k st.
  induction rest as [|a rest IH]; intros k st Hrest Hused Hdiag;
    cbn [forEachFrom length].
  - by rewrite Nat.add_0_r.
  - replace (k + S (length rest))%nat with (S k + length rest)%nat by lia.
    assert (l !! k = Some a) as Ha.
    { specialize (Hrest 0%nat a eq_refl). by rewrite Nat.add_0_r in Hrest. }
    assert (quote a <> "") as Hne.
    { rewrite Forall_forall in Hquotes. apply Hquotes.
      by eapply list_elem_of_lookup_2. }
    assert (eligible a a) as Hself.
    { unfold eligible. rewrite quoteOverlapScore_self by done. lra. }
    assert (Z.of_nat k ∉ fst st) as Hfree by (rewrite Hused; lia).
    destruct st as [usedB ms]. cbn [fst snd] in *.
    pose proof (innerLoop_result usedB a l) as Hbest.
    assert (exists m, matchOne l (usedB, ms) a k = ({[Z.of_nat k]} ∪ usedB, ms ++ [m])%list
                      /\ pairOf m = (Z.of_nat k, Z.of_nat k)) as (m & Hstep & Hm).
    { unfold matchOne.
      destruct Hbest as [[-> Hnone] | (j & b & Hj & Hb & -> & Hjfree & Hel & Hmax)].
      - exfalso. apply Hfree. apply (Hnone k a); [| done..].
        by eapply lookup_lt_Some.
      - destruct (Hmax k a ltac:(by eapply lookup_lt_Some) Ha Hfree Hself)
          as [Hle Hlt].
        pose proof (combinedScore_self_max a b Hne) as Hge.
        assert (j = k) as ->.
        { destruct (decide (k < j)%nat) as [Hkj|Hkj]; [specialize (Hlt Hkj); lra |].
          destruct (decide (j < k)%nat) as [Hjk|]; [| lia].
          exfalso. apply Hjfree, Hused. lia. }
        cbn [bestIdx bestReason bestQuote bestComment].
        destruct (decide (Z.of_nat k ≠ -1)) as [_|Hbad]; [| exfalso; apply Hbad; lia].
        eexists. split; reflexivity. }
    rewrite Hstep. apply IH.
    + intros j a' Hj. replace (S k + j)%nat with (k + S j)%nat by lia.
      by apply Hrest.
    + cbn [fst]. intros z. rewrite elem_of_union, elem_of_singleton, Hused. lia.
    + cbn [snd]. by rewrite map_app, Hdiag, diagonal_S; cbn [map]; rewrite Hm.
Qed.

(** X9: a list of annotations whose quotes are not empty, matched against
    itself, is matched in full and on the diagonal: every annotation is
    paired with itself. *)
Theorem fallbackAnnotationMatches_self (l : list AnnotationView) :
  Forall (fun a => quote a <> "") l ->
  map pairOf (fallbackAnnotationMatches l l) = diagonal (length l).
Proof.
  intros Hquotes. unfold fallbackAnnotationMatches, forEach.
  apply (selfMatch_loop l l 0 (∅, []) Hquotes); [done | | done].
  cbn [fst]. intros z. split; [intros H; by apply not_elem_of_empty in H | lia].
Qed.

Lemma fallbackAnnotationMatches_self_witness :
  map pairOf (fallbackAnnotationMatches
                [mkView "the gondola" "late"; mkView "the gondola drifted" ""]
                [mkView "the gondola" "late"; mkView "the gondola drifted" ""])
  = diagonal 2.
Proof.
  apply (fallbackAnnotationMatches_self
           [mkView "the gondola" "late"; mkView "the gondola drifted" ""]).
  repeat constructor; discriminate.
Defined.

End MatcherFacts.

(** ** More on the comparison of two annotation lists *)

Section Rounding.

Lemma scale_pos (d : nat) : 0 < 10 ^ Z.of_nat d.
Proof. apply Z.pow_pos_nonneg; lia. Qed.

(** [toFixed] is monotone. *)
Lemma toFixed_mono (d : nat) (x y : Q) :
  (x <= y)%Q -> (Js.toFixed d x <= Js.toFixed d y)%Q.
Proof.
  intros Hxy. unfold Js.toFixed. cbn zeta. unfold Qle. cbn [Qnum Qden].
  apply Z.mul_le_mono_nonneg_r; [lia |]. apply Qfloor_resp_le.
  pose proof (scale_pos d) as Hs.
  assert (0 <= inject_Z (10 ^ Z.of_nat d))%Q as Hs'.
  { unfold Qle. cbn. lia. }
  apply Qplus_le_compat; [| apply Qle_refl]. by apply Qmult_le_compat_r.
Qed.

(** [toFixed d] leaves the multiples of [10^-d] as they are. *)
Lemma toFixed_exact (d : nat) (z : Z) :
  (Js.toFixed d (z # Z.to_pos (10 ^ Z.of_nat d)) == z # Z.to_pos (10 ^ Z.of_nat d))%Q.
Proof.
  unfold Js.toFixed. cbn zeta. pose proof (scale_pos d) as Hs.
  assert ((z # Z.to_pos (10 ^ Z.of_nat d)) * inject_Z (10 ^ Z.of_nat d) + (1 # 2)
          == inject_Z z + (1 # 2))%Q as ->.
  { apply Qplus_inj_r. unfold Qeq, Qmult, inject_Z. cbn [Qnum Qden].
    rewrite Pos.mul_1_r, Z2Pos.id by done. ring. }
  assert (Qfloor (inject_Z z + (1 # 2)) = z) as ->; [| reflexivity].
  pose proof (Qfloor_le (inject_Z z + (1 # 2))) as Hlo.
  pose proof (Qlt_floor (inject_Z z + (1 # 2))) as Hhi.
  set (f := Qfloor (inject_Z z + (1 # 2))) in *.
  rewrite inject_Z_plus in Hhi. change (inject_Z 1) with 1%Q in Hhi.
  assert (f < z + 1)
    by (rewrite Zlt_Qlt, inject_Z_plus; change (inject_Z 1) with 1%Q; lra).
  assert (z < f + 1)
    by (rewrite Zlt_Qlt, inject_Z_plus; change (inject_Z 1) with 1%Q; lra).
  lia.
Qed.

Lemma toFixed_comp (d : nat) (x y : Q) :
  (x == y)%Q -> Js.toFixed d x = Js.toFixed d y.
Proof.
  intros Hxy. unfold Js.toFixed. cbn zeta. f_equal. apply Qfloor_comp.
  by rewrite Hxy.
Qed.

(** [toFixed] keeps a number of the unit interval in it. *)
Lemma toFixed_unit (d : nat) (x : Q) :
  (0 <= x <= 1)%Q -> (0 <= Js.toFixed d x <= 1)%Q.
Proof.
  intros [Hlo Hhi]. pose proof (scale_pos d) as Hs.
  assert (Js.toFixed d 1 == 1)%Q as H1.
  { rewrite (toFixed_comp d 1 (10 ^ Z.of_nat d # Z.to_pos (10 ^ Z.of_nat d))).
    - rewrite toFixed_exact. unfold Qeq. cbn [Qnum Qden].
      rewrite Z2Pos.id by done. lia.
    - unfold Qeq. cbn [Qnum Qden]. rewrite Z2Pos.id by done. lia. }
  split.
  - apply Qle_trans with (Js.toFixed d 0); [| by apply toFixed_mono].
    by rewrite (toFixed_zero d 1).
  - apply Qle_trans with (Js.toFixed d 1); [by apply toFixed_mono |].
    by rewrite H1.
Qed.

End Rounding.

Section ComparisonFacts.

Variable env : Env.

Lemma fallback_empty_l (annsB : list AnnotationView) :
  fallbackAnnotationMatches [] annsB = [].
Proof. reflexivity. Qed.

Lemma fallback_empty_r (annsA : list AnnotationView) :
  fallbackAnnotationMatches annsA [] = [].
Proof.
  destruct (fallback_matches_sound annsA []) as [_ Hok].
  destruct (fallbackAnnotationMatches annsA []) as [|m ms]; [done |].
  apply Forall_cons in Hok as [(_ & Hb & _) _]. cbn [length] in Hb. lia.
Qed.

Lemma length_zero_iff {A} (l : list A) : (length l =? 0)%nat = true <-> l = [].
Proof. by destruct l. Qed.

(** With an empty list on either side the judge is not asked. *)
Lemma compareAnnotations_empty (annsA annsB : list Annotation) (w : World) :
  annsA = [] \/ annsB = [] ->
  compareAnnotations env annsA annsB w
  = (Returned (summarize annsA annsB [] ""), [], w).
Proof.
  intros Hempty. unfold compareAnnotations, matchAnnotationsWithGemini.
  assert ((length annsA =? 0)%nat || (length annsB =? 0)%nat = true) as ->.
  { apply orb_true_iff. by rewrite !length_zero_iff. }
  assert (fallbackAnnotationMatches (map view annsA) (map view annsB) = []) as ->.
  { destruct Hempty as [-> | ->]; [apply fallback_empty_l | apply fallback_empty_r]. }
  reflexivity.
Qed.

(** The judge's call rejects: the heuristic's matches are summarized. *)
Lemma compareAnnotations_rejected (annsA annsB : list Annotation) (w : World) :
  annsA <> [] -> annsB <> [] ->
  generateContent env (oracleCalls w) = None ->
  compareAnnotations env annsA annsB w
  = (Returned
       (let fallback := fallbackAnnotationMatches (map view annsA) (map view annsB) in
        summarize annsA annsB fallback (default "" (reason <$> head fallback))),
     [OracleCall Judging false; LogLine judgeFailedLine],
     mkWorld (S (oracleCalls w)) (uuids w)).
Proof.
  intros HA HB Hcall. unfold compareAnnotations, matchAnnotationsWithGemini.
  assert ((length annsA =? 0)%nat || (length annsB =? 0)%nat = false) as ->.
  { destruct annsA, annsB; done. }
  rewrite run_bind. unfold tryCatch, generateNarrative. rewrite !run_bind.
  unfold callModel. rewrite Hcall. reflexivity.
Qed.

(** The judge's call resolves: its matches are summarized if one at least
    passes the integrity filter, the heuristic's otherwise. *)
Lemma compareAnnotations_resolved (annsA annsB : list Annotation) (w : World)
    (r : Response) :
  annsA <> [] -> annsB <> [] ->
  generateContent env (oracleCalls w) = Some r ->
  compareAnnotations env annsA annsB w
  = (Returned
       (let fallback := fallbackAnnotationMatches (map view annsA) (map view annsB) in
        let cleaned :=
          cleanMatches (length annsA) (length annsB)
            (parseMatches env (Js.trim (responseText r))) in
        if (0 <? length cleaned)%nat
        then summarize annsA annsB cleaned
               (match reason <$> head cleaned with
                | Some n => if Js.truthy n then n
                            else default "" (reason <$> head fallback)
                | None => default "" (reason <$> head fallback)
                end)
        else summarize annsA annsB fallback (default "" (reason <$> head fallback))),
     [OracleCall Judging true],
     mkWorld (S (oracleCalls w)) (uuids w)).
Proof.
  intros HA HB Hcall. unfold compareAnnotations, matchAnnotationsWithGemini.
  assert ((length annsA =? 0)%nat || (length annsB =? 0)%nat = false) as ->.
  { destruct annsA, annsB; done. }
  rewrite run_bind. unfold tryCatch, generateNarrative. rewrite !run_bind.
  unfold callModel. rewrite Hcall. cbn -[cleanMatches summarize fallbackAnnotationMatches].
  unfold extractTextFromResponse.
  by destruct (length (cleanMatches _ _ _)).
Qed.

(** In every case the comparison summarizes some list of matches, the
    heuristic's when the judge is silent. *)
Lemma compareAnnotations_summary (annsA annsB : list Annotation) (w : World) :
  exists ms note,
    outcome (compareAnnotations env annsA annsB w)
    = Returned (summarize annsA annsB ms note)
    /\ (judgeSilent env annsA annsB w ->
        ms = fallbackAnnotationMatches (map view annsA) (map view annsB)).
Proof.
  destruct (decide (annsA = [] \/ annsB = [])) as [Hempty|Hfull].
  { rewrite compareAnnotations_empty by done. exists [], "". split; [done |].
    intros _. destruct Hempty as [-> | ->];
      [by rewrite fallback_empty_l | by rewrite fallback_empty_r]. }
  assert (annsA <> [] /\ annsB <> []) as [HA HB] by tauto.
  destruct (generateContent env (oracleCalls w)) as [r|] eqn:Hcall.
  - rewrite (compareAnnotations_resolved _ _ _ r) by done. cbn zeta.
    unfold outcome. cbn [fst].
    destruct (0 <? length _)%nat eqn:Hlen.
    + eexists _, _. split; [done |].
      intros [Hnone | (r' & Hr' & Hclean)]; [congruence |].
      replace r' with r in Hclean by congruence. by rewrite Hclean in Hlen.
    + by eexists _, _.
  - rewrite compareAnnotations_rejected by done. by eexists _, _.
Qed.

Lemma sum_unit_bounds {A} (f : A -> Q) (l : list A) (acc : Q) :
  (forall x, 0 <= f x <= 1)%Q ->
  (acc <= fold_left (fun acc x => acc + f x) l acc
       <= acc + inject_Z (Z.of_nat (length l)))%Q.
Proof.
  intros Hf. revert acc. induction l as [|x l IH]; intros acc; cbn [fold_left length].
  - change (inject_Z (Z.of_nat 0)) with 0%Q. lra.
  - specialize (IH (acc + f x)%Q). specialize (Hf x).
    rewrite Nat2Z.inj_succ, <- Z.add_1_r, inject_Z_plus.
    change (inject_Z 1) with 1%Q. lra.
Qed.

Lemma mean_unit (total : Q) (n : nat) :
  (0 < n)%nat -> (0 <= total <= inject_Z (Z.of_nat n))%Q ->
  (0 <= total / inject_Z (Z.of_nat n) <= 1)%Q.
Proof.
  intros Hn [Hlo Hhi].
  assert (0 < inject_Z (Z.of_nat n))%Q as Hpos.
  { change 0%Q with (inject_Z 0). rewrite <- Zlt_Qlt. lia. }
  split.
  - apply Qle_shift_div_l; [done |]. lra.
  - apply Qle_shift_div_r; [done |]. lra.
Qed.

(** What holds of every summary. *)
Lemma summarize_bounds (annsA annsB : list Annotation)
    (ms : list AnnotationMatch) (note : string) :
  let c := summarize annsA annsB ms note in
  shared c = length ms
  /\ (onlyA c <= length annsA)%nat
  /\ (onlyB c <= length annsB)%nat
  /\ (0 <= sharedFraction c)%Q
  /\ (0 <= averageQuoteOverlap c <= 1)%Q
  /\ (0 <= averageCommentSimilarity c <= 1)%Q.
Proof.
  cbn zeta. unfold summarize. cbn zeta.
  cbn [shared onlyA onlyB sharedFraction averageQuoteOverlap averageCommentSimilarity].
  split; [done |]. split; [lia |]. split; [lia |]. split; [| split].
  - destruct (0 <? _)%nat; [apply Qmake_nonneg | done].
  - destruct (0 <? length ms)%nat eqn:Hn; [| done]. apply Nat.ltb_lt in Hn.
    apply toFixed_unit, mean_unit; [done |].
    pose proof (sum_unit_bounds
                  (fun m => quoteOverlapScore (fieldAt ann_quote annsA (aIndex m))
                              (fieldAt ann_quote annsB (bIndex m))) ms 0
                  (fun m => quoteOverlapScore_range _ _)) as H.
    cbn beta in H. lra.
  - destruct (0 <? length ms)%nat eqn:Hn; [| done]. apply Nat.ltb_lt in Hn.
    apply toFixed_unit, mean_unit; [done |].
    pose proof (sum_unit_bounds
                  (fun m => commentSimilarityScore
                              (fieldAt ann_comment annsA (aIndex m))
                              (fieldAt ann_comment annsB (bIndex m))) ms 0
                  (fun m => commentSimilarityScore_range _ _)) as H.
    cbn beta in H. lra.
Qed.

(** The heuristic's matches split both lists into matched and unmatched. *)
Lemma summarize_partition (annsA annsB : list Annotation) (note : string) :
  let c := summarize annsA annsB
             (fallbackAnnotationMatches (map view annsA) (map view annsB)) note in
  (shared c + onlyA c = length annsA)%nat
  /\ (shared c + onlyB c = length annsB)%nat
  /\ (sharedFraction c <= 1)%Q.
Proof.
  cbn zeta. unfold summarize. cbn zeta. cbn [shared onlyA onlyB sharedFraction].
  destruct (fallback_matchesOk (map view annsA) (map view annsB))
    as (_ & HnB & HnA & Hall).
  fold (fallbackAnnotationMatches (map view annsA) (map view annsB)) in *.
  set (ms := fallbackAnnotationMatches (map view annsA) (map view annsB)) in *.
  cbn [snd] in *. rewrite size_list_to_set by done. rewrite !length_map.
  assert (length ms <= length annsA)%nat as HA.
  { rewrite <- (length_map aIndex ms), <- (length_map view annsA).
    apply distinct_indices_bounded; [done |]. apply Forall_fmap.
    eapply Forall_impl; [exact Hall |]. by intros m (_ & ? & _). }
  assert (length ms <= length annsB)%nat as HB.
  { rewrite <- (length_map bIndex ms), <- (length_map view annsB).
    apply distinct_indices_bounded; [done |]. apply Forall_fmap.
    eapply Forall_impl; [exact Hall |]. by intros m (_ & _ & ? & _). }
  split; [lia |]. split; [lia |].
  destruct (0 <? _)%nat eqn:Hpos; [| done]. apply Nat.ltb_lt in Hpos.
  apply Qmake_le_1. rewrite Nat2Pos.id; lia.
Qed.

(** X10: with an empty list on either side, [compareAnnotations] makes
    no oracle call and emits nothing; nothing is shared, every annotation
    of the other list is on its own, and all ratios are 0. *)
Theorem compareAnnotations_empty_side (annsA annsB : list Annotation) (w : World) :
  annsA = [] \/ annsB = [] ->
  let r := compareAnnotations env annsA annsB w in
  trace r = []
  /\ exists c,
       outcome r = Returned c
       /\ shared c = 0%nat
       /\ onlyA c = length annsA
       /\ onlyB c = length annsB
       /\ (sharedFraction c == 0)%Q
       /\ cmp_note c = ""
       /\ averageQuoteOverlap c = 0%Q
       /\ averageCommentSimilarity c = 0%Q.
Proof.
  intros Hempty. cbn zeta. rewrite compareAnnotations_empty by done.
  split; [done |]. eexists. split; [done |].
  unfold summarize. cbn zeta.
  cbn [shared onlyA onlyB sharedFraction cmp_note averageQuoteOverlap
       averageCommentSimilarity length map list_to_set].
  rewrite size_empty, !Nat.sub_0_r.
  split; [done |]. split; [done |]. split; [done |]. split; [| done].
  by destruct (0 <? _)%nat.
Qed.


(** X12: whatever the judge answers, [compareAnnotations] returns counts
    within the sizes of the two lists and averages between 0 and 1; when
    the judge is silent the counts split the lists exactly
    ([shared + onlyA = |A|], [shared + onlyB = |B|]) and the shared
    fraction is at most 1. *)
Theorem compareAnnotations_counts (annsA annsB : list Annotation) (w : World) :
  exists c,
    outcome (compareAnnotations env annsA annsB w) = Returned c
    /\ (onlyA c <= length annsA)%nat
    /\ (onlyB c <= length annsB)%nat
    /\ (0 <= sharedFraction c)%Q
    /\ (0 <= averageQuoteOverlap c <= 1)%Q
    /\ (0 <= averageCommentSimilarity c <= 1)%Q
    /\ (judgeSilent env annsA annsB w ->
        (shared c + onlyA c = length annsA)%nat
        /\ (shared c + onlyB c = length annsB)%nat
        /\ (sharedFraction c <= 1)%Q).
Proof.
  destruct (compareAnnotations_summary annsA annsB w) as (ms & note & Hrun & Hsilent).
  exists (summarize annsA annsB ms note). split; [done |].
  destruct (summarize_bounds annsA annsB ms note) as (_ & ? & ? & ? & ? & ?).
  repeat (split; [done |]).
  intros Hs. rewrite (Hsilent Hs). apply summarize_partition.
Qed.

End ComparisonFacts.

Lemma compareAnnotations_empty_side_witness :
  trace (compareAnnotations obligingEnv []
           [sampleAnnotation "The gondola drifted" "Plausible."] freshWorld) = [].
Proof.
  apply (compareAnnotations_empty_side obligingEnv []
           [sampleAnnotation "The gondola drifted" "Plausible."] freshWorld).
  by left.
Defined.


Lemma compareAnnotations_counts_witness :
  exists c,
    outcome (compareAnnotations failingEnv
               [sampleAnnotation "The gondola drifted" "Plausible."]
               [sampleAnnotation "the gondola" "Plausible for 1740."] freshWorld)
    = Returned c
    /\ (shared c + onlyA c = 1)%nat /\ (shared c + onlyB c = 1)%nat
    /\ (sharedFraction c <= 1)%Q.
Proof.
  destruct (compareAnnotations_counts failingEnv
              [sampleAnnotation "The gondola drifted" "Plausible."]
              [sampleAnnotation "the gondola" "Plausible for 1740."] freshWorld)
    as (c & Hrun & _ & _ & _ & _ & _ & Hsilent).
  exists c. split; [exact Hrun |]. apply Hsilent. by left.
Defined.

(** ** Scores, token usage and the statistics of a deletion *)

Section ScoreFacts.

Lemma scoresFor_snoc categories raw key score cat :
  scoresFor categories (raw ++ [(key, score)]) cat
  = (scoresFor categories raw cat
     ++ if String.eqb (categoryIdOf categories key) cat then optional score else [])%list.
Proof.
  unfold scoresFor. rewrite omap_app. f_equal. cbn.
  by destruct (String.eqb _ _), score.
Qed.


End ScoreFacts.

Section UsageFacts.

(** X14: [buildStepTokenUsage] returns nothing exactly when neither call
    reported its usage; otherwise it lists the generator's call before the
    evaluator's, each under its own model, and the aggregate is the sum of
    the calls listed. *)
Theorem buildStepTokenUsage_aggregate (generatorModelId evaluatorModelId : string)
    (genUsage evalUsage : option TokenUsage) (info : option UsageMeta) :
  let r := buildStepTokenUsage generatorModelId evaluatorModelId genUsage evalUsage
             info in
  (r = None <-> genUsage = None /\ evalUsage = None)
  /\ forall u, r = Some u ->
       calls u
       = ((mkCallUsage generatorModelId generator <$> optional genUsage)
          ++ (mkCallUsage evaluatorModelId evaluator <$> optional evalUsage))%list
       /\ aggregate u
          = fold_right addUsage (mkUsage 0 0 0)
              (optional genUsage ++ optional evalUsage)
       /\ meta u = info.
Proof.
  cbn zeta. unfold buildStepTokenUsage, callUsage.
  destruct genUsage as [[gp go gt]|], evalUsage as [[ep eo et]|];
    cbn [length Nat.eqb app fold_left optional fold_right fmap list_fmap
         call_usage promptTokens outputTokens totalTokens addUsage].
  - split; [split; [done | by intros [? ?]] |]. intros u [= <-].
    cbn [calls aggregate meta]. split; [done |].
    split; [unfold addUsage; cbn; f_equal; lia | done].
  - split; [split; [done | by intros [? ?]] |]. intros u [= <-].
    cbn [calls aggregate meta]. split; [done |].
    split; [unfold addUsage; cbn; f_equal; lia | done].
  - split; [split; [done | by intros [? ?]] |]. intros u [= <-].
    cbn [calls aggregate meta]. split; [done |].
    split; [unfold addUsage; cbn; f_equal; lia | done].
  - split; [done |]. intros u Hu. discriminate.
Qed.

Lemma buildStepTokenUsage_aggregate_witness :
  exists u,
    buildStepTokenUsage "flash" "pro" (Some (mkUsage 12 30 42))
      (Some (mkUsage 50 8 58)) None = Some u
    /\ aggregate u = mkUsage 62 38 100.
Proof.
  eexists. split; [reflexivity |].
  apply (buildStepTokenUsage_aggregate "flash" "pro" (Some (mkUsage 12 30 42))
           (Some (mkUsage 50 8 58)) None). reflexivity.
Defined.

End UsageFacts.

Section DeletionFacts.

Variable diffWords : Differ.

Lemma toFixed_integer (d : nat) (n : nat) :
  (Js.toFixed d (Z.of_nat n # 1) == inject_Z (Z.of_nat n))%Q.
Proof.
  pose proof (scale_pos d) as Hs.
  rewrite (toFixed_comp d _ (Z.of_nat n * 10 ^ Z.of_nat d # Z.to_pos (10 ^ Z.of_nat d))).
  - rewrite toFixed_exact. unfold Qeq, inject_Z. cbn [Qnum Qden].
    rewrite Z2Pos.id by done. lia.
  - unfold Qeq. cbn [Qnum Qden]. rewrite Z2Pos.id by done. lia.
Qed.

(** X15: the statistics of a deletion.  When the new text is empty and
    the old one is not, the diff is one removed part, and the change ratio
    is the length of the old text: the ratio divides by [newText.length || 1]
    and is not bounded by 1.  Two empty texts have all statistics at 0. *)
Theorem calculateDiffStats_deletion (oldText : string) :
  calculateDiffStats diffWords "" "" = mkStats 0 0 0 0 (Js.toFixed 4 (0 # 1))
  /\ (oldText <> "" ->
      let stats := calculateDiffStats diffWords oldText "" in
      calculateDiff diffWords oldText "" = [mkPart oldText false true]
      /\ additions stats = 0%nat
      /\ deletions stats = 1%nat
      /\ addedLength stats = 0%nat
      /\ removedLength stats = String.length oldText
      /\ (changeRatio stats == inject_Z (Z.of_nat (String.length oldText)))%Q).
Proof.
  split; [reflexivity |]. intros Hne. cbn zeta.
  unfold calculateDiffStats, calculateDiff.
  destruct oldText as [|c s]; [done |].
  cbn [Js.truthy negb andb fold_left countPart added removed value String.length
       additions deletions addedLength removedLength changeRatio Nat.add].
  repeat (split; [done |]). apply toFixed_integer.
Qed.

End DeletionFacts.

Lemma calculateDiffStats_deletion_witness :
  (changeRatio (calculateDiffStats wholeTextDiffer "The gondola drifted." "") == 20)%Q.
Proof.
  apply (calculateDiffStats_deletion wholeTextDiffer "The gondola drifted.").
  discriminate.
Defined.

(** ** More on the step parser and the oracle client *)

Section TrimFacts.

Import Js.

Lemma trimStart_head (s : string) : headSpace (trimStart s) = false.
Proof.
  induction s as [|c s IH]; [done |]. cbn [trimStart].
  by destruct (isSpace c) eqn:Hc; [| cbn [headSpace]].
Qed.

Lemma trimStart_fixed (s : string) : headSpace s = false -> trimStart s = s.
Proof. destruct s as [|c s]; [done |]. cbn [headSpace trimStart]. by intros ->. Qed.

Lemma trimEnd_head (s : string) : headSpace s = false -> headSpace (trimEnd s) = false.
Proof.
  destruct s as [|c s]; [done |]. cbn [headSpace trimEnd]. intros Hc.
  destruct (trimEnd s); [by rewrite Hc | done].
Qed.

Lemma trimEnd_idem (s : string) : trimEnd (trimEnd s) = trimEnd s.
Proof.
  induction s as [|c s IH]; [done |]. cbn [trimEnd].
  destruct (trimEnd s) as [|d r] eqn:Hr.
  - destruct (isSpace c) eqn:Hc; [done |]. cbn [trimEnd]. by rewrite Hc.
  - cbn [trimEnd]. cbn [trimEnd] in IH. by rewrite IH.
Qed.

(** Trimming twice is trimming once. *)
Lemma trim_idem (s : string) : trim (trim s) = trim s.
Proof.
  unfold trim. rewrite (trimStart_fixed (trimEnd (trimStart s))).
  - apply trimEnd_idem.
  - apply trimEnd_head, trimStart_head.
Qed.

Lemma trim_blank_visible (s : string) : trim s = "" -> visible s = "".
Proof.
  unfold trim. intros H. apply trimEnd_empty in H. by rewrite visible_trimStart in H.
Qed.

Lemma blank_mentions (c : ascii) (s : string) :
  isSpace c = false -> visible s = "" -> mentions c s = false.
Proof.
  intros Hc. unfold visible. induction s as [|d s IH]; [done |].
  cbn [filterChars mentions]. destruct (isSpace d) eqn:Hd; cbn [negb]; [| done].
  intros H. rewrite (IH H), orb_false_r.
  destruct (Ascii.eqb_spec c d) as [->|]; [congruence | done].
Qed.

End TrimFacts.

Section SegmentFacts.

Import Js StepParser.

Lemma flushSegment_tidy (p : Parser) :
  Forall tidySegment (segments p) -> Forall tidySegment (segments (flushSegment p)).
Proof.
  intros Hp. unfold flushSegment. cbn [segments].
  destruct (truthy (trim (currentThought p)) || truthy (trim (currentText p))) eqn:Hne;
    [| done].
  apply Forall_app. split; [done |]. apply Forall_singleton.
  unfold tidySegment. cbn [thought text]. rewrite !trim_idem.
  split; [done |]. split; [done |].
  apply orb_true_iff in Hne as [H|H]; [left | right]; by apply truthy_true.
Qed.

Lemma absorb_segments (p : Parser) (chunk : string) :
  segments (absorb p chunk) = segments p.
Proof. unfold absorb. by destruct (readingThought p), (readingText p). Qed.

Lemma onTag_tidy (p : Parser) (tag : Tag) :
  Forall tidySegment (segments p) -> Forall tidySegment (segments (onTag p tag)).
Proof.
  intros Hp. pose proof (flushSegment_tidy p Hp) as Hflush.
  unfold onTag. destruct (isClosing tag), (tagName tag); cbn [setReading segments].
  - done.
  - destruct (_ && _ && _); [done |].
    destruct (readingText p); [by apply (flushSegment_tidy (setReading p _ _)) |].
    by destruct (_ || _).
  - by destruct (_ || _).
  - destruct (readingText p && _); cbn [segments];
      match goal with |- context [if ?b then _ else _] => destruct b end; done.
Qed.

Lemma loop_tidy (items : list (string * Tag)) (p : Parser) :
  Forall tidySegment (segments p) ->
  Forall tidySegment (segments (fold_left onMatch items p)).
Proof.
  revert p. induction items as [|m items IH]; intros p Hp; [done |].
  cbn [fold_left]. apply IH. unfold onMatch. apply onTag_tidy.
  by rewrite absorb_segments.
Qed.

Lemma recovered_tidy (items : list (string * Tag)) (remainder : string) :
  Forall tidySegment (recovered items remainder).
Proof.
  unfold recovered. cbn zeta.
  assert (Forall tidySegment
            (segments (absorb (fold_left onMatch items initial) remainder))) as Hp.
  { rewrite absorb_segments. apply loop_tidy. constructor. }
  destruct (_ || _); [by apply flushSegment_tidy | done].
Qed.

(** X16: every segment that [parseStepByStepSegments] returns is tidy:
    its thought and its text are trimmed, and they are not both empty.
    This holds for every input, well-formed or not. *)
Theorem parseStepByStepSegments_tidy (input : string) :
  Forall tidySegment (parseStepByStepSegments input).
Proof.
  unfold parseStepByStepSegments. cbn zeta.
  destruct (tagMatches (normalizeStepTags input)) as [items remainder].
  pose proof (recovered_tidy items remainder) as Hsegs.
  destruct ((length (recovered items remainder) =? 0)%nat
            && truthy (trim (normalizeStepTags input))) eqn:Hfall; [| done].
  apply andb_true_iff in Hfall as [_ Hne]. apply Forall_singleton.
  unfold tidySegment. cbn [thought text]. rewrite trim_idem.
  split; [done |]. split; [done |]. right. by apply truthy_true.
Qed.

(** What the parser makes of an input without a closing bracket. *)
Lemma parseStepByStepSegments_plain (input : string) :
  mentions "]" input = false ->
  parseStepByStepSegments input
  = if truthy (trim input) then [mkSegment "" (trim input)] else [].
Proof.
  intros Hplain. unfold parseStepByStepSegments.
  rewrite normalizeStepTags_plain by done. unfold tagMatches.
  rewrite scanTags_plain by done. by rewrite recovered_nothing.
Qed.

(** X17: [parseStepByStepSegments] returns no segment exactly when its
    input, after tag normalisation, is blank; in particular a blank input
    (empty, or white space only) gives no segment. *)
Theorem parseStepByStepSegments_nothing (input : string) :
  (parseStepByStepSegments input = [] <-> trim (normalizeStepTags input) = "")
  /\ (trim input = "" -> parseStepByStepSegments input = []).
Proof.
  assert (forall s, trim s = "" -> parseStepByStepSegments s = []
                                   /\ normalizeStepTags s = s) as Hblank.
  { intros s Hs.
    assert (mentions "]" s = false) as Hplain
      by (apply blank_mentions; [done | by apply trim_blank_visible]).
    rewrite parseStepByStepSegments_plain, normalizeStepTags_plain, Hs by done.
    done. }
  split; [| by intros H; apply Hblank].
  split.
  - unfold parseStepByStepSegments. cbn zeta.
    destruct (tagMatches (normalizeStepTags input)) as [items remainder].
    destruct (recovered items remainder) as [|seg segs]; [| done].
    cbn [length Nat.eqb andb].
    destruct (trim (normalizeStepTags input)); done.
  - intros Hnorm. unfold parseStepByStepSegments. cbn zeta.
    assert (mentions "]" (normalizeStepTags input) = false) as Hplain
      by (apply blank_mentions; [done | by apply trim_blank_visible]).
    unfold tagMatches. rewrite scanTags_plain by done.
    by rewrite recovered_nothing, Hnorm.
Qed.

Lemma parseStepByStepSegments_nothing_witness :
  parseStepByStepSegments (String " " (String LF " ")) = [].
Proof.
  apply (parseStepByStepSegments_nothing (String " " (String LF " "))).
  reflexivity.
Defined.

End SegmentFacts.

Section ClientFacts.

Import Js StepParser.

Variable env : Env.

Lemma mentions_trimEnd c (s : string) :
  mentions c (trimEnd s) = true -> mentions c s = true.
Proof.
  induction s as [|d s IH]; [done |]. cbn [trimEnd mentions].
  destruct (trimEnd s) as [|e r].
  - destruct (isSpace d); [done |]. cbn [mentions]. rewrite orb_false_r.
    intros ->. done.
  - cbn [mentions] in *. intros [->|H]%orb_true_iff; [done |].
    rewrite IH by done. apply orb_true_r.
Qed.

Lemma mentions_trim c (s : string) : mentions c s = false -> mentions c (trim s) = false.
Proof.
  intros Hs. destruct (mentions c (trim s)) eqn:Ht; [| done].
  apply mentions_trimEnd, mentions_trimStart in Ht. congruence.
Qed.

(** X18: [generateNarrative] calls the oracle once.  A rejected call is
    rethrown.  A resolved call returns the usage the response reports and a
    trimmed text: in the direct and the refinement mode the trimmed response,
    without thoughts; in the step-by-step mode, for a response without any
    tag, the trimmed response with its runs of three or more line feeds cut
    down to two, without thoughts.  No thought returned is empty. *)
Theorem generateNarrative_outcome (purpose : Purpose) (method : GenerationMethod)
    (w : World) :
  let r := generateNarrative env purpose method w in
  (generateContent env (oracleCalls w) = None ->
   r = (Thrown, [OracleCall purpose false], mkWorld (S (oracleCalls w)) (uuids w)))
  /\ (forall response,
        generateContent env (oracleCalls w) = Some response ->
        trace r = [OracleCall purpose true]
        /\ exists g,
             outcome r = Returned g
             /\ gen_tokenUsage g = usageMetadata response
             /\ trim (gen_text g) = gen_text g
             /\ Forall (fun t => t <> "") (gen_thoughts g)
             /\ (method <> STEP_BY_STEP ->
                 gen_text g = trim (responseText response) /\ gen_thoughts g = [])
             /\ (method = STEP_BY_STEP ->
                 mentions "]" (responseText response) = false ->
                 gen_text g = trim (squeezeNewlines 0 (trim (responseText response)))
                 /\ gen_thoughts g = [])).
Proof.
  cbn zeta. unfold generateNarrative. rewrite run_bind. unfold callModel.
  split; [by intros -> |]. intros response ->.
  unfold extractTextFromResponse.
  assert (forall l, Forall (fun t => t <> "") (List.filter truthy l)) as Hthoughts.
  { intros l. apply Forall_forall. intros t Ht.
    apply list_elem_of_In, List.filter_In in Ht as [_ Ht]. by apply truthy_true. }
  destruct method.
  - split; [done |]. eexists. split; [done |]. cbn [gen_tokenUsage gen_text gen_thoughts].
    split; [done |]. split; [apply trim_idem |]. split; [constructor |]. done.
  - split; [done |]. eexists. split; [done |]. cbn [gen_tokenUsage gen_text gen_thoughts].
    split; [done |].
    split; [destruct (0 <? _)%nat; apply trim_idem |].
    split; [apply Hthoughts |]. split; [done |]. intros _ Hplain.
    rewrite parseStepByStepSegments_plain by by apply mentions_trim.
    rewrite trim_idem.
    destruct (trim (responseText response)) as [|c s] eqn:Hraw; [done |].
    cbn [truthy map thought text List.filter length Nat.ltb Nat.leb String.concat].
    done.
  - split; [done |]. eexists. split; [done |]. cbn [gen_tokenUsage gen_text gen_thoughts].
    split; [done |]. split; [apply trim_idem |]. split; [constructor |]. done.
Qed.

(** X19: [evaluateCoherence] calls the oracle once and never throws.  A
    rejected call and an answer that cannot be decoded both give the empty
    evaluation, without annotations, scores or token usage; a decoded
    answer gives its annotations and scores with the usage of the call. *)
Theorem evaluateCoherence_never_throws (w : World) :
  let r := evaluateCoherence env w in
  let jsonText response :=
    if truthy (trim (responseText response)) then trim (responseText response)
    else "{}" in
  (exists e, outcome r = Returned e)
  /\ (exists ok, trace r = [OracleCall Evaluation ok])
  /\ (generateContent env (oracleCalls w) = None ->
      outcome r = Returned (mkEvaluation [] [] None))
  /\ (forall response,
        generateContent env (oracleCalls w) = Some response ->
        outcome r
        = Returned
            match parseEvaluation env (jsonText response) with
            | Some parsed =>
                mkEvaluation (payload_annotations parsed) (payload_scores parsed)
                  (usageMetadata response)
            | None => mkEvaluation [] [] None
            end).
Proof.
  cbn zeta. unfold evaluateCoherence, tryCatch. rewrite run_bind. unfold callModel.
  unfold extractTextFromResponse.
  destruct (generateContent env (oracleCalls w)) as [response|].
  - destruct (parseEvaluation env _) as [parsed|] eqn:Hparse.
    + split; [by eexists |]. split; [by eexists |]. split; [done |].
      intros ? [= <-]. by rewrite Hparse.
    + split; [by eexists |]. split; [by eexists |]. split; [done |].
      intros ? [= <-]. by rewrite Hparse.
  - split; [by eexists |]. split; [by eexists |]. done.
Qed.

End ClientFacts.

Lemma generateNarrative_outcome_witness :
  generateNarrative failingEnv Generation STANDARD freshWorld
  = (Thrown, [OracleCall Generation false], mkWorld 1 0)
  /\ trace (generateNarrative obligingEnv Generation STEP_BY_STEP freshWorld)
     = [OracleCall Generation true].
Proof.
  split.
  - apply (generateNarrative_outcome failingEnv Generation STANDARD freshWorld).
    reflexivity.
  - exact (proj1 (proj2 (generateNarrative_outcome obligingEnv Generation
                           STEP_BY_STEP freshWorld) sampleResponse eq_refl)).
Defined.

Lemma evaluateCoherence_never_throws_witness :
  outcome (evaluateCoherence failingEnv freshWorld)
  = Returned (mkEvaluation [] [] None).
Proof.
  apply (evaluateCoherence_never_throws failingEnv freshWorld). reflexivity.
Defined.

(** ** The generation step *)

Section StepFacts.

Variable env : Env.

Lemma run_ret {A} (a : A) (w : World) : (mret a : Exec A) w = (Returned a, [], w).
Proof. reflexivity. Qed.

Lemma run_seq {A} (e : Event) (m : Exec A) (w : World) :
  (emit e ;; m) w = let '(r, ev, w') := m w in (r, e :: ev, w').
Proof. reflexivity. Qed.

Lemma materialize_run (raw : list RawAnnotation) (w : World) :
  materialize raw w
  = (Returned (numbered (uuids w) raw), [], afterUuids (length raw) w).
Proof.
  revert w. induction raw as [|a raw IH]; intros w.
  - by destruct w.
  - cbn [materialize]. rewrite run_bind. unfold randomUUID at 1.
    rewrite run_bind, IH. unfold afterUuids.
    cbn [numbered length uuids oracleCalls app]. rewrite run_ret.
    unfold evaluatorAnnotation. do 2 f_equal. lia.
Qed.

Lemma evaluateCoherence_run (w : World) :
  exists e ok,
    evaluateCoherence env w = (Returned e, [OracleCall Evaluation ok], afterCalls 1 w)
    /\ (ok = true <-> nextCall env w <> None).
Proof.
  unfold evaluateCoherence, tryCatch, nextCall. rewrite run_bind. unfold callModel.
  destruct (generateContent env (oracleCalls w)) as [response|].
  - destruct (parseEvaluation env _) as [parsed|]; by eexists _, true.
  - eexists _, false. split; [done |]. split; [done | by intros H].
Qed.

Lemma run_emit (e : Event) (w : World) : emit e w = (Returned tt, [e], w).
Proof. reflexivity. Qed.

Lemma run_randomUUID (w : World) :
  randomUUID w = (Returned (uuids w), [], afterUuids 1 w).
Proof. reflexivity. Qed.

(** One computation step of a [bind] chain whose head is known. *)
Ltac crunch Hgen Heval :=
  repeat (progress (rewrite ?run_bind, ?run_emit, ?Hgen, ?Heval, ?run_randomUUID,
                      ?materialize_run, ?run_ret;
                    cbn beta iota zeta)).

(** A step whose generation call resolves, in full. *)
Lemma runGenerationStep_run config rid rlabel previousStep resources
    active methodOverride stepNo iter w g e ok :
  generateNarrative env Generation (methodOf previousStep methodOverride) w
  = (Returned g, [OracleCall Generation true], afterCalls 1 w) ->
  evaluateCoherence env (afterCalls 1 w)
  = (Returned e, [OracleCall Evaluation ok], afterCalls 2 w) ->
  exists doc logs,
    runGenerationStep env config rid rlabel previousStep resources
      active methodOverride stepNo iter w
    = (Returned doc,
       LogLine ("Generating ("
                ++ methodName (methodOf previousStep methodOverride) ++ ")...")
         :: OracleCall Generation true :: Delay (pause config)
         :: LogLine "Evaluating..."
         :: OracleCall Evaluation ok :: Delay (pause config) :: logs,
       afterUuids (length (eval_annotations e)) (afterUuids 1 (afterCalls 2 w)))
    /\ Forall isLog logs
    /\ id doc = uuids w
    /\ annotations doc = numbered (S (uuids w)) (eval_annotations e)
    /\ content doc = gen_text g
    /\ thoughts doc = gen_thoughts g
    /\ parentId doc = id <$> previousStep
    /\ method doc = methodOf previousStep methodOverride
    /\ taskPromptSnapshot doc = taskPromptOf config previousStep methodOverride
    /\ diffStats doc
       = (fun prev => calculateDiffStats (diffWords env) (content prev) (gen_text g))
           <$> previousStep
    /\ stepConfig doc
       = match methodOf previousStep methodOverride with
         | STEP_BY_STEP => cfg_stepConfig config
         | _ => None
         end
    /\ activeResourceIds doc
       = match refineConfig config with
         | Some rc => rc_activeResourceIds rc
         | None => active
         end
    /\ scores doc = normalizeScores (evaluationCategories config) (eval_scores e)
    /\ tokenUsage doc
       = buildStepTokenUsage (generatorModelId config) (evaluatorModelId config)
           (gen_tokenUsage g) (eval_tokenUsage e)
           (Some (mkMeta rid rlabel stepNo iter
                    (methodOf previousStep methodOverride)))
    /\ experimentId doc = Some (cfg_id config)
    /\ runId doc = Some rid
    /\ runLabel doc = Some rlabel.
Proof.
  intros Hgen Heval. unfold runGenerationStep.
  destruct previousStep as [prev|], methodOverride as [[]|]; cbn [methodOf] in *.
  all: cbn zeta; unfold stepDelay, delay, onLog.
  all: crunch Hgen Heval.
  all: match goal with
       | |- context [buildStepTokenUsage ?a ?b ?c ?d ?m] =>
           destruct (buildStepTokenUsage a b c d m) as [u|] eqn:Husage
       end.
  all: crunch Hgen Heval; cbn [app].
  all: eexists _, _; split; [reflexivity |].
  all: split; [repeat constructor |].
  all: cbn [id annotations content thoughts parentId method taskPromptSnapshot
            diffStats stepConfig activeResourceIds scores tokenUsage experimentId
            runId runLabel methodOf taskPromptOf fmap option_fmap option_map].
  all: try rewrite <- Husage.
  all: by destruct (refineConfig config).
Qed.

Lemma generateNarrative_run (purpose : Purpose) (method : GenerationMethod)
    (w : World) (response : Response) :
  nextCall env w = Some response ->
  exists g,
    generateNarrative env purpose method w
    = (Returned g, [OracleCall purpose true], afterCalls 1 w).
Proof.
  unfold nextCall, generateNarrative. intros Hcall. rewrite run_bind.
  unfold callModel. rewrite Hcall. destruct method; by eexists.
Qed.

Lemma runGenerationStep_rejected config rid rlabel previousStep resources
    active methodOverride stepNo iter w :
  nextCall env w = None ->
  runGenerationStep env config rid rlabel previousStep resources active
    methodOverride stepNo iter w
  = (Thrown,
     [LogLine ("Generating ("
               ++ methodName (methodOf previousStep methodOverride) ++ ")...");
      OracleCall Generation false],
     afterCalls 1 w).
Proof.
  unfold nextCall. intros Hcall. unfold runGenerationStep.
  destruct previousStep as [prev|], methodOverride as [[]|]; cbn [methodOf].
  all: cbn zeta; unfold onLog, generateNarrative.
  all: repeat (progress (rewrite ?run_bind, ?run_emit; cbn beta iota zeta)).
  all: unfold callModel; by rewrite Hcall.
Qed.



End StepFacts.



(** ** The dashboard's run table and its resolver *)

Section TableFacts.

Lemma pretty_N_go_nonempty (x : N) (s : string) : s <> "" -> pretty_N_go x s <> "".
Proof.
  revert s. induction (N.lt_wf_0 x) as [x _ IH]. intros s Hs.
  destruct (decide (x = 0%N)) as [->|Hx].
  - by rewrite pretty_N_go_0.
  - rewrite pretty_N_go_step by lia. apply IH; [| done].
    apply N.div_lt; lia.
Qed.

Lemma uuidText_truthy (n : nat) : Js.truthy (uuidText n) = true.
Proof.
  apply truthy_true. unfold uuidText, pretty, pretty_nat, pretty, pretty_N.
  destruct (decide (N.of_nat n = 0%N)); [done |].
  rewrite pretty_N_go_step by lia. by apply pretty_N_go_nonempty.
Qed.

Lemma uuidText_inj (m n : nat) : uuidText m = uuidText n -> m = n.
Proof. apply pretty_nat_inj. Qed.

Lemma variantLabel_inj (i j : nat) : variantLabel i = variantLabel j -> i = j.
Proof.
  unfold variantLabel. intros H.
  apply (inj (String.app "Variant ")) in H.
  apply pretty_Z_inj in H. lia.
Qed.

Lemma newRun_run (config : ExperimentConfig) (i : nat) (label : string) (w : World) :
  Dashboard.newRun config i label w
  = (Returned (row config (uuids w) i label), [], afterUuids 1 w).
Proof. reflexivity. Qed.

Lemma pushOne_run config label i acc w :
  Dashboard.pushOne config label i acc w
  = (Returned (acc ++ [row config (uuids w) i (label i)])%list, [], afterUuids 1 w).
Proof. reflexivity. Qed.

Lemma pushTwo_run config labelA labelB i acc w :
  Dashboard.pushTwo config labelA labelB i acc w
  = (Returned (acc ++ [row config (uuids w) i labelA;
                       row config (S (uuids w)) i labelB])%list,
     [], afterUuids 2 w).
Proof. reflexivity. Qed.

Lemma pushOne_loop config label n from acc w :
  forRange n from (Dashboard.pushOne config label) acc w
  = (Returned
       (acc ++ map (fun k => row config (uuids w + (k - from)) k (label k))
                 (seq from n))%list,
     [], afterUuids n w).
Proof.
  revert from acc w. induction n as [|n IH]; intros from acc w.
  - cbn [forRange seq map]. rewrite app_nil_r. by destruct w.
  - cbn [forRange]. rewrite run_bind, pushOne_run. cbn beta iota zeta.
    rewrite IH. cbn [seq map app afterUuids uuids oracleCalls].
    rewrite <- app_assoc. cbn [app].
    replace (uuids w + (from - from))%nat with (uuids w) by lia.
    rewrite (map_ext_in _ (fun k => row config (uuids w + (k - from)) k (label k)))
      by (intros k Hk%in_seq; f_equal; lia).
    f_equal. unfold afterUuids. cbn. f_equal. lia.
Qed.

Lemma pushTwo_loop config labelA labelB n from acc w :
  forRange n from (Dashboard.pushTwo config labelA labelB) acc w
  = (Returned
       (acc ++ flat_map
                 (fun k => [row config (uuids w + 2 * (k - from)) k labelA;
                            row config (uuids w + 2 * (k - from) + 1) k labelB])
                 (seq from n))%list,
     [], afterUuids (2 * n) w).
Proof.
  revert from acc w. induction n as [|n IH]; intros from acc w.
  - cbn [forRange seq flat_map]. rewrite app_nil_r. by destruct w.
  - cbn [forRange]. rewrite run_bind, pushTwo_run. cbn beta iota zeta.
    rewrite IH. cbn [seq flat_map app afterUuids uuids oracleCalls].
    rewrite <- app_assoc. cbn [app].
    replace (uuids w + 2 * (from - from))%nat with (uuids w) by lia.
    replace (uuids w + 1)%nat with (S (uuids w)) by lia.
    rewrite !flat_map_concat_map.
    rewrite (map_ext_in _
               (fun k => [row config (uuids w + 2 * (k - from)) k labelA;
                          row config (uuids w + 2 * (k - from) + 1) k labelB]))
      by (intros k Hk%in_seq; f_equal; [| f_equal]; f_equal; lia).
    f_equal. unfold afterUuids. cbn. f_equal. lia.
Qed.

Lemma tableOne_length config label first n :
  length (tableOne config label first n) = n.
Proof. unfold tableOne. by rewrite length_map, length_seq. Qed.

Lemma length_pairs {A B} (f g : A -> B) (l : list A) :
  length (flat_map (fun k => [f k; g k]) l) = (2 * length l)%nat.
Proof.
  induction l as [|k l IH]; [reflexivity |].
  cbn [flat_map app length]. rewrite IH. lia.
Qed.

Lemma tableTwo_length config labelA labelB first n :
  length (tableTwo config labelA labelB first n) = (2 * n)%nat.
Proof. unfold tableTwo. by rewrite length_pairs, length_seq. Qed.

Lemma newRuns_run (config : ExperimentConfig) (w : World) :
  Dashboard.newRuns config w
  = (Returned (tableOf config (uuids w)), [],
     afterUuids (length (tableOf config (uuids w))) w).
Proof.
  unfold Dashboard.newRuns, tableOf.
  destruct (cfg_type config);
    rewrite ?pushOne_loop, ?pushTwo_loop, ?tableOne_length, ?tableTwo_length;
    cbn [app]; unfold tableOne, tableTwo; f_equal; f_equal; f_equal.
  all: try (apply map_ext; intros k; f_equal; lia).
  all: rewrite !flat_map_concat_map; f_equal; apply map_ext; intros k;
    (f_equal; [| f_equal]); f_equal; lia.
Qed.

Lemma lookup_map_seq {A} (f : nat -> A) (n i : nat) :
  (i < n)%nat -> map f (seq 0 n) !! i = Some (f i).
Proof.
  intros Hi. change (map f (seq 0 n)) with (f <$> seq 0 n).
  rewrite list_lookup_fmap, lookup_seq_lt by done. done.
Qed.

Lemma filter_all {A} (p : A -> bool) (l : list A) :
  Forall (fun a => p a = true) l -> List.filter p l = l.
Proof.
  induction 1 as [|a l Ha _ IH]; [done |]. cbn [List.filter]. by rewrite Ha, IH.
Qed.

Lemma filter_none {A} (p : A -> bool) (l : list A) :
  Forall (fun a => p a = false) l -> List.filter p l = [].
Proof.
  induction 1 as [|a l Ha _ IH]; [done |]. cbn [List.filter]. by rewrite Ha, IH.
Qed.

(** Filtering a table built over a range of rounds for the one round that
    passes leaves at most that round. *)
Lemma filter_one_round {A} (p : A -> bool) (f : nat -> A) (j from n : nat) :
  (forall k, p (f k) = true <-> k = j) ->
  List.filter p (map f (seq from n))
  = if decide (from <= j < from + n)%nat then [f j] else [].
Proof.
  intros Hp. revert from. induction n as [|n IH]; intros from.
  - cbn. case_decide; [lia | done].
  - cbn [seq map List.filter]. rewrite IH.
    destruct (p (f from)) eqn:Hfrom.
    + apply Hp in Hfrom as ->. do 2 case_decide; try lia. done.
    + assert (from <> j) by (intros ->; rewrite (proj2 (Hp j) eq_refl) in Hfrom; done).
      do 2 case_decide; try lia; done.
Qed.

Lemma filter_two_first {A} (p : A -> bool) (f g : nat -> A) (from n : nat) :
  (forall k, p (f k) = true) -> (forall k, p (g k) = false) ->
  List.filter p (flat_map (fun k => [f k; g k]) (seq from n)) = map f (seq from n).
Proof.
  intros Hf Hg. revert from. induction n as [|n IH]; intros from; [done |].
  cbn [seq flat_map map app List.filter]. by rewrite Hf, Hg, IH.
Qed.

Lemma filter_two_second {A} (p : A -> bool) (f g : nat -> A) (from n : nat) :
  (forall k, p (f k) = false) -> (forall k, p (g k) = true) ->
  List.filter p (flat_map (fun k => [f k; g k]) (seq from n)) = map g (seq from n).
Proof.
  intros Hf Hg. revert from. induction n as [|n IH]; intros from; [done |].
  cbn [seq flat_map map app List.filter]. by rewrite Hf, Hg, IH.
Qed.

Lemma elem_of_tableOne config label first n k :
  (k < n)%nat -> row config (first + k) k (label k) ∈ tableOne config label first n.
Proof.
  intros Hk. unfold tableOne. apply list_elem_of_In, in_map_iff.
  exists k. split; [done |]. apply in_seq. lia.
Qed.

Lemma elem_of_tableTwo config labelA labelB first n k :
  (k < n)%nat ->
  row config (first + 2 * k) k labelA ∈ tableTwo config labelA labelB first n
  /\ row config (first + 2 * k + 1) k labelB ∈ tableTwo config labelA labelB first n.
Proof.
  intros Hk. unfold tableTwo.
  split; apply list_elem_of_In, in_flat_map; exists k;
    (split; [apply in_seq; lia |]); cbn; auto.
Qed.

(** The resolver on a table with one run per round and one label. *)
Lemma resolves_one config fresh L first n i :
  (i < n)%nat -> resolves (tableOne config (fun _ => L) first n) fresh L i.
Proof.
  intros Hi. exists (row config (first + i) i L).
  split; [by apply (elem_of_tableOne config (fun _ => L)) |].
  split; [done |]. split; [done |].
  unfold Dashboard.getRunIdByLabel. cbn zeta.
  rewrite filter_all.
  2:{ unfold tableOne. apply Forall_forall. intros r [k [<- _]]%list_elem_of_In%in_map_iff.
      cbn. apply String.eqb_refl. }
  destruct (Z.ltb_spec (Z.of_nat i) 0); [lia |]. rewrite Nat2Z.id.
  unfold tableOne. rewrite lookup_map_seq by done.
  cbn [row run_id]. by rewrite uuidText_truthy.
Qed.

(** The resolver on a table with two runs per round. *)
Lemma resolves_two config fresh labelA labelB first n i :
  labelA <> labelB -> (i < n)%nat ->
  resolves (tableTwo config labelA labelB first n) fresh labelA i
  /\ resolves (tableTwo config labelA labelB first n) fresh labelB i.
Proof.
  intros Hne Hi.
  destruct (elem_of_tableTwo config labelA labelB first n i Hi) as [HA HB].
  split.
  - exists (row config (first + 2 * i) i labelA).
    split; [done |]. split; [done |]. split; [done |].
    unfold Dashboard.getRunIdByLabel, tableTwo. cbn zeta.
    rewrite filter_two_first.
    2:{ intros k. cbn. apply String.eqb_refl. }
    2:{ intros k. cbn. apply String.eqb_neq. congruence. }
    destruct (Z.ltb_spec (Z.of_nat i) 0); [lia |]. rewrite Nat2Z.id.
    rewrite lookup_map_seq by done. cbn [row run_id]. by rewrite uuidText_truthy.
  - exists (row config (first + 2 * i + 1) i labelB).
    split; [done |]. split; [done |]. split; [done |].
    unfold Dashboard.getRunIdByLabel, tableTwo. cbn zeta.
    rewrite filter_two_second.
    2:{ intros k. cbn. apply String.eqb_neq. congruence. }
    2:{ intros k. cbn. apply String.eqb_refl. }
    destruct (Z.ltb_spec (Z.of_nat i) 0); [lia |]. rewrite Nat2Z.id.
    rewrite lookup_map_seq by done. cbn [row run_id]. by rewrite uuidText_truthy.
Qed.

(** The variants of a consistency table: one run per label, so only a
    request at index 0 finds it. *)
Lemma variants_filter config first n j :
  List.filter (fun r => String.eqb (run_label r) (variantLabel j))
    (tableOne config variantLabel first n)
  = if decide (j < n)%nat then [row config (first + j) j (variantLabel j)] else [].
Proof.
  unfold tableOne.
  rewrite (filter_one_round _ (fun k => row config (first + k) k (variantLabel k)) j).
  - do 2 case_decide; try lia; done.
  - intros k. cbn [row run_label]. rewrite String.eqb_eq. split.
    + apply variantLabel_inj.
    + by intros ->.
Qed.

Lemma variants_first config fresh first n :
  (0 < n)%nat -> resolves (tableOne config variantLabel first n) fresh (variantLabel 0) 0.
Proof.
  intros Hn. exists (row config (first + 0) 0 (variantLabel 0)).
  split; [by apply elem_of_tableOne |]. split; [done |]. split; [done |].
  unfold Dashboard.getRunIdByLabel. cbn zeta. rewrite variants_filter.
  case_decide; [| lia].
  change (Z.of_nat 0 <? 0) with false. cbn iota.
  change (Z.to_nat (Z.of_nat 0)) with 0%nat.
  cbn [lookup list_lookup].
  cbn [row run_id]. by rewrite uuidText_truthy.
Qed.

Lemma variants_later config fresh first n i :
  (0 < i)%nat -> fallsBack (tableOne config variantLabel first n) fresh (variantLabel i) i.
Proof.
  intros Hi. unfold fallsBack, Dashboard.getRunIdByLabel. cbn zeta.
  rewrite variants_filter.
  destruct (Z.ltb_spec (Z.of_nat i) 0); [done |].
  case_decide; [| done].
  destruct (Z.to_nat (Z.of_nat i)) as [|i'] eqn:Hi'; [lia | done].
Qed.

Lemma other_label config fresh L L' first n i :
  L <> L' -> fallsBack (tableOne config (fun _ => L) first n) fresh L' i.
Proof.
  intros Hne. unfold fallsBack, Dashboard.getRunIdByLabel. cbn zeta.
  rewrite filter_none.
  2:{ unfold tableOne. apply Forall_forall. intros r [k [<- _]]%list_elem_of_In%in_map_iff.
      cbn. by apply String.eqb_neq. }
  by destruct (Z.of_nat i <? 0).
Qed.

End TableFacts.

(** The table of a protocol serves the requests listed. *)
Lemma tableOf_resolves (config : ExperimentConfig) (fresh : string -> Z -> string)
    (first : nat) (label : string) (i : nat) :
  cfg_type config = CONVERGENCE \/ cfg_type config = COMPARATIVE
  \/ cfg_type config = ABLATION
  \/ (isConsistency (cfg_type config) = true /\ i = 0%nat) ->
  requested config label i ->
  resolves (tableOf config first) fresh label i.
Proof.
  intros Htype [Hi Hlabel].
  unfold requested, rounds, tableOf in *.
  destruct Htype as [H|[H|[H|[H ->]]]].
  - rewrite H in *. cbn in Hi, Hlabel. apply list_elem_of_singleton in Hlabel as ->.
    by apply resolves_one.
  - rewrite H in *. cbn in Hi, Hlabel.
    destruct (resolves_two config fresh "Step-by-Step" "Refinement Loop"
                first (Z.to_nat (runCount config)) i) as [HA HB]; [done | done |].
    apply elem_of_cons in Hlabel as [->|Hlabel]; [done |].
    by apply list_elem_of_singleton in Hlabel as ->.
  - rewrite H in *. cbn in Hi, Hlabel.
    destruct (resolves_two config fresh "Full Context" "Zero Context"
                first (Z.to_nat (runCount config)) i) as [HA HB]; [done | done |].
    apply elem_of_cons in Hlabel as [->|Hlabel]; [done |].
    by apply list_elem_of_singleton in Hlabel as ->.
  - destruct (cfg_type config); try discriminate H;
      cbn in Hlabel; apply list_elem_of_singleton in Hlabel as ->;
      apply variants_first; lia.
Qed.

(** X22 — [handleRun] (run table), [getRunIdByLabel]: for the convergence,
    comparative and ablation protocols, and for the first variant of a
    consistency protocol, each identifier the service asks for is that of
    the run of the table with the label and the number of the round. *)
Theorem getRunIdByLabel_resolves (config : ExperimentConfig)
    (fresh : string -> Z -> string) (w : World) (label : string) (i : nat) :
  cfg_type config = CONVERGENCE \/ cfg_type config = COMPARATIVE
  \/ cfg_type config = ABLATION
  \/ (isConsistency (cfg_type config) = true /\ i = 0%nat) ->
  requested config label i ->
  exists runs w',
    Dashboard.newRuns config w = (Returned runs, [], w')
    /\ resolves runs fresh label i.
Proof.
  intros Htype Hreq. eexists _, _. split; [apply newRuns_run |].
  by apply tableOf_resolves.
Qed.

Lemma getRunIdByLabel_resolves_witness :
  exists runs w',
    Dashboard.newRuns (sampleConfig COMPARATIVE 1 2) (mkWorld 0 0)
    = (Returned runs, [], w')
    /\ resolves runs (fun _ _ => "new") "Refinement Loop" 1.
Proof.
  apply (getRunIdByLabel_resolves (sampleConfig COMPARATIVE 1 2)).
  - right. left. reflexivity.
  - split; [vm_compute; lia |]. vm_compute. right. left.
Defined.

(** X23 — [handleRun] (run table), [getRunIdByLabel]: for every variant of
    a consistency protocol after the first, and for every run of the
    custom protocol, the table has no run for what the service asks, and
    the answer is the newly drawn identifier. *)
Theorem getRunIdByLabel_falls_back (config : ExperimentConfig)
    (fresh : string -> Z -> string) (w : World) (label : string) (i : nat) :
  (isConsistency (cfg_type config) = true /\ (0 < i)%nat)
  \/ cfg_type config = CUSTOM ->
  requested config label i ->
  exists runs w',
    Dashboard.newRuns config w = (Returned runs, [], w')
    /\ fallsBack runs fresh label i.
Proof.
  intros Htype [Hi Hlabel]. eexists _, _. split; [apply newRuns_run |].
  unfold tableOf. destruct Htype as [[H Hpos]|H].
  - destruct (cfg_type config); try discriminate H;
      cbn in Hlabel; apply list_elem_of_singleton in Hlabel as ->;
      by apply variants_later.
  - rewrite H in *. cbn in Hlabel. apply list_elem_of_singleton in Hlabel as ->.
    by apply other_label.
Qed.

Lemma getRunIdByLabel_falls_back_witness :
  exists runs w',
    Dashboard.newRuns (sampleConfig CONSISTENCY_TEXT 1 3) (mkWorld 0 0)
    = (Returned runs, [], w')
    /\ fallsBack runs (fun _ _ => "new") (variantLabel 1) 1.
Proof.
  apply (getRunIdByLabel_falls_back (sampleConfig CONSISTENCY_TEXT 1 3)).
  - left. split; [reflexivity | lia].
  - split; [vm_compute; lia |]. left.
Defined.

(** ** The dashboard's state updates *)

Section UpdateFacts.

Variable activeId : string.

Lemma list_find_insert_same {A} (P : A -> Prop) `{!forall x, Decision (P x)}
    (l : list A) (i : nat) (x y : A) :
  list_find P l = Some (i, x) -> P y -> list_find P (<[i := y]> l) = Some (i, y).
Proof.
  intros (Hi & HP & Hleast)%list_find_Some Hy. apply list_find_Some.
  split; [| split; [done |]].
  - apply list_lookup_insert_eq. by eapply lookup_lt_Some.
  - intros j z Hj Hlt. rewrite list_lookup_insert_ne in Hj by lia. eauto.
Qed.

Lemma changeRun_nil runId change : Dashboard.changeRun runId change [] = [].
Proof. reflexivity. Qed.

Lemma changeRun_cons runId change r runs :
  Dashboard.changeRun runId change (r :: runs)
  = if decide (run_id r = runId) then change r :: runs
    else r :: Dashboard.changeRun runId change runs.
Proof.
  unfold Dashboard.changeRun. cbn. case_decide; [done |].
  by destruct (list_find _ runs) as [[i y]|].
Qed.

Lemma changeRun_unknown runId change runs :
  Forall (fun r => run_id r <> runId) runs ->
  Dashboard.changeRun runId change runs = runs.
Proof.
  induction 1 as [|r runs Hr _ IH]; [done |].
  rewrite changeRun_cons, IH. by case_decide.
Qed.

(** Two changes that keep the identifiers of the runs and commute on each
    run commute on the table. *)
Lemma changeRun_comm a b (f g : ExperimentRun -> ExperimentRun) runs :
  (forall r, run_id (f r) = run_id r) -> (forall r, run_id (g r) = run_id r) ->
  (forall r, f (g r) = g (f r)) ->
  Dashboard.changeRun a f (Dashboard.changeRun b g runs)
  = Dashboard.changeRun b g (Dashboard.changeRun a f runs).
Proof.
  intros Hf Hg Hfg. induction runs as [|r runs IH]; [done |].
  rewrite !(changeRun_cons _ _ r).
  destruct (decide (run_id r = a)) as [Ha|Ha], (decide (run_id r = b)) as [Hb|Hb];
    rewrite !changeRun_cons, ?Hf, ?Hg;
    repeat case_decide; try congruence.
Qed.

Lemma setRuns_same (e : ExperimentData) : Dashboard.setRuns e (exp_runs e) = e.
Proof. by destruct e. Qed.

Lemma getDocsForRun_app project run ids :
  Dashboard.getDocsForRun project
    (mkRun (run_id run) (run_experimentId run) (runNumber run) (run_label run)
       (run_status run) (stepIds run ++ ids))
  = (Dashboard.getDocsForRun project run
     ++ omap (fun stepId =>
                List.find (fun d => Nat.eqb (id d) stepId) (documents project))
          ids)%list.
Proof. unfold Dashboard.getDocsForRun. cbn [stepIds]. apply omap_app. Qed.

Lemma omap_ext_in {A B} (f g : A -> option B) (l : list A) :
  (forall a, a ∈ l -> f a = g a) -> omap f l = omap g l.
Proof.
  induction l as [|a l IH]; intros H; [done |]. cbn.
  rewrite (H a) by left. rewrite IH; [done |]. intros b Hb. apply H. by right.
Qed.

(** X24 — [updateRunStep], [getDocsForRun] (round trip): when the active
    experiment has a run of that identifier and the identifier of the
    step is not yet among the steps of that run, the update puts the step
    in front of the documents and changes that run alone, whose documents
    are then those it had followed by the step. *)
Theorem updateRunStep_round_trip (runId : string) (step : DocumentVersion)
    (current : ProjectState) (expIndex runIdx : nat)
    (e : ExperimentData) (r : ExperimentRun) :
  list_find (Dashboard.isActive activeId) (experiments current) = Some (expIndex, e) ->
  list_find (fun r => run_id r = runId) (exp_runs e) = Some (runIdx, r) ->
  id step ∉ stepIds r ->
  exists e' r',
    documents (Dashboard.updateRunStep activeId runId step current)
    = step :: documents current
    /\ experiments (Dashboard.updateRunStep activeId runId step current)
       = <[expIndex := e']> (experiments current)
    /\ exp_config e' = exp_config e
    /\ exp_runs e' = <[runIdx := r']> (exp_runs e)
    /\ run_id r' = runId
    /\ Dashboard.getDocsForRun
         (Dashboard.updateRunStep activeId runId step current) r'
       = (Dashboard.getDocsForRun current r ++ [step])%list.
Proof.
  intros Hexp Hrun Hnew.
  exists (Dashboard.setRuns e (<[runIdx := Dashboard.appendStep r (id step)]> (exp_runs e))),
         (Dashboard.appendStep r (id step)).
  unfold Dashboard.updateRunStep. rewrite Hexp. cbn zeta.
  unfold Dashboard.changeRun. rewrite Hrun. cbn [documents experiments].
  split; [done |]. split; [done |]. split; [done |]. split; [done |].
  split; [by apply list_find_Some in Hrun as (_ & ? & _) |].
  unfold Dashboard.appendStep. rewrite getDocsForRun_app.
  cbn [documents]. f_equal.
  - unfold Dashboard.getDocsForRun. cbn [documents].
    apply omap_ext_in. intros stepId Hin. cbn [List.find].
    by destruct (Nat.eqb_spec (id step) stepId) as [<-|].
  - cbn. by rewrite Nat.eqb_refl.
Qed.

(** X25 — [updateRunStep] (unknown run): when no run of the active
    experiment has that identifier, no run of any experiment changes;
    the step is still put in front of the documents, where no run lists
    it, unless there is no active experiment, when nothing changes. *)
Theorem updateRunStep_unknown_run (runId : string) (step : DocumentVersion)
    (current : ProjectState) :
  (forall expIndex e,
      list_find (Dashboard.isActive activeId) (experiments current) = Some (expIndex, e) ->
      Forall (fun r => run_id r <> runId) (exp_runs e)) ->
  experiments (Dashboard.updateRunStep activeId runId step current)
  = experiments current
  /\ documents (Dashboard.updateRunStep activeId runId step current)
     = match list_find (Dashboard.isActive activeId) (experiments current) with
       | Some _ => step :: documents current
       | None => documents current
       end.
Proof.
  intros Hnone. unfold Dashboard.updateRunStep.
  destruct (list_find _ (experiments current)) as [[expIndex e]|] eqn:Hexp; [| done].
  cbn zeta. rewrite changeRun_unknown by eauto. rewrite setRuns_same.
  cbn [documents experiments]. split; [| done].
  apply list_insert_id. by apply list_find_Some in Hexp as (? & _).
Qed.

(** X26 — [updateStatus], [updateRunStep] (composition): a status update
    and a step update give the same project in either order, whatever
    runs they name. *)
Theorem updateStatus_updateRunStep_commute (statusRun stepRun : string)
    (status : RunStatus) (step : DocumentVersion) (current : ProjectState) :
  Dashboard.updateStatus activeId statusRun status
    (Dashboard.updateRunStep activeId stepRun step current)
  = Dashboard.updateRunStep activeId stepRun step
      (Dashboard.updateStatus activeId statusRun status current).
Proof.
  unfold Dashboard.updateStatus at 2. unfold Dashboard.updateRunStep at 1.
  destruct (list_find _ (experiments current)) as [[expIndex e]|] eqn:Hexp.
  - cbn zeta. unfold Dashboard.updateStatus, Dashboard.updateRunStep.
    cbn [documents experiments].
    assert (Dashboard.isActive activeId e) as Hactive
      by (by apply list_find_Some in Hexp as (_ & ? & _)).
    rewrite !(list_find_insert_same _ _ _ _ _ Hexp) by done.
    cbn zeta. cbn [Dashboard.setRuns exp_runs exp_config consistencyReport].
    rewrite !list_insert_insert_eq. f_equal. f_equal. f_equal.
    apply changeRun_comm; done.
  - unfold Dashboard.updateStatus, Dashboard.updateRunStep. by rewrite Hexp.
Qed.

End UpdateFacts.

Lemma updateRunStep_round_trip_witness :
  exists e' r',
    documents (Dashboard.updateRunStep "experiment" (uuidText 0)
                 (sampleDocument 7) sampleProject)
    = sampleDocument 7 :: documents sampleProject
    /\ experiments (Dashboard.updateRunStep "experiment" (uuidText 0)
                      (sampleDocument 7) sampleProject)
       = <[0%nat := e']> (experiments sampleProject)
    /\ exp_config e' = sampleConfig CONVERGENCE 1 1
    /\ exp_runs e' = <[0%nat := r']> [row (sampleConfig CONVERGENCE 1 1) 0 0 "Convergence"]
    /\ run_id r' = uuidText 0
    /\ Dashboard.getDocsForRun
         (Dashboard.updateRunStep "experiment" (uuidText 0)
            (sampleDocument 7) sampleProject) r'
       = (Dashboard.getDocsForRun sampleProject
            (row (sampleConfig CONVERGENCE 1 1) 0 0 "Convergence")
          ++ [sampleDocument 7])%list.
Proof.
  apply (updateRunStep_round_trip "experiment" (uuidText 0) (sampleDocument 7)
           sampleProject 0 0
           (mkExperiment (sampleConfig CONVERGENCE 1 1)
              [row (sampleConfig CONVERGENCE 1 1) 0 0 "Convergence"] None)
           (row (sampleConfig CONVERGENCE 1 1) 0 0 "Convergence")).
  - reflexivity.
  - reflexivity.
  - vm_compute. intros H. inversion H.
Defined.

Lemma updateRunStep_unknown_run_witness :
  experiments (Dashboard.updateRunStep "experiment" "Custom#0"
                 (sampleDocument 7) sampleProject)
  = experiments sampleProject
  /\ documents (Dashboard.updateRunStep "experiment" "Custom#0"
                  (sampleDocument 7) sampleProject)
     = [sampleDocument 7].
Proof.
  apply (updateRunStep_unknown_run "experiment" "Custom#0" (sampleDocument 7)
           sampleProject).
  intros expIndex e H. vm_compute in H. injection H as _ <-.
  repeat constructor. vm_compute. discriminate.
Defined.

Section EventFacts.

Variable activeId : string.

Lemma onEvent_active (e : Event) (p : ProjectState) (expIndex : nat)
    (x : ExperimentData) :
  list_find (Dashboard.isActive activeId) (experiments p) = Some (expIndex, x) ->
  exists x',
    list_find (Dashboard.isActive activeId)
      (experiments (Dashboard.onEvent activeId p e)) = Some (expIndex, x').
Proof.
  intros Hexp.
  assert (Dashboard.isActive activeId x) as Hactive
    by (by apply list_find_Some in Hexp as (_ & ? & _)).
  destruct e; cbn [Dashboard.onEvent]; eauto;
    unfold Dashboard.updateRunStep, Dashboard.updateStatus; rewrite Hexp;
    cbn zeta; cbn [experiments]; eexists;
    by apply (list_find_insert_same _ _ _ _ _ Hexp).
Qed.

(** X29 — [handleRun] (callbacks), [updateRunStep], [updateStatus]: when the
    project has the active experiment, the events of the service leave the
    documents handed over in front of the documents of the project, the
    last one first, whatever runs they name; when it has not, the events
    leave the project as it was. *)
Theorem onEvent_documents (ev : list Event) (p : ProjectState) :
  match list_find (Dashboard.isActive activeId) (experiments p) with
  | Some _ =>
      documents (fold_left (Dashboard.onEvent activeId) ev p)
      = (rev (map snd (published ev)) ++ documents p)%list
  | None => fold_left (Dashboard.onEvent activeId) ev p = p
  end.
Proof.
  revert p. induction ev as [|e ev IH]; intros p.
  - by destruct (list_find _ _).
  - cbn [fold_left]. specialize (IH (Dashboard.onEvent activeId p e)).
    destruct (list_find _ (experiments p)) as [[expIndex x]|] eqn:Hexp.
    + destruct (onEvent_active e p expIndex x Hexp) as [x' Hexp'].
      rewrite Hexp' in IH. rewrite IH.
      destruct e as [purpose ok | ms | rid step | rid status | msg];
        cbn [Dashboard.onEvent published omap]; try done;
        unfold Dashboard.updateRunStep, Dashboard.updateStatus; rewrite Hexp;
        cbn zeta; cbn [documents]; [| done].
      change (published (StepAppended rid step :: ev))
        with ((rid, step) :: published ev).
      cbn [map snd rev]. by rewrite <- app_assoc.
    + assert (Dashboard.onEvent activeId p e = p) as Hsame.
      { destruct e; cbn [Dashboard.onEvent]; try done;
          unfold Dashboard.updateRunStep, Dashboard.updateStatus; by rewrite Hexp. }
      rewrite Hsame in *. by rewrite Hexp in IH.
Qed.

End EventFacts.

(** ** What the service tells the dashboard *)

Section Emits.

Context (P : Event -> Prop).

Lemma emits_ret {A} (a : A) (Q : A -> Prop) : Q a -> emits P (mret a) Q.
Proof. intros H w. split; [constructor | done]. Qed.

Lemma emits_throw {A} (Q : A -> Prop) : emits P throw Q.
Proof. intros w. split; [constructor | done]. Qed.

Lemma emits_emit (e : Event) (Q : unit -> Prop) : P e -> Q tt -> emits P (emit e) Q.
Proof. intros He H w. split; [by repeat constructor | done]. Qed.

Lemma emits_bind {A B} (m : Exec A) (f : A -> Exec B) (Q1 : A -> Prop)
    (Q : B -> Prop) :
  emits P m Q1 -> (forall a, Q1 a -> emits P (f a) Q) -> emits P (m ≫= f) Q.
Proof.
  intros Hm Hf w. destruct (Hm w) as [Hev Hpost].
  rewrite run_bind. unfold outcome, trace in *.
  destruct (m w) as [[[a|] ev1] w1]; cbn [fst snd] in *; [| done].
  destruct (Hf a Hpost w1) as [Hev2 Hpost2]. unfold outcome, trace in *.
  destruct (f a w1) as [[r ev2] w2]; cbn [fst snd] in *.
  split; [by apply Forall_app | done].
Qed.

Lemma emits_seq {A B} (m : Exec A) (f : A -> Exec B) (Q : B -> Prop) :
  emits P m (fun _ => True) -> (forall a, emits P (f a) Q) -> emits P (m ≫= f) Q.
Proof. intros Hm Hf. eapply emits_bind; [apply Hm | auto]. Qed.

Lemma emits_tryCatch {A} (m handler : Exec A) (Q : A -> Prop) :
  emits P m Q -> emits P handler Q -> emits P (tryCatch m handler) Q.
Proof.
  intros Hm Hh w. destruct (Hm w) as [Hev Hpost].
  unfold tryCatch, outcome, trace in *.
  destruct (m w) as [[[a|] ev1] w1]; cbn [fst snd] in *; [done |].
  destruct (Hh w1) as [Hev2 Hpost2]. unfold outcome, trace in *.
  destruct (handler w1) as [[r ev2] w2]; cbn [fst snd] in *.
  split; [by apply Forall_app | done].
Qed.

Lemma emits_weaken {A} (m : Exec A) (Q1 Q : A -> Prop) :
  emits P m Q1 -> (forall a, Q1 a -> Q a) -> emits P m Q.
Proof.
  intros Hm HQ w. destruct (Hm w) as [Hev Hpost]. split; [done |].
  destruct (outcome (m w)); auto.
Qed.

Lemma emits_forRange {St} (I : nat -> St -> Prop) (body : nat -> St -> Exec St)
    (count from : nat) (st : St) :
  I from st ->
  (forall i st, (from <= i < from + count)%nat -> I i st ->
                emits P (body i st) (I (S i))) ->
  emits P (forRange count from body st) (I (from + count)%nat).
Proof.
  revert from st. induction count as [|count IH]; intros from st Hstart Hbody;
    cbn [forRange].
  - apply emits_ret. by rewrite Nat.add_0_r.
  - eapply emits_bind; [apply Hbody; [lia | done] |].
    intros st' H1.
    replace (from + S count)%nat with (S from + count)%nat by lia.
    apply IH; [done |]. intros i st0 Hi. apply Hbody. lia.
Qed.

Lemma emits_loop {St} (body : nat -> St -> Exec St) (count from : nat) (st : St) :
  (forall i st, emits P (body i st) (fun _ => True)) ->
  emits P (forRange count from body st) (fun _ => True).
Proof.
  intros Hbody.
  apply (emits_weaken _ (fun _ => True) _); [| done].
  apply (emits_forRange (fun _ _ => True)); [done |]. intros i st0 _ _. apply Hbody.
Qed.

Lemma emits_randomUUID (Q : nat -> Prop) : (forall n, Q n) -> emits P randomUUID Q.
Proof. intros H w. split; [constructor | apply H]. Qed.

End Emits.

Create HintDb quietly.

(** Steps through code that emits nothing but quiet events. *)
Ltac quietly quiet_ok :=
  repeat first
    [ apply emits_ret; exact I
    | apply emits_throw
    | apply emits_emit; [by apply quiet_ok | exact I]
    | apply emits_randomUUID; intros; exact I
    | apply emits_tryCatch
    | apply emits_loop; intros ? ?
    | solve [eauto 2 with quietly]
    | eapply emits_seq; [| intros ?]
    | progress cbn beta zeta
    | match goal with
      | |- emits _ (match ?x with _ => _ end) _ => destruct x
      end ].

Section Quiet.

Variable env : Env.
Context (P : Event -> Prop).
Hypothesis quiet_ok : forall e, quiet e -> P e.

Lemma onLog_emits msg : emits P (onLog msg) (fun _ => True).
Proof. unfold onLog. quietly quiet_ok. Qed.

Lemma stepDelay_emits config : emits P (stepDelay config) (fun _ => True).
Proof. unfold stepDelay, delay. quietly quiet_ok. Qed.

Lemma callModel_emits purpose : emits P (callModel env purpose) (fun _ => True).
Proof.
  intros w. unfold callModel, outcome, trace.
  destruct (generateContent env (oracleCalls w)); cbn;
    (split; [| done]); repeat constructor; by apply quiet_ok.
Qed.

#[local] Hint Resolve onLog_emits stepDelay_emits callModel_emits : quietly.

Lemma generateNarrative_emits purpose method :
  emits P (generateNarrative env purpose method) (fun _ => True).
Proof. unfold generateNarrative. quietly quiet_ok. Qed.

Lemma evaluateCoherence_emits : emits P (evaluateCoherence env) (fun _ => True).
Proof. unfold evaluateCoherence. quietly quiet_ok. Qed.

Lemma materialize_emits raw : emits P (materialize raw) (fun _ => True).
Proof. induction raw as [|a raw IH]; cbn [materialize]; quietly quiet_ok. Qed.

#[local] Hint Resolve generateNarrative_emits evaluateCoherence_emits
  materialize_emits : quietly.

Lemma runGenerationStep_emits config rid rlabel previousStep resources active
    methodOverride stepNo iter :
  emits P
    (runGenerationStep env config rid rlabel previousStep resources active
       methodOverride stepNo iter)
    (filedUnder config rid rlabel).
Proof.
  unfold runGenerationStep. quietly quiet_ok. by apply emits_ret.
Qed.

Lemma matchAnnotationsWithGemini_emits annsA annsB :
  emits P (matchAnnotationsWithGemini env annsA annsB) (fun _ => True).
Proof. unfold matchAnnotationsWithGemini. quietly quiet_ok. Qed.

#[local] Hint Resolve matchAnnotationsWithGemini_emits : quietly.

Lemma compareAnnotations_emits annsA annsB :
  emits P (compareAnnotations env annsA annsB) (fun _ => True).
Proof. unfold compareAnnotations. quietly quiet_ok. Qed.

#[local] Hint Resolve compareAnnotations_emits : quietly.

Lemma comparePair_emits annotationOnly a b acc :
  emits P (comparePair env annotationOnly a b acc) (fun _ => True).
Proof. unfold comparePair. quietly quiet_ok. Qed.

#[local] Hint Resolve comparePair_emits : quietly.

Lemma buildConsistencyReport_emits runs baseline annotationOnly :
  emits P (buildConsistencyReport env runs baseline annotationOnly) (fun _ => True).
Proof. unfold buildConsistencyReport, pairLoops. quietly quiet_ok. Qed.

Lemma generateConsistencyCommentary_emits report :
  emits P (generateConsistencyCommentary env report) (fun _ => True).
Proof. unfold generateConsistencyCommentary. quietly quiet_ok. Qed.

#[local] Hint Resolve buildConsistencyReport_emits
  generateConsistencyCommentary_emits : quietly.

Lemma finishReport_emits report : emits P (finishReport env report) (fun _ => True).
Proof. unfold finishReport. quietly quiet_ok. Qed.

Lemma highlightAnnotations_emits raw :
  emits P (highlightAnnotations raw) (fun _ => True).
Proof. induction raw as [|a raw IH]; cbn [highlightAnnotations]; quietly quiet_ok. Qed.

#[local] Hint Resolve finishReport_emits highlightAnnotations_emits : quietly.

(** Highlighting changes the annotations of the outputs, nothing else. *)
Lemma annotateOutputs_emits (Q : Output -> Prop) annMap outputs :
  (forall o anns, Q o -> Q (mkOutput (out_label o) (out_runId o)
                               (setAnnotations (doc o) anns))) ->
  Forall Q outputs ->
  emits P (annotateOutputs annMap outputs) (Forall Q).
Proof.
  intros HQ. induction 1 as [|o outputs Ho _ IH]; cbn [annotateOutputs].
  - by apply emits_ret.
  - eapply emits_seq; [quietly quiet_ok |]. intros anns.
    eapply emits_bind; [apply IH |]. intros rest Hrest.
    apply emits_ret. constructor; [by apply HQ | done].
Qed.

Lemma highlightVariants_emits (Q : Output -> Prop) outputs :
  (forall o anns, Q o -> Q (mkOutput (out_label o) (out_runId o)
                               (setAnnotations (doc o) anns))) ->
  Forall Q outputs ->
  emits P (highlightVariants env outputs) (Forall Q).
Proof.
  intros HQ Houtputs. unfold highlightVariants. apply emits_tryCatch.
  - eapply emits_seq; [quietly quiet_ok |]. intros result. cbn zeta.
    eapply emits_seq; [quietly quiet_ok |]. intros _.
    by apply annotateOutputs_emits.
  - eapply emits_seq; [quietly quiet_ok |]. intros _. by apply emits_ret.
Qed.

(** *** The runners, for a run whose documents [P] accepts *)

Section Runner.

Variables (config : ExperimentConfig) (rid rlabel : string).
Hypothesis filed_ok :
  forall step, filedUnder config rid rlabel step -> P (StepAppended rid step).

Lemma publishStep_emits stepNo step cumulative :
  filedUnder config rid rlabel step ->
  emits P (publishStep rid stepNo step cumulative) (fun _ => True).
Proof.
  intros Hstep. unfold publishStep, onUpdateRun, logCumulative.
  eapply emits_seq; [apply emits_emit; [by apply filed_ok | done] |]. intros _.
  quietly quiet_ok.
Qed.

Lemma executeRefinementLoop_emits resources active :
  emits P (executeRefinementLoop env config rid rlabel resources active)
    (fun _ => True).
Proof.
  unfold executeRefinementLoop.
  eapply emits_bind; [apply runGenerationStep_emits |]. intros currentStep Hstep.
  eapply emits_seq; [by apply publishStep_emits |]. intros cumulative.
  eapply emits_seq; [| intros ?; by apply emits_ret].
  apply emits_loop. intros i [step usage]. unfold refineOnce.
  eapply emits_seq; [quietly quiet_ok |]. intros _. cbn zeta.
  eapply emits_bind; [apply runGenerationStep_emits |]. intros step' Hstep'.
  eapply emits_seq; [by apply publishStep_emits |]. intros cumulative'.
  by apply emits_ret.
Qed.

Lemma executeStepByStep_emits resources active :
  emits P (executeStepByStep env config rid rlabel resources active)
    (fun _ => True).
Proof.
  unfold executeStepByStep, onUpdateRun, logCumulative.
  eapply emits_seq; [quietly quiet_ok |]. intros _.
  eapply emits_bind; [apply runGenerationStep_emits |]. intros stepDoc Hstep.
  eapply emits_seq; [apply emits_emit; [by apply filed_ok | done] |]. intros _.
  quietly quiet_ok.
Qed.

End Runner.

End Quiet.

Section Orderly.

Variables (env : Env) (config : ExperimentConfig).

Lemma quiet_orderly (e : Event) : quiet e -> orderly env config e.
Proof. by destruct e. Qed.

Lemma orderly_status (label : string) (i : nat) (status : RunStatus) :
  requested config label i -> status <> failed ->
  orderly env config (StatusChanged (getRunIdByLabel env label (Z.of_nat i)) status).
Proof. intros Hreq Hstatus. split; [done |]. exists label, i. done. Qed.

Lemma orderly_step (label : string) (i : nat) (step : DocumentVersion) :
  requested config label i -> cfg_type config <> CONSISTENCY_ANNOTATION ->
  filedUnder config (getRunIdByLabel env label (Z.of_nat i)) label step ->
  orderly env config (StepAppended (getRunIdByLabel env label (Z.of_nat i)) step).
Proof.
  intros Hreq Htype Hstep. exists label. split; [by exists i |].
  by destruct (cfg_type config).
Qed.

Lemma labelledRun_emits (label banner : string) (i : nat)
    (runner : string -> string -> Exec unit) :
  requested config label i ->
  emits (orderly env config) (runner (getRunIdByLabel env label (Z.of_nat i)) label)
    (fun _ => True) ->
  emits (orderly env config) (labelledRun env label banner i runner) (fun _ => True).
Proof.
  intros Hreq Hrunner. unfold labelledRun, onStatusChange. cbn zeta.
  eapply emits_seq; [apply emits_emit; [by apply orderly_status | done] |]. intros _.
  eapply emits_seq.
  { destruct (Js.truthy banner); [apply onLog_emits, quiet_orderly | by apply emits_ret]. }
  intros _. eapply emits_seq; [apply Hrunner |]. intros _.
  apply emits_emit; [by apply orderly_status | done].
Qed.

Lemma repetitions_emits (body : nat -> Exec unit) :
  (forall i, (i < Z.to_nat (runCount config))%nat ->
             emits (orderly env config) (body i) (fun _ => True)) ->
  emits (orderly env config) (repetitions config body) (fun _ => True).
Proof.
  intros Hbody. unfold repetitions.
  apply (emits_weaken _ _ (fun _ => True) (fun _ => True)); [| done].
  apply (emits_forRange _ (fun _ _ => True)); [done |].
  intros i [] Hi _. apply Hbody. lia.
Qed.

(** A run of the refinement loop under a label of the protocol. *)
Lemma refinementRun_emits (label banner : string) (i : nat) resources active :
  requested config label i -> cfg_type config <> CONSISTENCY_ANNOTATION ->
  emits (orderly env config)
    (labelledRun env label banner i
       (fun runId label => executeRefinementLoop env config runId label resources active))
    (fun _ => True).
Proof.
  intros Hreq Htype. apply labelledRun_emits; [done |].
  apply executeRefinementLoop_emits; [apply quiet_orderly |].
  intros step Hstep. by apply orderly_step.
Qed.

Lemma stepByStepRun_emits (label banner : string) (i : nat) resources active :
  requested config label i -> cfg_type config <> CONSISTENCY_ANNOTATION ->
  emits (orderly env config)
    (labelledRun env label banner i
       (fun runId label => executeStepByStep env config runId label resources active))
    (fun _ => True).
Proof.
  intros Hreq Htype. apply labelledRun_emits; [done |].
  apply executeStepByStep_emits; [apply quiet_orderly |].
  intros step Hstep. by apply orderly_step.
Qed.

Lemma variant_requested (i : nat) :
  isConsistency (cfg_type config) = true ->
  (i < Z.to_nat (variantCount config))%nat ->
  requested config (variantLabel i) i.
Proof.
  intros Htype Hi. unfold requested, rounds. rewrite Htype. split; [done |].
  destruct (cfg_type config); try discriminate Htype; by left.
Qed.

Lemma textVariant_emits resources (i : nat) (outputs : list Output) :
  cfg_type config = CONSISTENCY_TEXT ->
  (i < Z.to_nat (variantCount config))%nat ->
  Forall (orderlyOutput env config) outputs ->
  emits (orderly env config) (textVariant env config resources i outputs)
    (Forall (orderlyOutput env config)).
Proof.
  intros Htype Hi Houtputs.
  assert (requested config (variantLabel i) i) as Hreq
    by (apply variant_requested; [by rewrite Htype | done]).
  unfold textVariant, onStatusChange. cbn zeta.
  eapply emits_seq; [apply emits_emit; [by apply orderly_status | done] |]. intros _.
  eapply emits_seq; [apply onLog_emits, quiet_orderly |]. intros _.
  eapply emits_bind; [apply runGenerationStep_emits, quiet_orderly |].
  intros step Hstep.
  eapply emits_seq; [apply emits_emit; [by apply orderly_status | done] |]. intros _.
  eapply emits_seq; [apply stepDelay_emits, quiet_orderly |]. intros _.
  apply emits_ret. apply Forall_app. split; [done |].
  apply Forall_singleton. split; [by exists i | done].
Qed.

Lemma publishAll_emits (outputs : list Output) :
  cfg_type config = CONSISTENCY_TEXT ->
  Forall (orderlyOutput env config) outputs ->
  emits (orderly env config) (publishAll outputs) (fun _ => True).
Proof.
  intros Htype. induction 1 as [|o outputs [Hasked Hfiled] _ IH]; cbn [publishAll].
  - by apply emits_ret.
  - unfold onUpdateRun. eapply emits_seq; [| intros _; apply IH].
    apply emits_emit; [| done]. exists (out_label o). by rewrite Htype.
Qed.

Lemma textConsistency_emits resources :
  cfg_type config = CONSISTENCY_TEXT ->
  emits (orderly env config) (textConsistency env config resources) (fun _ => True).
Proof.
  intros Htype. unfold textConsistency.
  eapply emits_bind.
  { apply (emits_forRange _ (fun _ => Forall (orderlyOutput env config)));
      [constructor |].
    intros i outputs Hi Houtputs. apply textVariant_emits; [done | lia | done]. }
  intros outputs Houtputs. cbn beta in Houtputs.
  eapply emits_bind.
  { apply (highlightVariants_emits env _ quiet_orderly (orderlyOutput env config));
      [| done].
    by intros o anns [? ?]. }
  intros outputs' Houtputs'.
  eapply emits_seq; [by apply publishAll_emits |]. intros _.
  eapply emits_seq; [apply buildConsistencyReport_emits, quiet_orderly |].
  intros report. apply finishReport_emits, quiet_orderly.
Qed.

Lemma annotationPass_emits baseDoc (i : nat) (outputs : list Output) :
  cfg_type config = CONSISTENCY_ANNOTATION ->
  (i < Z.to_nat (variantCount config))%nat ->
  emits (orderly env config) (annotationPass env config baseDoc i outputs)
    (fun _ => True).
Proof.
  intros Htype Hi.
  assert (requested config (variantLabel i) i) as Hreq
    by (apply variant_requested; [by rewrite Htype | done]).
  unfold annotationPass, onStatusChange, onUpdateRun. cbn zeta.
  eapply emits_seq; [apply emits_emit; [by apply orderly_status | done] |]. intros _.
  eapply emits_seq; [apply onLog_emits, quiet_orderly |]. intros _.
  eapply emits_seq; [apply evaluateCoherence_emits, quiet_orderly |]. intros evalResult.
  eapply emits_seq; [by apply emits_randomUUID |]. intros uuid.
  eapply emits_seq; [apply materialize_emits |]. intros anns.
  eapply emits_seq.
  { apply emits_emit; [| done]. exists (variantLabel i).
    split; [by exists i |]. by rewrite Htype. }
  intros _.
  eapply emits_seq; [apply emits_emit; [by apply orderly_status | done] |]. intros _.
  eapply emits_seq; [apply stepDelay_emits, quiet_orderly |]. intros _.
  by apply emits_ret.
Qed.

Lemma annotationConsistency_emits resources :
  cfg_type config = CONSISTENCY_ANNOTATION ->
  emits (orderly env config) (annotationConsistency env config resources)
    (fun _ => True).
Proof.
  intros Htype. unfold annotationConsistency, generateBase, annotationRounds,
    onStatusChange. cbn zeta.
  assert (requested config "Variant 1" 0) as Hreq.
  { apply (variant_requested 0); [by rewrite Htype |].
    pose proof (variantCount_clamped config). lia. }
  eapply emits_seq.
  { apply emits_emit; [| done]. by apply (orderly_status "Variant 1" 0). }
  intros _.
  eapply emits_seq; [apply onLog_emits, quiet_orderly |]. intros _.
  eapply emits_seq.
  { eapply emits_weaken; [apply runGenerationStep_emits, quiet_orderly | done]. }
  intros baseDoc.
  eapply emits_seq.
  { apply (emits_weaken _ _ (fun _ => True) (fun _ => True)); [| done].
    apply (emits_forRange _ (fun _ _ => True)); [done |].
    intros i outputs Hi _. apply annotationPass_emits; [done | lia]. }
  intros outputs.
  eapply emits_seq; [apply buildConsistencyReport_emits, quiet_orderly |].
  intros report. apply finishReport_emits, quiet_orderly.
Qed.

Lemma protocol_emits allResources :
  emits (orderly env config) (protocol env config allResources) (fun _ => True).
Proof.
  unfold protocol. cbn zeta.
  assert (forall label i,
             (i < Z.to_nat (runCount config))%nat ->
             isConsistency (cfg_type config) = false ->
             label ∈ labelsOf (cfg_type config) i ->
             requested config label i) as Hreq.
  { intros label i Hi Htype Hlabel. unfold requested, rounds. by rewrite Htype. }
  destruct (cfg_type config) eqn:Htype.
  all: try (eapply emits_seq;
            [| intros _; eapply emits_seq;
                 [apply onLog_emits, quiet_orderly | intros _; by apply emits_ret]];
            apply repetitions_emits; intros i Hi).
  - apply refinementRun_emits; [| by rewrite Htype].
    apply Hreq; [done | done | by left].
  - eapply emits_seq; [| intros _].
    + apply stepByStepRun_emits; [| by rewrite Htype].
      apply Hreq; [done | done | by left].
    + apply refinementRun_emits; [| by rewrite Htype].
      apply Hreq; [done | done | by right; left].
  - eapply emits_seq; [| intros _].
    + apply refinementRun_emits; [| by rewrite Htype].
      apply Hreq; [done | done | by left].
    + apply refinementRun_emits; [| by rewrite Htype].
      apply Hreq; [done | done | by right; left].
  - by apply textConsistency_emits.
  - by apply annotationConsistency_emits.
  - apply refinementRun_emits; [| by rewrite Htype].
    apply Hreq; [done | done | by left].
Qed.

(** X27 — [runExperimentLoop]: whatever the oracle answers, the service
    returns; every status it reports is ['running'] or ['completed'], never
    ['failed'], and goes to a run it asked the resolver for; every document
    it hands over goes to such a run and names the experiment, that run and
    its label, except in the annotation-consistency protocol, whose
    documents name no experiment, no run and no label. *)
Theorem runExperimentLoop_orderly (allResources : list Resource) (w : World) :
  Forall (orderly env config) (trace (runExperimentLoop env config allResources w))
  /\ exists report,
       outcome (runExperimentLoop env config allResources w) = Returned report.
Proof.
  split.
  - assert (emits (orderly env config) (runExperimentLoop env config allResources)
              (fun _ => True)) as H.
    { unfold runExperimentLoop. apply emits_tryCatch; [apply protocol_emits |].
      eapply emits_seq; [apply onLog_emits, quiet_orderly |]. intros _.
      by apply emits_ret. }
    apply H.
  - unfold runExperimentLoop, tryCatch, outcome.
    destruct (protocol env config allResources w) as [[[report|] ev] w1];
      cbn; eauto.
Qed.

End Orderly.

(** X28 — [handleRun], [runExperimentLoop] (composition): in the
    convergence, comparative and ablation protocols, run with the resolver
    and the run table of the dashboard, every status the service reports
    goes to a run of the table, and every document it hands over goes to a
    run of the table and names the identifier and the label of that run. *)
Theorem runExperimentLoop_reaches_table (env : Env) (fresh : string -> Z -> string)
    (config : ExperimentConfig) (allResources : list Resource) (w : World) :
  cfg_type config = CONVERGENCE \/ cfg_type config = COMPARATIVE
  \/ cfg_type config = ABLATION ->
  exists runs w1,
    Dashboard.newRuns config w = (Returned runs, [], w1)
    /\ Forall (reaches runs)
         (trace (runExperimentLoop
                   (withResolver env (Dashboard.getRunIdByLabel runs fresh))
                   config allResources w1)).
Proof.
  intros Htype. eexists _, _. split; [apply newRuns_run |].
  set (runs := tableOf config (uuids w)).
  set (env' := withResolver env (Dashboard.getRunIdByLabel runs fresh)).
  assert (emits (orderly env' config) (runExperimentLoop env' config allResources)
            (fun _ => True)) as Horderly.
  { unfold runExperimentLoop. apply emits_tryCatch; [apply protocol_emits |].
    eapply emits_seq; [apply onLog_emits, quiet_orderly |]. intros _.
    by apply emits_ret. }
  eapply Forall_impl; [apply Horderly |].
  assert (forall label rid,
             answers env' config label rid ->
             exists r, r ∈ runs /\ run_id r = rid /\ run_label r = label) as Hrun.
  { intros label rid (i & Hreq & ->).
    destruct (tableOf_resolves config fresh (uuids w) label i) as (r & ? & ? & _ & ?);
      [tauto | done |].
    exists r. done. }
  intros [purpose ok | ms | rid step | rid status | msg] Hev;
    cbn [orderly reaches] in *; try done.
  - destruct Hev as (label & Hasked & Hfiled).
    destruct (Hrun _ _ Hasked) as (r & Hin & Hid & Hlabel).
    assert (filedUnder config rid label step) as (_ & ? & ?)
      by (by destruct Htype as [H|[H|H]]; rewrite H in Hfiled).
    exists r. rewrite Hlabel. done.
  - destruct Hev as (_ & label & Hasked).
    destruct (Hrun _ _ Hasked) as (r & Hin & Hid & _). by exists r.
Qed.

Lemma runExperimentLoop_reaches_table_witness :
  exists runs w1,
    Dashboard.newRuns (sampleConfig COMPARATIVE 1 2) freshWorld
    = (Returned runs, [], w1)
    /\ Forall (reaches runs)
         (trace (runExperimentLoop
                   (withResolver obligingEnv
                      (Dashboard.getRunIdByLabel runs (fun _ _ => "new")))
                   (sampleConfig COMPARATIVE 1 2) [] w1)).
Proof.
  apply (runExperimentLoop_reaches_table obligingEnv (fun _ _ => "new")
           (sampleConfig COMPARATIVE 1 2) [] freshWorld).
  right. left. reflexivity.
Defined.
